(** * HackRx retrieval-and-decision webhook: a shallow embedding and its properties

    The development follows the JavaScript sources of the repository:

    - [index.js] (the [/hackrx/run] pipeline: [cosine], [chunkText],
      [fetchAndExtract], [embedTexts] and the request handler);
    - the two simplified handlers ([POST] of the route file and [handler] of
      [pages/api/webhook.js]).

    Conventions of the embedding.

    - A JavaScript string is a [string]: a sequence of code units, restricted
      to U+0000..U+00FF.  [length], [slice], [toLowerCase], [trim], the
      regular expression [\s] and [includes] are modelled on that alphabet.
    - A JavaScript number is an IEEE 754 binary64 value: the kernel's
      primitive [float].  Array indices and counters are [nat] or [Z].
    - [undefined] is [None]; a thrown exception, a rejected promise and a
      loop that never exits are outcomes of the [Result] type.
    - The embedding and chat back ends, the document extractor, the clock and
      number formatting are fields of a [Providers] record; every call to a
      back end is logged.  The extractor is also modelled on its own, over
      the libraries it calls ([fetch], the PDF and DOCX readers). *)

From Stdlib Require Import List String Ascii ZArith NArith Lia Bool Arith.
From Stdlib Require Import Sorting.Sorted Sorting.Permutation.
From Stdlib Require Import Floats DecimalString.
Import ListNotations.

Open Scope string_scope.

(* ===================================================================== *)
(** * JavaScript strings *)
(* ===================================================================== *)

Module JsString.

(** [s.slice(0, n)] on an in-range [n]: the first [n] code units. *)
Fixpoint take (n : nat) (s : string) : string :=
  match n, s with
  | S n', String c s' => String c (take n' s')
  | _, _ => EmptyString
  end.

(** [s.slice(n)] on an in-range [n]: all but the first [n] code units. *)
Fixpoint drop (n : nat) (s : string) : string :=
  match n, s with
  | S n', String _ s' => drop n' s'
  | _, _ => s
  end.

(** The relative-index rule of [String.prototype.slice]: a negative index
    counts from the end, and every index is clamped to [0, len]. *)
Definition relative_index (len k : Z) : Z :=
  if (k <? 0)%Z then Z.max (len + k) 0 else Z.min k len.

(** [s.slice(start, stop)]. *)
Definition slice (s : string) (start stop : Z) : string :=
  let len := Z.of_nat (length s) in
  let from := relative_index len start in
  let to := relative_index len stop in
  take (Z.to_nat (to - from)) (drop (Z.to_nat from) s).

(** The last [k] code units of [s] (all of [s] when it is shorter). *)
Definition suffix (k : nat) (s : string) : string := drop (length s - k) s.

(** The first [k] code units of [s] (all of [s] when it is shorter). *)
Definition prefix (k : nat) (s : string) : string := take k s.

(** [s.includes(k)]: [k] occurs in [s] as a contiguous substring. *)
Fixpoint includes (s k : string) : bool :=
  if String.prefix k s then true
  else match s with
       | EmptyString => false
       | String _ s' => includes s' k
       end.

(** [parts.join(sep)]. *)
Fixpoint join (sep : string) (parts : list string) : string :=
  match parts with
  | [] => EmptyString
  | [p] => p
  | p :: rest => p ++ sep ++ join sep rest
  end.

(** [\s] of a regular expression, and the characters [trim] removes, on
    the alphabet U+0000..U+00FF: TAB, LF, VT, FF, CR, SPACE and NBSP. *)
Definition is_space (c : ascii) : bool :=
  let n := nat_of_ascii c in
  (((9 <=? n) && (n <=? 13)) || (n =? 32) || (n =? 160))%nat.

(** One code unit of [toLowerCase]: A-Z and the upper-case letters of
    Latin-1 (U+00C0..U+00DE but the multiplication sign U+00D7). *)
Definition lower_char (c : ascii) : ascii :=
  let n := nat_of_ascii c in
  if (((65 <=? n) && (n <=? 90))
      || ((192 <=? n) && (n <=? 222) && negb (n =? 215)))%nat
  then ascii_of_nat (n + 32) else c.

Fixpoint toLowerCase (s : string) : string :=
  match s with
  | EmptyString => EmptyString
  | String c s' => String (lower_char c) (toLowerCase s')
  end.

(** Removes leading white space. *)
Fixpoint trimStart (s : string) : string :=
  match s with
  | String c s' => if is_space c then trimStart s' else s
  | EmptyString => EmptyString
  end.

(** Removes trailing white space. *)
Fixpoint trimEnd (s : string) : string :=
  match s with
  | EmptyString => EmptyString
  | String c s' =>
      match trimEnd s' with
      | EmptyString => if is_space c then EmptyString else String c EmptyString
      | t => String c t
      end
  end.

Definition trim (s : string) : string := trimEnd (trimStart s).

(** [s.replace(/\s+/g, " ")]: every maximal run of white space becomes one
    space. *)
Fixpoint collapse_from (in_run : bool) (s : string) : string :=
  match s with
  | EmptyString => EmptyString
  | String c s' =>
      if is_space c
      then if in_run then collapse_from true s'
           else String " "%char (collapse_from true s')
      else String c (collapse_from false s')
  end.

Definition collapse_spaces (s : string) : string := collapse_from false s.

End JsString.

(* ===================================================================== *)
(** * Outcomes of JavaScript code *)
(* ===================================================================== *)

(** The exceptions the modelled code can meet: a back end that rejects (with
    its message), a [TypeError] (a property read on [undefined] or [null]) and
    the [SyntaxError] of [JSON.parse]. *)
Inductive Exn : Type :=
| ProviderFailure (message : string)
| TypeError
| SyntaxError.

(** What running a piece of code yields: a value, an exception, or nothing at
    all because a loop never exits. *)
Inductive Result (A : Type) : Type :=
| Ok (a : A)
| Throw (e : Exn)
| Hang.

Arguments Ok {A} a.
Arguments Throw {A} e.
Arguments Hang {A}.

(** [x ?? d]: [d] replaces an absent [x]. *)
Definition nullish_or {A : Type} (x : option A) (d : A) : A :=
  match x with
  | Some v => v
  | None => d
  end.

Notation "x ?? d" := (nullish_or x d) (at level 45, left associativity).

(** [l.map((x, i) => f i x)] and [l.forEach] with the index. *)
Fixpoint mapi_from {A B : Type} (i : nat) (f : nat -> A -> B) (l : list A) : list B :=
  match l with
  | [] => []
  | x :: l' => f i x :: mapi_from (S i) f l'
  end.

Definition mapi {A B : Type} (f : nat -> A -> B) (l : list A) : list B :=
  mapi_from 0 f l.

(** [l.reduce((s, v, i) => f s v i, init)]. *)
Fixpoint reduce_from {A B : Type} (i : nat) (f : B -> A -> nat -> B) (acc : B)
  (l : list A) : B :=
  match l with
  | [] => acc
  | v :: l' => reduce_from (S i) f (f acc v i) l'
  end.

Definition reduce {A B : Type} (f : B -> A -> nat -> B) (init : B) (l : list A) : B :=
  reduce_from 0 f init l.

(* ===================================================================== *)
(** * The chunker: [chunkText] *)
(* ===================================================================== *)

Module Chunker.
Import JsString.

(** The [while] loop of [chunkText], [fuel] iterations at most: [None] when
    the loop has not exited by then.  [i] is the window start and [chunks]
    the array built so far.  With [overlap >= chunkSize] the window start
    does not advance and the test of the loop stays true; the engine ends
    such a run with an error once the array can grow no more, which [None]
    does not tell.  No call of the pipeline is of this kind: its one call
    passes 900 and 150. *)
Fixpoint chunkText_loop (fuel : nat) (text : string) (chunkSize overlap : Z)
  (i : Z) (chunks : list string) : option (list string) :=
  match fuel with
  | O => None
  | S fuel' =>
      if (i <? Z.of_nat (length text))%Z then
        let chunk := slice text i (i + chunkSize) in
        chunkText_loop fuel' text chunkSize overlap
          (i + (chunkSize - overlap))%Z (chunks ++ [chunk])%list
      else Some chunks
  end.

(** [chunkText(text, chunkSize, overlap)] run for [length text + 1]
    iterations, which is enough whenever the loop exits at all (see
    [chunkText_fuel_enough] and [chunkText_diverges]). *)
Definition chunkText (text : string) (chunkSize overlap : Z) : option (list string) :=
  chunkText_loop (S (length text)) text chunkSize overlap 0%Z [].

(** The defaults of the signature: [chunkSize = 800]. *)
Definition default_chunkSize : Z := 800.

(** The defaults of the signature: [overlap = 100]. *)
Definition default_overlap : Z := 100.

(** The window starts the loop visits from [i] on, as a list built front to
    back; [chunkText_loop] appends exactly these to its accumulator. *)
Fixpoint windows (fuel : nat) (text : string) (chunkSize overlap : Z) (i : Z)
  : option (list string) :=
  match fuel with
  | O => None
  | S fuel' =>
      if (i <? Z.of_nat (length text))%Z then
        option_map (cons (slice text i (i + chunkSize)))
          (windows fuel' text chunkSize overlap (i + (chunkSize - overlap))%Z)
      else Some []
  end.

End Chunker.

(* ===================================================================== *)
(** * Vectors: [cosine] *)
(* ===================================================================== *)

Module Vector.
#[local] Open Scope float_scope.

Definition vector : Type := list float.

(** [cosine(a, b)], operation for operation: [Math.sqrt] is the correctly
    rounded square root, [===] on numbers the IEEE equality (zero equals
    minus zero, NaN equals nothing), and no operation on numbers raises. *)
Definition cosine (a b : vector) : float :=
  let dot := reduce (fun s v i => s + v * (nth_error b i ?? 0)) 0 a in
  let magA := sqrt (reduce (fun s v _ => s + v * v) 0 a) in
  let magB := sqrt (reduce (fun s v _ => s + v * v) 0 b) in
  if (magA =? 0) || (magB =? 0) then 0 else dot / (magA * magB).

(** The reading the specification gives of the score: dot product and
    magnitudes, both summed left to right from [0] (floating-point addition
    is not associative). *)

(** [b] extended with zeros to the length of [a] (unchanged when it is at
    least as long). *)
Definition pad_to (a b : vector) : vector :=
  (b ++ repeat 0 (List.length a - List.length b))%list.

(** The dot product of [a] and [b], an entry [b] lacks being read as [0]. *)
Definition dot_product (a b : vector) : float :=
  fold_left (fun s p => s + fst p * snd p) (combine a (pad_to a b)) 0.

(** The magnitude (Euclidean norm) of [a]. *)
Definition magnitude (a : vector) : float :=
  sqrt (fold_left (fun s v => s + v * v) a 0).

(** The constant [dot] of [cosine(a, b)], on its own. *)
Definition cosine_dot (a b : vector) : float :=
  reduce (fun s v i => s + v * (nth_error b i ?? 0)) 0 a.

End Vector.

(* ===================================================================== *)
(** * JSON values and [JSON.parse] *)
(* ===================================================================== *)

Module Json.

(** A value [JSON.parse] can return.  An object keeps its keys in insertion
    order, each key once. *)
#[warnings="-register-all"]
Inductive json : Type :=
| JNull
| JBool (b : bool)
| JNum (x : float)
| JStr (s : string)
| JArr (items : list json)
| JObj (fields : list (string * json)).

(** [ToBoolean]: which values count as true in [!x], [x || y]. *)
Definition truthy (v : json) : bool :=
  match v with
  | JNull => false
  | JBool b => b
  | JNum x => negb (PrimFloat.eqb x 0%float || PrimFloat.is_nan x)
  | JStr s => negb (String.eqb s EmptyString)
  | JArr _ => true
  | JObj _ => true
  end.

(** [x || y], each side possibly [undefined]. *)
Definition or_opt (x y : option json) : option json :=
  match x with
  | Some v => if truthy v then Some v else y
  | None => y
  end.

(** [x || y] with a [y] that is defined. *)
Definition or_else (x : option json) (y : json) : json :=
  match x with
  | Some v => if truthy v then v else y
  | None => y
  end.

(** [x ?? y], each side possibly [undefined]: [null] is replaced too. *)
Definition nullish_opt (x y : option json) : option json :=
  match x with
  | Some JNull => y
  | Some v => Some v
  | None => y
  end.

(** [x ?? y] with a [y] that is defined. *)
Definition nullish_else (x : option json) (y : json) : json :=
  match x with
  | Some JNull => y
  | Some v => v
  | None => y
  end.

(** The own property [k] of an object's field list. *)
Fixpoint lookup (k : string) (fields : list (string * json)) : option json :=
  match fields with
  | [] => None
  | (k', v) :: rest => if String.eqb k k' then Some v else lookup k rest
  end.

(** [o[k] = v] on a field list: an existing key keeps its place. *)
Fixpoint obj_set (fields : list (string * json)) (k : string) (v : json)
  : list (string * json) :=
  match fields with
  | [] => [(k, v)]
  | (k', v') :: rest =>
      if String.eqb k k' then (k', v) :: rest else (k', v') :: obj_set rest k v
  end.

(** [v.k] for a key [k] no prototype defines: a [TypeError] on [null],
    [undefined] on a primitive or an array, the own property on an object. *)
Definition get_prop (v : json) (k : string) : Result (option json) :=
  match v with
  | JNull => Throw TypeError
  | JObj fields => Ok (lookup k fields)
  | _ => Ok None
  end.

(** [v.k = x]: stored on an object; on a primitive the assignment is
    dropped (the module is not in strict mode), on an array it sets a
    property that is no element and no part of the array's JSON form. *)
Definition set_prop (v : json) (k : string) (x : json) : json :=
  match v with
  | JObj fields => JObj (obj_set fields k x)
  | _ => v
  end.

(** ** Numbers *)

(** The binary64 value nearest to [m * 10 ^ e10] (ties to even), for a
    mantissa [m >= 0] read from a decimal literal; [neg] is the sign. *)
Definition float_of_decimal (neg : bool) (m e10 : Z) : float :=
  let magnitude :=
    match m with
    | Z0 => S754_zero false
    | Zpos _ =>
        if (0 <=? e10)%Z
        then binary_normalize prec emax (m * 10 ^ e10)%Z 0%Z false
        else
          let '(q, e, l) := SFdiv_core_binary prec emax m 0%Z (10 ^ (- e10))%Z 0%Z in
          binary_round_aux prec emax false q e l
    | Zneg _ => S754_nan
    end in
  let x := SF2Prim magnitude in
  if neg then PrimFloat.opp x else x.

(** The number [n] as a JavaScript number. *)
Definition float_of_nat (n : nat) : float :=
  float_of_decimal false (Z.of_nat n) 0%Z.

(** ** The parser *)

Definition code (c : ascii) : nat := nat_of_ascii c.

Definition is_digit (c : ascii) : bool :=
  ((48 <=? code c) && (code c <=? 57))%nat.

(** JSON white space: TAB, LF, CR and SPACE. *)
Definition is_json_ws (c : ascii) : bool :=
  ((code c =? 9) || (code c =? 10) || (code c =? 13) || (code c =? 32))%nat.

Fixpoint skip_ws (s : string) : string :=
  match s with
  | String c s' => if is_json_ws c then skip_ws s' else s
  | EmptyString => EmptyString
  end.

(** The digits [s] starts with, as the number they write on top of [acc],
    how many there are, and what follows them. *)
Fixpoint read_digits (s : string) (acc : Z) (count : nat) : Z * nat * string :=
  match s with
  | String c s' =>
      if is_digit c
      then read_digits s' (10 * acc + Z.of_nat (code c - 48))%Z (S count)
      else (acc, count, s)
  | EmptyString => (acc, count, s)
  end.

(** The value of a hexadecimal digit. *)
Definition hex_value (c : ascii) : option nat :=
  let n := code c in
  if ((48 <=? n) && (n <=? 57))%nat then Some (n - 48)
  else if ((65 <=? n) && (n <=? 70))%nat then Some (n - 55)
  else if ((97 <=? n) && (n <=? 102))%nat then Some (n - 87)
  else None.

(** The code unit of a [\uXXXX] escape.  A unit above U+00FF is outside the
    alphabet of this model and is read as a question mark. *)
Definition unit_of_hex (h1 h2 h3 h4 : ascii) : option ascii :=
  match hex_value h1, hex_value h2, hex_value h3, hex_value h4 with
  | Some a, Some b, Some c, Some d =>
      if ((a =? 0) && (b =? 0))%nat then Some (ascii_of_nat (16 * c + d))
      else Some "?"%char
  | _, _, _, _ => None
  end.

(** A string literal after its opening quote: the string and what follows
    the closing quote. *)
Fixpoint parse_string_body (s : string) : option (string * string) :=
  match s with
  | EmptyString => None
  | String c r =>
      if (code c =? 34)%nat then Some (EmptyString, r)
      else if (code c =? 92)%nat then
        match r with
        | String e r' =>
            let continue (u : ascii) (rest : option (string * string)) :=
              match rest with
              | Some (t, k) => Some (String u t, k)
              | None => None
              end in
            if (code e =? 34)%nat then continue e (parse_string_body r')
            else if (code e =? 92)%nat then continue e (parse_string_body r')
            else if (code e =? 47)%nat then continue e (parse_string_body r')
            else if (code e =? 98)%nat
            then continue (ascii_of_nat 8) (parse_string_body r')
            else if (code e =? 102)%nat
            then continue (ascii_of_nat 12) (parse_string_body r')
            else if (code e =? 110)%nat
            then continue (ascii_of_nat 10) (parse_string_body r')
            else if (code e =? 114)%nat
            then continue (ascii_of_nat 13) (parse_string_body r')
            else if (code e =? 116)%nat
            then continue (ascii_of_nat 9) (parse_string_body r')
            else if (code e =? 117)%nat then
              match r' with
              | String h1 (String h2 (String h3 (String h4 r4))) =>
                  match unit_of_hex h1 h2 h3 h4 with
                  | Some u => continue u (parse_string_body r4)
                  | None => None
                  end
              | _ => None
              end
            else None
        | EmptyString => None
        end
      else if (code c <? 32)%nat then None
      else
        match parse_string_body r with
        | Some (t, k) => Some (String c t, k)
        | None => None
        end
  end.

(** A number literal: an optional minus sign; a zero, or a non-zero digit
    and any digits; optionally a dot and one digit or more; optionally [e]
    or [E], an optional sign and one digit or more. *)
Definition parse_number (s : string) : option (float * string) :=
  let '(neg, s1) :=
    match s with
    | String c r => if (code c =? 45)%nat then (true, r) else (false, s)
    | EmptyString => (false, s)
    end in
  let '(int_part, int_count, s2) := read_digits s1 0%Z 0 in
  let leading_zero :=
    match s1 with
    | String c _ => (code c =? 48)%nat
    | EmptyString => false
    end in
  if (int_count =? 0)%nat then None
  else if leading_zero && (1 <? int_count)%nat then None
  else
    let after_fraction :=
      match s2 with
      | String c r =>
          if (code c =? 46)%nat then
            let '(m, frac_count, s3) := read_digits r int_part 0 in
            if (frac_count =? 0)%nat then None else Some (m, frac_count, s3)
          else Some (int_part, 0, s2)
      | EmptyString => Some (int_part, 0, s2)
      end in
    match after_fraction with
    | None => None
    | Some (m, frac_count, s3) =>
        let after_exponent :=
          match s3 with
          | String c r =>
              if ((code c =? 101) || (code c =? 69))%nat then
                let '(eneg, r1) :=
                  match r with
                  | String d r' =>
                      if (code d =? 45)%nat then (true, r')
                      else if (code d =? 43)%nat then (false, r')
                      else (false, r)
                  | EmptyString => (false, r)
                  end in
                let '(e, exp_count, s4) := read_digits r1 0%Z 0 in
                if (exp_count =? 0)%nat then None
                else Some ((if eneg then - e else e)%Z, s4)
              else Some (0%Z, s3)
          | EmptyString => Some (0%Z, s3)
          end in
        match after_exponent with
        | None => None
        | Some (e, s4) =>
            Some (float_of_decimal neg m (e - Z.of_nat frac_count), s4)
        end
    end.

(** [s] minus the literal [lit] it starts with. *)
Fixpoint strip_prefix (lit s : string) : option string :=
  match lit, s with
  | EmptyString, _ => Some s
  | String a lit', String b s' =>
      if Ascii.eqb a b then strip_prefix lit' s' else None
  | String _ _, EmptyString => None
  end.

(** What parsing a prefix of the input yields: a value and the input left
    after it, a syntax error, or nothing because [fuel] ran out (which does
    not happen with the fuel [JSON_parse] gives, see
    [parse_value_never_out_of_fuel]). *)
Inductive parse_result : Type :=
| Parsed (v : json) (rest : string)
| Invalid
| OutOfFuel.

(** A JSON value at the head of [s] (white space already skipped); the
    members of an object, from a key on; the elements of an array.  [fuel]
    bounds the nesting of calls. *)
Fixpoint parse_value (fuel : nat) (s : string) : parse_result :=
  match fuel with
  | O => OutOfFuel
  | S fuel' =>
      match s with
      | EmptyString => Invalid
      | String c r =>
          if (code c =? 123)%nat then
            match skip_ws r with
            | String c' r' =>
                if (code c' =? 125)%nat then Parsed (JObj []) r'
                else parse_members fuel' (String c' r') []
            | EmptyString => Invalid
            end
          else if (code c =? 91)%nat then
            match skip_ws r with
            | String c' r' =>
                if (code c' =? 93)%nat then Parsed (JArr []) r'
                else parse_elements fuel' (String c' r') []
            | EmptyString => Invalid
            end
          else if (code c =? 34)%nat then
            match parse_string_body r with
            | Some (t, k) => Parsed (JStr t) k
            | None => Invalid
            end
          else if (code c =? 116)%nat then
            match strip_prefix "true" s with
            | Some k => Parsed (JBool true) k
            | None => Invalid
            end
          else if (code c =? 102)%nat then
            match strip_prefix "false" s with
            | Some k => Parsed (JBool false) k
            | None => Invalid
            end
          else if (code c =? 110)%nat then
            match strip_prefix "null" s with
            | Some k => Parsed JNull k
            | None => Invalid
            end
          else
            match parse_number s with
            | Some (x, k) => Parsed (JNum x) k
            | None => Invalid
            end
      end
  end

with parse_members (fuel : nat) (s : string) (acc : list (string * json))
  : parse_result :=
  match fuel with
  | O => OutOfFuel
  | S fuel' =>
      match s with
      | String c r =>
          if (code c =? 34)%nat then
            match parse_string_body r with
            | Some (key, k) =>
                match skip_ws k with
                | String colon k' =>
                    if (code colon =? 58)%nat then
                      match parse_value fuel' (skip_ws k') with
                      | Parsed v k2 =>
                          match skip_ws k2 with
                          | String d k3 =>
                              if (code d =? 44)%nat
                              then parse_members fuel' (skip_ws k3) (obj_set acc key v)
                              else if (code d =? 125)%nat
                              then Parsed (JObj (obj_set acc key v)) k3
                              else Invalid
                          | EmptyString => Invalid
                          end
                      | Invalid => Invalid
                      | OutOfFuel => OutOfFuel
                      end
                    else Invalid
                | EmptyString => Invalid
                end
            | None => Invalid
            end
          else Invalid
      | EmptyString => Invalid
      end
  end

with parse_elements (fuel : nat) (s : string) (acc : list json) : parse_result :=
  match fuel with
  | O => OutOfFuel
  | S fuel' =>
      match parse_value fuel' s with
      | Parsed v k =>
          match skip_ws k with
          | String d k' =>
              if (code d =? 44)%nat
              then parse_elements fuel' (skip_ws k') (acc ++ [v])%list
              else if (code d =? 93)%nat
              then Parsed (JArr (acc ++ [v])%list) k'
              else Invalid
          | EmptyString => Invalid
          end
      | Invalid => Invalid
      | OutOfFuel => OutOfFuel
      end
  end.

(** The fuel [JSON_parse] gives for a text of [n] characters. *)
Definition parse_fuel (n : nat) : nat := 2 * n + 2.

(** [JSON.parse(text)]: [None] when it throws a [SyntaxError]. *)
Definition JSON_parse (text : string) : option json :=
  match parse_value (parse_fuel (length text)) (skip_ws text) with
  | Parsed v rest =>
      match skip_ws rest with
      | EmptyString => Some v
      | String _ _ => None
      end
  | Invalid => None
  | OutOfFuel => None
  end.

End Json.

(* ===================================================================== *)
(** * The pipeline of [index.js] *)
(* ===================================================================== *)

Module Pipeline.
Import JsString Json.
Export Vector.

(** ** Data *)

(** An item of [documents]: a URL, or an inline [{filename, content}]. *)
Inductive DocRef : Type :=
| DocUrl (url : string)
| DocInline (filename : option string) (content : string).

(** The [documents] field: one item or an array of items. *)
Inductive Documents : Type :=
| DocSingle (item : DocRef)
| DocArray (items : list DocRef).

(** The request body. *)
Record Body : Type := {
  documents : option Documents;
  query : option string
}.

(** What [fetchAndExtract] returns: [{ text, source, error }]. *)
Record Doc : Type := {
  doc_text : option string;
  doc_source : string;
  doc_error : option string
}.

(** An element of [chunks]; [embedding] is attached in step 3. *)
Record Chunk : Type := {
  text : string;
  source : string;
  doc_index : nat;
  chunk_index : nat;
  embedding : option vector
}.

(** An element of [scored]: [{ ...c, score }]. *)
Record ScoredChunk : Type := {
  chunk : Chunk;
  score : float
}.

Record Message : Type := {
  role : string;
  content : string
}.

(** ** The back ends and the runtime *)

(** What a back end answers: its data, or a failure with a message. *)
Inductive Reply (A : Type) : Type :=
| Replied (a : A)
| Failed (message : string).

Arguments Replied {A} a.
Arguments Failed {A} message.

(** The [input] of [openai.embeddings.create]. *)
Inductive EmbeddingInput : Type :=
| InputOne (s : string)
| InputMany (l : list string).

Record Providers : Type := {
  (** [fetchAndExtract(item)]: it catches its own errors. *)
  fetchAndExtract : DocRef -> Doc;
  (** [openai.embeddings.create]: the [embedding] of each element of
      [resp.data]. *)
  embeddings_create : EmbeddingInput -> Reply (list vector);
  (** [openai.chat.completions.create]: [choices?.[0]?.message?.content],
      [None] when it is absent. *)
  chat_completions_create : list Message -> Reply (option string);
  (** [x.toFixed(digits)]. *)
  toFixed : float -> nat -> string;
  (** [new Date().toISOString()]. *)
  now : string
}.

(** A call to a back end, as the log records it. *)
Inductive Call : Type :=
| EmbeddingsCreate (input : EmbeddingInput)
| ChatCompletionsCreate (messages : list Message).

(** ** Effects: a log of calls under a result *)

Definition M (A : Type) : Type := list Call -> Result A * list Call.

Definition ret {A : Type} (a : A) : M A := fun log => (Ok a, log).

Definition bind {A B : Type} (m : M A) (k : A -> M B) : M B :=
  fun log =>
    match m log with
    | (Ok a, log') => k a log'
    | (Throw e, log') => (Throw e, log')
    | (Hang, log') => (Hang, log')
    end.

Definition lift {A : Type} (r : Result A) : M A := fun log => (r, log).

Definition rbind {A B : Type} (r : Result A) (k : A -> Result B) : Result B :=
  match r with
  | Ok a => k a
  | Throw e => Throw e
  | Hang => Hang
  end.

Declare Scope js_scope.
Delimit Scope js_scope with js.
Notation "x <- m ;; k" := (bind m (fun x => k))
  (at level 61, m at next level, right associativity) : js_scope.
Notation "x <~ r ;; k" := (rbind r (fun x => k))
  (at level 61, r at next level, right associativity) : js_scope.
Open Scope js_scope.

(** [await openai.embeddings.create({ model, input })]. *)
Definition call_embeddings (P : Providers) (input : EmbeddingInput) : M (list vector) :=
  fun log =>
    let log' := (log ++ [EmbeddingsCreate input])%list in
    match embeddings_create P input with
    | Replied data => (Ok data, log')
    | Failed message => (Throw (ProviderFailure message), log')
    end.

(** [await openai.chat.completions.create({ model, messages, ... })]. *)
Definition call_chat (P : Providers) (messages : list Message) : M (option string) :=
  fun log =>
    let log' := (log ++ [ChatCompletionsCreate messages])%list in
    match chat_completions_create P messages with
    | Replied c => (Ok c, log')
    | Failed message => (Throw (ProviderFailure message), log')
    end.

(** [r] for every element, in order, stopping at the first exception. *)
Fixpoint mapi_result_from {A B : Type} (i : nat) (f : nat -> A -> Result B)
  (l : list A) : Result (list B) :=
  match l with
  | [] => Ok []
  | x :: l' =>
      y <~ f i x ;;
      ys <~ mapi_result_from (S i) f l' ;;
      Ok (y :: ys)
  end.

Definition mapi_result {A B : Type} (f : nat -> A -> Result B) (l : list A)
  : Result (list B) :=
  mapi_result_from 0 f l.

(** ** [embedTexts] *)

Definition BATCH : nat := 10.

(** The [for] loop of [embedTexts]: one call per slice of [BATCH] texts. *)
Fixpoint embedTexts_loop (P : Providers) (fuel : nat) (texts : list string)
  (i : nat) (results : list vector) : M (list vector) :=
  match fuel with
  | O => lift Hang
  | S fuel' =>
      if (i <? List.length texts)%nat then
        let slice := firstn BATCH (skipn i texts) in
        data <- call_embeddings P (InputMany slice) ;;
        embedTexts_loop P fuel' texts (i + BATCH) (results ++ data)%list
      else ret results
  end.

Definition embedTexts (P : Providers) (texts : list string) : M (list vector) :=
  embedTexts_loop P (S (List.length texts)) texts 0 [].

(** ** Step 2: chunks and their metadata *)

Definition newline : string := String (ascii_of_nat 10) EmptyString.

(** [c.replace(/\s+/g, " ").trim()]. *)
Definition normalize (c : string) : string := trim (collapse_spaces c).

(** The body of [docs.forEach((doc, di) => ...)]: the chunks document [di]
    pushes. *)
Definition doc_chunks (di : nat) (doc : Doc) : Result (list Chunk) :=
  let txt := (match doc_text doc with
              | Some t => t
              | None => EmptyString
              end) ++ newline in
  match Chunker.chunkText txt 900 150 with
  | None => Hang
  | Some docChunks =>
      Ok (mapi (fun idx c =>
                  {| text := normalize c;
                     source := doc_source doc;
                     doc_index := di;
                     chunk_index := idx;
                     embedding := None |}) docChunks)
  end.

Definition build_chunks (docs : list Doc) : Result (list Chunk) :=
  per_doc <~ mapi_result doc_chunks docs ;;
  Ok (List.concat per_doc).

(** ** Step 5: semantic search *)

(** [arr.sort(compareFn)]: [a] goes before [b] when [compareFn a b] is
    negative; a result that is zero, positive or NaN leaves the two in the
    order they had (the sort is stable).  For a comparator that is
    consistent, a stable sort has one result, which this insertion sort
    computes.  [by_score_desc] is consistent when no score is NaN.  With a
    score that is NaN it is not, the order the engine gives then depends on
    its sorting algorithm and need not be the one computed here: what is
    stated of the order of the top chunks is stated for scores that are
    numbers. *)
Definition goes_before {A : Type} (compareFn : A -> A -> float) (a b : A) : bool :=
  (compareFn a b <? 0)%float.

Fixpoint insert_sorted {A : Type} (compareFn : A -> A -> float) (x : A)
  (l : list A) : list A :=
  match l with
  | [] => [x]
  | y :: l' =>
      if goes_before compareFn y x
      then y :: insert_sorted compareFn x l'
      else x :: l
  end.

Fixpoint sort {A : Type} (compareFn : A -> A -> float) (l : list A) : list A :=
  match l with
  | [] => []
  | x :: l' => insert_sorted compareFn x (sort compareFn l')
  end.

(** [(a, b) => b.score - a.score]. *)
Definition by_score_desc (a b : ScoredChunk) : float :=
  (score b - score a)%float.

(** [chunks.map(c => ({ ...c, score: cosine(qEmb, c.embedding) }))]: reading
    an entry of an [embedding] that is [undefined] throws. *)
Definition score_chunks (qEmb : vector) (chunks : list Chunk)
  : Result (list ScoredChunk) :=
  mapi_result (fun _ c =>
                 match embedding c with
                 | Some e => Ok {| chunk := c; score := cosine qEmb e |}
                 | None => Throw TypeError
                 end) chunks.

(** Step 5: [K = Math.min(6, chunks.length)], the scores, [scored.sort(...)]
    and [top = scored.slice(0, K)]. *)
Definition semantic_search (qEmb : vector) (chunks : list Chunk)
  : Result (list ScoredChunk) :=
  let K := Nat.min 6 (List.length chunks) in
  scored <~ score_chunks qEmb chunks ;;
  Ok (firstn K (sort by_score_desc scored)).

(** ** Step 6: the prompt *)

Definition quote : string := String (ascii_of_nat 34) EmptyString.

Definition nat_to_string (n : nat) : string :=
  DecimalString.NilZero.string_of_uint (Nat.to_uint n).

Definition clause_header (P : Providers) (i : nat) (t : ScoredChunk) : string :=
  "-- Clause " ++ nat_to_string (i + 1)
  ++ " (source: " ++ source (chunk t)
  ++ ", chunk_index:" ++ nat_to_string (chunk_index (chunk t))
  ++ ", score:" ++ toFixed P (score t) 3 ++ ") --" ++ newline
  ++ text (chunk t) ++ newline.

Definition contextConcat (P : Providers) (top : list ScoredChunk) : string :=
  join newline (mapi (clause_header P) top).

Definition system_prompt : string :=
  "You are a helpful insurance policy analyst. Extract the rules/clause logic and decide whether the sample query should be approved, rejected, or require manual review. Return JSON exactly with keys: decision, amount, justification (array of {clause, source, chunk_index, similarity}), explain_prompt (human readable). Use values only; do not add extra commentary.".

Definition user_prompt (P : Providers) (query : string) (top : list ScoredChunk)
  : string :=
  "Query: " ++ query ++ newline ++ newline
  ++ "Relevant clauses (from documents):" ++ newline
  ++ contextConcat P top ++ newline ++ newline
  ++ "Task:" ++ newline
  ++ "1) Parse the query into structured fields (age, sex, procedure, location, policy_duration_months)."
  ++ newline
  ++ "2) Evaluate each clause and determine the decision and amount (if any). If uncertain, choose "
  ++ quote ++ "maybe" ++ quote ++ " or " ++ quote ++ "manual_review" ++ quote ++ "."
  ++ newline
  ++ "3) Return the JSON object. Be explicit about which clauses you used (map to Clause 1.."
  ++ nat_to_string (List.length top) ++ ").".

Definition prompt (P : Providers) (query : string) (top : list ScoredChunk)
  : list Message :=
  [ {| role := "system"; content := system_prompt |};
    {| role := "user"; content := user_prompt P query top |} ].

End Pipeline.

(* ===================================================================== *)
(** * The decision: parsing the model's answer, fallback and repair *)
(* ===================================================================== *)

Module Synthesizer.
Import JsString Json.
Export Pipeline.

(** ** [llmText.match(/(\{[\s\S]*\})/)] *)

(** The part of [s] from its first opening brace on. *)
Fixpoint from_first_open (s : string) : option string :=
  match s with
  | EmptyString => None
  | String c r => if (code c =? 123)%nat then Some s else from_first_open r
  end.

(** The part of [s] up to its last closing brace, included. *)
Fixpoint upto_last_close (s : string) : option string :=
  match s with
  | EmptyString => None
  | String c r =>
      match upto_last_close r with
      | Some p => Some (String c p)
      | None => if (code c =? 125)%nat then Some (String c EmptyString) else None
      end
  end.

(** [jsonMatch[1]]: the greedy match runs from the first opening brace to
    the last closing brace after it. *)
Definition match_json_block (llmText : string) : option string :=
  match from_first_open llmText with
  | Some t => upto_last_close t
  | None => None
  end.

(** The [try] block: [parsed] stays [null] when nothing matches or
    [JSON.parse] throws. *)
Definition parse_llm (llmText : string) : option json :=
  match match_json_block llmText with
  | Some block => JSON_parse block
  | None => None
  end.

(** ** The keyword heuristic *)

Definition rejectKeywords : list string :=
  ["not covered"; "exclusion"; "deductible not"; "pre-existing";
   "waiting period"; "not eligible"; "excludes"].

Definition approveKeywords : list string :=
  ["covered"; "shall be paid"; "payable"; "benefit"; "eligible"; "entitled"].

(** [top.map(t => t.text.toLowerCase()).join(" ")]. *)
Definition joined_text (top : list ScoredChunk) : string :=
  join " " (map (fun t => toLowerCase (text (chunk t))) top).

Definition foundReject (joined : string) : bool :=
  existsb (fun k => includes joined k) rejectKeywords.

Definition foundApprove (joined : string) : bool :=
  existsb (fun k => includes joined k) approveKeywords.

Definition heuristic_decision (joined : string) : string :=
  if foundReject joined && negb (foundApprove joined) then "rejected"
  else if foundApprove joined && negb (foundReject joined) then "approved"
  else "maybe".

(** ** Justification entries *)

(** [{ clause: t.text.slice(0,300), source: t.source,
       chunk_index: t.chunk_index, similarity: t.score }]. *)
Definition entry_of_top (t : ScoredChunk) : json :=
  JObj [ ("clause", JStr (slice (text (chunk t)) 0 300));
         ("source", JStr (source (chunk t)));
         ("chunk_index", JNum (float_of_nat (chunk_index (chunk t))));
         ("similarity", JNum (score t)) ].

Definition justification_of_top (top : list ScoredChunk) : json :=
  JArr (map entry_of_top top).

Definition fallback_explanation : string :=
  "LLM did not return parsable JSON; fallback heuristic used.".

(** The object built when [parsed] is [null]. *)
Definition fallback (top : list ScoredChunk) (llmText : string) : json :=
  JObj [ ("decision", JStr (heuristic_decision (joined_text top)));
         ("amount", JNull);
         ("justification", justification_of_top top);
         ("explain_prompt",
          JStr (if String.eqb llmText EmptyString
                then fallback_explanation else llmText)) ].

(** The callback of [parsed.justification.map((j, i) => ...)].
    [topMatch = top[i] || {}]: [None] stands for the empty object, whose
    every property is [undefined]. *)
Definition repair_entry (top : list ScoredChunk) (i : nat) (j : json) : Result json :=
  let topMatch := nth_error top i in
  let of_top (f : ScoredChunk -> json) : option json := option_map f topMatch in
  j_clause <~ get_prop j "clause" ;;
  j_source <~ get_prop j "source" ;;
  j_chunk_index <~ get_prop j "chunk_index" ;;
  j_similarity <~ get_prop j "similarity" ;;
  Ok (JObj
        [ ("clause",
           or_else
             (or_opt j_clause
                (of_top (fun t => JStr (slice (text (chunk t)) 0 300))))
             (JStr EmptyString));
          ("source",
           or_else
             (or_opt j_source (of_top (fun t => JStr (source (chunk t)))))
             (JStr EmptyString));
          ("chunk_index",
           nullish_else
             (nullish_opt j_chunk_index
                (of_top (fun t => JNum (float_of_nat (chunk_index (chunk t))))))
             JNull);
          ("similarity",
           nullish_else
             (nullish_opt j_similarity (of_top (fun t => JNum (score t))))
             JNull) ]).

(** The [else] branch: [parsed] is kept, its [justification] replaced. *)
Definition repair (top : list ScoredChunk) (parsed : json) : Result json :=
  justification <~ get_prop parsed "justification" ;;
  match justification with
  | Some (JArr entries) =>
      repaired <~ mapi_result (repair_entry top) entries ;;
      Ok (set_prop parsed "justification" (JArr repaired))
  | _ => Ok (set_prop parsed "justification" (justification_of_top top))
  end.

(** From the model's text to [results]: [parsed] after the [if (!parsed)]
    statement. *)
Definition synthesize (top : list ScoredChunk) (llmText : string) : Result json :=
  match parse_llm llmText with
  | Some parsed =>
      if truthy parsed then repair top parsed else Ok (fallback top llmText)
  | None => Ok (fallback top llmText)
  end.

End Synthesizer.

(* ===================================================================== *)
(** * The handler of [POST /hackrx/run] *)
(* ===================================================================== *)

Module Handler.
Import JsString Json.
Export Synthesizer.

Record Meta : Type := {
  chunks_indexed : nat;
  top_k : nat;
  model : string;
  timestamp : string
}.

(** The body of the 200 response. *)
Record Envelope : Type := {
  meta : Meta;
  input_query : string;
  input_documents : list DocRef;
  results : json
}.

Inductive Response : Type :=
| Status400 (error : string)
| Status500 (error : Exn)
| Status200 (envelope : Envelope).

(** [!documents] on a field that is present: only the empty string is
    falsy (an array, even empty, and an object are not). *)
Definition falsy_documents (d : Documents) : bool :=
  match d with
  | DocSingle (DocUrl url) => String.eqb url EmptyString
  | _ => false
  end.

(** [if (!Array.isArray(documents)) documents = [documents]]. *)
Definition as_array (d : Documents) : list DocRef :=
  match d with
  | DocSingle item => [item]
  | DocArray items => items
  end.

(** [chunks[i].embedding = embeddings[i]] for every [i]. *)
Definition attach_embeddings (chunks : list Chunk) (embeddings : list vector)
  : list Chunk :=
  mapi (fun i c =>
          {| text := text c; source := source c; doc_index := doc_index c;
             chunk_index := chunk_index c;
             embedding := nth_error embeddings i |}) chunks.

Definition model_name : string :=
  "embedding:text-embedding-3-small + gpt-4o-mini (chat)".

(** Steps 3 to 5: embed the chunks and the query, score, keep the top K. *)
Definition retrieve (P : Providers) (query : string) (chunks : list Chunk)
  : M (list ScoredChunk) :=
  let texts := map text chunks in
  embeddings <- embedTexts P texts ;;
  let chunks := attach_embeddings chunks embeddings in
  qEmbData <- call_embeddings P (InputOne query) ;;
  qEmb <- lift (match qEmbData with
                | e :: _ => Ok e
                | [] => Throw TypeError
                end) ;;
  top <- lift (semantic_search qEmb chunks) ;;
  ret top.

(** [completion.choices?.[0]?.message?.content || ""]. *)
Definition llmText_of (completion : option string) : string :=
  match completion with
  | Some c => c
  | None => EmptyString
  end.

(** Steps 3 to 8, inside the [try] block, once [chunks] is not empty. *)
Definition answer (P : Providers) (query : string) (items : list DocRef)
  (chunks : list Chunk) : M Response :=
  top <- retrieve P query chunks ;;
  completion <- call_chat P (prompt P query top) ;;
  let llmText := llmText_of completion in
  parsed <- lift (synthesize top llmText) ;;
  ret (Status200
         {| meta := {| chunks_indexed := List.length chunks;
                       top_k := List.length top;
                       model := model_name;
                       timestamp := now P |};
            input_query := query;
            input_documents := items;
            results := parsed |}).

(** The handler: its response ([None] when it never responds) and the calls
    it made to the back ends, in order. *)
Definition hackrx_run (P : Providers) (body : Body) : option Response * list Call :=
  let missing_documents :=
    (Some (Status400 "Missing 'documents' (URL or array) in request body."), []) in
  let missing_query :=
    (Some (Status400 "Missing 'query' in request body."), []) in
  match documents body with
  | None => missing_documents
  | Some d =>
      if falsy_documents d then missing_documents
      else
        match query body with
        | None => missing_query
        | Some q =>
            if String.eqb q EmptyString then missing_query
            else
              let items := as_array d in
              let docs := map (fetchAndExtract P) items in
              match build_chunks docs with
              | Ok [] =>
                  (Some (Status400 "No extractable text found in documents."), [])
              | Ok chunks =>
                  match answer P q items chunks [] with
                  | (Ok response, log) => (Some response, log)
                  | (Throw e, log) => (Some (Status500 e), log)
                  | (Hang, log) => (None, log)
                  end
              | Throw e => (Some (Status500 e), [])
              | Hang => (None, [])
              end
        end
  end.

End Handler.

(* ===================================================================== *)
(** * The simplified handlers *)
(* ===================================================================== *)

Module Simple.
Import Json.
Import Pipeline.

(** The body of a response: a JSON value, or [{ error: error.message }]. *)
Inductive SimpleBody : Type :=
| BodyJson (v : json)
| BodyError (e : Exn).

Record SimpleResponse : Type := {
  status : nat;
  body : SimpleBody
}.

(** The template literal of both handlers; an [undefined] query prints as
    the word. *)
Definition simple_prompt (query : option string) : string :=
  let q := match query with
           | Some s => s
           | None => "undefined"
           end in
  newline
  ++ "      You are an insurance claims decision assistant." ++ newline
  ++ "      Given the query: " ++ quote ++ q ++ quote ++ "," ++ newline
  ++ "      - Identify details (age, procedure, location, policy duration)" ++ newline
  ++ "      - Check coverage from general insurance policy rules." ++ newline
  ++ "      - Return JSON with:" ++ newline
  ++ "        {" ++ newline
  ++ "          " ++ quote ++ "decision" ++ quote ++ ": " ++ quote
  ++ "approved/rejected" ++ quote ++ "," ++ newline
  ++ "          " ++ quote ++ "amount" ++ quote ++ ": number or null," ++ newline
  ++ "          " ++ quote ++ "justification" ++ quote ++ ": " ++ quote
  ++ "reason with clause reference" ++ quote ++ newline
  ++ "        }" ++ newline
  ++ "    ".

(** The [try] block of both handlers: the completion, then [JSON.parse] of
    its content.  [inl] is the exception caught, [inr] the value answered.
    A content that is absent is taken as [undefined], which is parsed as the
    word and is no JSON; [Providers] does not tell it from a content that is
    [null] (which [JSON.parse] reads as the value [null]) or from a
    completion with no choice (where reading the message is a [TypeError]),
    so [decide] follows the code for contents that are strings and for
    failed calls, and the statements about the two handlers are about
    these. *)
Definition decide (P : Providers) (query : option string) : Exn + json :=
  match chat_completions_create P [ {| role := "user"; content := simple_prompt query |} ] with
  | Failed message => inl (ProviderFailure message)
  | Replied c =>
      match JSON_parse (match c with
                        | Some s => s
                        | None => "undefined"
                        end) with
      | Some v => inr v
      | None => inl SyntaxError
      end
  end.

(** [POST(req)] of the route file: [NextResponse.json] answers with status
    200 in both branches.  [req_json] is what [await req.json()] yields. *)
Definition POST (P : Providers) (req_json : Reply (option string)) : SimpleResponse :=
  match req_json with
  | Failed message => {| status := 200; body := BodyError (ProviderFailure message) |}
  | Replied query =>
      match decide P query with
      | inr v => {| status := 200; body := BodyJson v |}
      | inl e => {| status := 200; body := BodyError e |}
      end
  end.

(** [handler(req, res)] of [pages/api/webhook.js]; [req_body] is [req.body],
    [None] when it is [undefined], and holds its [query] field. *)
Definition handler (P : Providers) (method : string) (req_body : option (option string))
  : SimpleResponse :=
  if negb (String.eqb method "POST")
  then {| status := 405;
          body := BodyJson (JObj [("error", JStr "Method not allowed")]) |}
  else
    match req_body with
    | None => {| status := 500; body := BodyError TypeError |}
    | Some query =>
        match decide P query with
        | inr v => {| status := 200; body := BodyJson v |}
        | inl e => {| status := 500; body := BodyError e |}
        end
    end.

End Simple.

(* ===================================================================== *)
(** * The document extractor: [fetchAndExtract] *)
(* ===================================================================== *)

Module Extractor.
Import JsString Json Pipeline.

(** ** Strings *)

(** [s.endsWith(k)]. *)
Definition endsWith (s k : string) : bool :=
  (length k <=? length s)%nat && String.eqb (suffix (length k) s) k.

(** What may follow a [<] for the test of [isHtml] to succeed: white space,
    then [html], [body], [p] or [div] in either case of each letter (the
    flag [i]). *)
Definition opens_html_tag (after : string) : bool :=
  let name := toLowerCase (trimStart after) in
  String.prefix "html" name || String.prefix "body" name
  || String.prefix "p" name || String.prefix "div" name.

(** [/<\s*html|<\s*body|<\s*p|<\s*div/i.test(txt)]. *)
Fixpoint isHtml (txt : string) : bool :=
  match txt with
  | EmptyString => false
  | String c r => (Ascii.eqb c "<" && opens_html_tag r) || isHtml r
  end.

(** [s] holds a [>]. *)
Fixpoint has_close (s : string) : bool :=
  match s with
  | EmptyString => false
  | String c r => Ascii.eqb c ">" || has_close r
  end.

(** [txt.replace(/<[^>]*>/g, " ")], left to right.  A [<] starts a match
    when a [>] follows somewhere, and the match ends at the first one;
    [in_tag] says that the scan is inside a match. *)
Fixpoint strip_from (in_tag : bool) (s : string) : string :=
  match s with
  | EmptyString => EmptyString
  | String c r =>
      if in_tag
      then if Ascii.eqb c ">" then String " " (strip_from false r)
           else strip_from true r
      else if Ascii.eqb c "<" && has_close r then strip_from true r
           else String c (strip_from false r)
  end.

Definition strip_tags (txt : string) : string := strip_from false txt.

(** ** The libraries *)

(** Raw bytes: a [Buffer] or an [ArrayBuffer]. *)
Definition Buffer : Type := list Byte.byte.

(** The response of [fetch]: [res.ok], [res.status],
    [res.headers.get("content-type")], [await res.arrayBuffer()] and
    [await res.text()]. *)
Record FetchResponse : Type := {
  res_ok : bool;
  res_status : nat;
  res_content_type : option string;
  res_arrayBuffer : Reply Buffer;
  res_text : Reply string
}.

Record Backends : Type := {
  (** [fetch(urlOrData, { timeout: 30000 })]. *)
  fetch : DocRef -> Reply FetchResponse;
  (** [pdf(buffer)]: the [text] of what it resolves to. *)
  pdf : Buffer -> Reply (option string);
  (** [mammoth.extractRawText({ buffer })]: the [value] of what it resolves
      to. *)
  extractRawText : Buffer -> Reply (option string);
  (** [Buffer.from(content, "base64")]. *)
  from_base64 : string -> Buffer;
  (** [buffer.toString("utf8")]. *)
  utf8 : Buffer -> string
}.

(** ** [fetchAndExtract] *)

(** The [source] of a result: a string, or the item itself when the item is
    an object and the [catch] block answers. *)
Inductive Source : Type :=
| SourceString (s : string)
| SourceItem (item : DocRef).

(** [{ text, source, error }]. *)
Record Extracted : Type := {
  ex_text : option string;
  ex_source : Source;
  ex_error : option string
}.

(** [urlOrData.toString()]. *)
Definition item_string (item : DocRef) : string :=
  match item with
  | DocUrl url => url
  | DocInline _ _ => "[object Object]"
  end.

(** [source: urlOrData]. *)
Definition item_source (item : DocRef) : Source :=
  match item with
  | DocUrl url => SourceString url
  | DocInline _ _ => SourceItem item
  end.

(** [urlOrData.filename || default]. *)
Definition filename_or (filename : option string) (default : string) : string :=
  match filename with
  | Some f => if String.eqb f EmptyString then default else f
  | None => default
  end.

Definition docx_type : string :=
  "application/vnd.openxmlformats-officedocument.wordprocessingml.document".

(** The branch of an object with a [content]: the value returned, or the
    message of the error thrown. *)
Definition extract_inline (B : Backends) (filename : option string) (content : string)
  : string + Extracted :=
  let buffer := from_base64 B content in
  let name := toLowerCase (filename_or filename EmptyString) in
  if endsWith name ".pdf" then
    match pdf B buffer with
    | Failed message => inl message
    | Replied data_text =>
        inr {| ex_text := data_text;
               ex_source := SourceString (filename_or filename "uploaded.pdf");
               ex_error := None |}
    end
  else if endsWith name ".docx" then
    match extractRawText B buffer with
    | Failed message => inl message
    | Replied res_value =>
        inr {| ex_text := res_value;
               ex_source := SourceString (filename_or filename "uploaded.docx");
               ex_error := None |}
    end
  else
    inr {| ex_text := Some (utf8 B buffer);
           ex_source := SourceString (filename_or filename "uploaded");
           ex_error := None |}.

(** The rest of the [try] block: the item is taken for a URL. *)
Definition extract_remote (B : Backends) (item : DocRef) : string + Extracted :=
  match fetch B item with
  | Failed message => inl message
  | Replied res =>
      if negb (res_ok res)
      then inl ("Fetch failed " ++ nat_to_string (res_status res))
      else
        let contentType := match res_content_type res with
                           | Some t => t
                           | None => EmptyString
                           end in
        let urlLower := toLowerCase (item_string item) in
        if includes contentType "application/pdf" || endsWith urlLower ".pdf" then
          match res_arrayBuffer res with
          | Failed message => inl message
          | Replied buffer =>
              match pdf B buffer with
              | Failed message => inl message
              | Replied data_text =>
                  inr {| ex_text := data_text; ex_source := item_source item;
                         ex_error := None |}
              end
          end
        else if includes contentType docx_type || endsWith urlLower ".docx" then
          match res_arrayBuffer res with
          | Failed message => inl message
          | Replied buffer =>
              match extractRawText B buffer with
              | Failed message => inl message
              | Replied r_value =>
                  inr {| ex_text := r_value; ex_source := item_source item;
                         ex_error := None |}
              end
          end
        else
          match res_text res with
          | Failed message => inl message
          | Replied txt =>
              let cleaned := if isHtml txt then strip_tags txt else txt in
              inr {| ex_text := Some cleaned; ex_source := item_source item;
                     ex_error := None |}
          end
  end.

(** [fetchAndExtract(urlOrData)]: the [try] block, and the [catch] block
    that turns every error into a result with an empty text. *)
Definition fetchAndExtract (B : Backends) (urlOrData : DocRef) : Extracted :=
  let attempt :=
    match urlOrData with
    | DocInline filename content =>
        if String.eqb content EmptyString then extract_remote B urlOrData
        else extract_inline B filename content
    | DocUrl _ => extract_remote B urlOrData
    end in
  match attempt with
  | inr result => result
  | inl message =>
      {| ex_text := Some EmptyString; ex_source := item_source urlOrData;
         ex_error := Some message |}
  end.

(** The element of [docs] the handler pushes, when its [source] is a
    string. *)
Definition as_doc (e : Extracted) : option Doc :=
  match ex_source e with
  | SourceString s =>
      Some {| doc_text := ex_text e; doc_source := s; doc_error := ex_error e |}
  | SourceItem _ => None
  end.

End Extractor.

(* ===================================================================== *)
(** * The vocabulary of the properties *)
(* ===================================================================== *)

Module Properties.
Import JsString Json Handler.

(** [k] occurs in [s]: [s] is [k] between two strings. *)
Definition occurs (k s : string) : Prop :=
  exists before after, s = before ++ k ++ after.

(** Some keyword of [keywords] occurs in [s]. *)
Definition some_occurs (keywords : list string) (s : string) : Prop :=
  exists k, In k keywords /\ occurs k s.

(** The field [k] of a result object. *)
Definition field (k : string) (v : json) : option json :=
  match v with
  | JObj fields => lookup k fields
  | _ => None
  end.

(** The values of the decision enumeration of the specification. *)
Definition decision_values : list json :=
  [JStr "approved"; JStr "rejected"; JStr "maybe"; JStr "manual_review"].

(** [x] is absent or counts as false: [x || y] is [y]. *)
Definition is_falsy (x : option json) : bool :=
  match x with
  | Some v => negb (truthy v)
  | None => true
  end.

(** [x] is absent or [null]: [x ?? y] is [y]. *)
Definition is_nullish (x : option json) : bool :=
  match x with
  | Some JNull => true
  | Some _ => false
  | None => true
  end.

(** The source, chunk index and similarity of the chunk an entry at
    position [i] is paired with; the defaults of the code where [top] has no
    chunk at [i]. *)
Definition paired_source (top : list ScoredChunk) (i : nat) : json :=
  match nth_error top i with
  | Some t => JStr (source (chunk t))
  | None => JStr EmptyString
  end.

Definition paired_chunk_index (top : list ScoredChunk) (i : nat) : json :=
  match nth_error top i with
  | Some t => JNum (float_of_nat (chunk_index (chunk t)))
  | None => JNull
  end.

Definition paired_similarity (top : list ScoredChunk) (i : nat) : json :=
  match nth_error top i with
  | Some t => JNum (score t)
  | None => JNull
  end.

(** [out] is entry [j] at position [i] with its provenance completed from
    [top]: a field the model supplied is kept, a field it left out is the
    paired chunk's. *)
Definition backfilled (top : list ScoredChunk) (i : nat) (j out : json) : Prop :=
  field "source" out
  = Some (if is_falsy (field "source" j) then paired_source top i
          else field "source" j ?? JNull)
  /\ field "chunk_index" out
     = Some (if is_nullish (field "chunk_index" j) then paired_chunk_index top i
             else field "chunk_index" j ?? JNull)
  /\ field "similarity" out
     = Some (if is_nullish (field "similarity" j) then paired_similarity top i
             else field "similarity" j ?? JNull).

(** The original order of the chunks: document index, then chunk index. *)
Definition position_lt (c c' : Chunk) : Prop :=
  doc_index c < doc_index c'
  \/ (doc_index c = doc_index c' /\ chunk_index c < chunk_index c').

(** A computation that keeps the calls already logged. *)
Definition extends_log {A : Type} (m : M A) : Prop :=
  forall log r log', m log = (r, log') -> exists ext, log' = (log ++ ext)%list.

(** A computation none of whose loops runs forever. *)
Definition never_hangs {A : Type} (m : M A) : Prop :=
  forall log, fst (m log) <> Hang.

End Properties.

(* ===================================================================== *)
(** * An integer key for the order of binary64 numbers *)
(* ===================================================================== *)

Module FloatKey.
#[local] Open Scope Z_scope.

(** The floats that compare below zero. *)
Definition is_negative (x : spec_float) : bool :=
  match x with
  | S754_infinity true => true
  | S754_finite true _ _ => true
  | _ => false
  end.

(** An integer that orders the floats as [SFcompare] does. *)
Definition key (x : spec_float) : Z :=
  match x with
  | S754_zero _ => 0
  | S754_infinity s => if s then - 2 ^ 70 else 2 ^ 70
  | S754_finite s m e =>
      let k := (e + 1075) * 2 ^ 53 + Zpos m in
      if s then - k else k
  | S754_nan => 0
  end.

(** The key of a primitive float. *)
Definition fkey (x : float) : Z := key (Prim2SF x).

End FloatKey.

(* ===================================================================== *)
(** * Stand-ins for the back ends, for runs on concrete requests *)
(* ===================================================================== *)

Module Fixtures.
Import Json Handler.

(** Back ends that are deterministic: every document has the text [txt],
    every text embeds to the same unit vector, the model always answers
    [reply]. *)
Definition stub (txt reply : string) : Providers :=
  {| fetchAndExtract := fun _ =>
       {| doc_text := Some txt; doc_source := "policy.txt"; doc_error := None |};
     embeddings_create := fun input =>
       match input with
       | InputOne _ => Replied [[1; 0]%float]
       | InputMany l => Replied (map (fun _ => [1; 0]%float) l)
       end;
     chat_completions_create := fun _ => Replied (Some reply);
     toFixed := fun _ _ => "1.000";
     now := "2025-01-01T00:00:00.000Z" |}.

(** A request for one document. *)
Definition one_document : Body :=
  {| documents := Some (DocSingle (DocUrl "https://example.org/policy.txt"));
     query := Some "46M, knee surgery, Pune, 3-month policy" |}.

(** [k] between double quotes. *)
Definition quoted (k : string) : string := quote ++ k ++ quote.

(** The model's answer: an object whose decision is no value of the enum. *)
Definition banana_reply : string :=
  "{" ++ quoted "decision" ++ ": " ++ quoted "banana" ++ "}".

(** The model's answer: two justification entries that carry a clause only. *)
Definition two_clauses_reply : string :=
  "{" ++ quoted "decision" ++ ": " ++ quoted "approved" ++ ", "
  ++ quoted "justification" ++ ": [{" ++ quoted "clause" ++ ": " ++ quoted "c1"
  ++ "}, {" ++ quoted "clause" ++ ": " ++ quoted "c2" ++ "}]}".

(** One scored chunk, which says a procedure is covered. *)
Definition covered_chunk : ScoredChunk :=
  {| chunk := {| text := "Knee surgery is covered."; source := "policy.txt";
                 doc_index := 0; chunk_index := 0; embedding := None |};
     score := 1%float |}.

(** The run of the handler on that document, with a model that answers no
    JSON. *)
Definition covered_run : option Response * list Call :=
  Eval vm_compute in
    hackrx_run (stub "Knee surgery is covered." "I cannot answer.") one_document.

(** Three documents of one chunk each; the first and the third embed to the
    query's direction, the second to an orthogonal one. *)
Definition three_docs : list Doc :=
  [ {| doc_text := Some "Knee surgery is covered."; doc_source := "a.txt";
       doc_error := None |};
    {| doc_text := Some "Dental care is excluded."; doc_source := "b.txt";
       doc_error := None |};
    {| doc_text := Some "Hip surgery is covered."; doc_source := "c.txt";
       doc_error := None |} ].

Definition three_embeddings : list vector :=
  [ [1; 0]%float; [0; 1]%float; [1; 0]%float ].

(** Their chunks, and the top chunks for the query vector [(1, 0)]. *)
Definition three_chunks : list Chunk :=
  Eval vm_compute in
    match build_chunks three_docs with
    | Ok chunks => chunks
    | _ => []
    end.

Definition three_top : list ScoredChunk :=
  Eval vm_compute in
    match semantic_search [1; 0]%float
            (attach_embeddings three_chunks three_embeddings) with
    | Ok top => top
    | _ => []
    end.

End Fixtures.

(* ===================================================================== *)
(** * The vocabulary of the chunks, the batches and the requests *)
(* ===================================================================== *)

Module Layout.
Import JsString Pipeline.

(** The number of window starts [i], [i + step], ... below [len]. *)
Definition window_count (len i step : Z) : nat :=
  Z.to_nat ((len - i + step - 1) / step).

(** [doc.text || ""]. *)
Definition text_of (doc : Doc) : string :=
  match doc_text doc with
  | Some t => t
  | None => EmptyString
  end.

(** The chunk the handler pushes for window [idx] of document [di]. *)
Definition chunk_at (di : nat) (doc : Doc) (idx : nat) : Chunk :=
  {| text := normalize (slice (text_of doc ++ newline)
                          (Z.of_nat idx * 750) (Z.of_nat idx * 750 + 900));
     source := doc_source doc;
     doc_index := di;
     chunk_index := idx;
     embedding := None |}.

(** The number of chunks of a document: one per 750 characters of its text,
    and one more. *)
Definition chunk_count (doc : Doc) : nat := length (text_of doc) / 750 + 1.

(** White space occurs in [t] only as single spaces between two characters
    that are not white space. *)
Definition single_spaced (t : string) : Prop :=
  forall a c b, t = a ++ String c b -> is_space c = true ->
    c = " "%char
    /\ a <> EmptyString
    /\ exists c' b', b = String c' b' /\ is_space c' = false.

(** The same as a test, from left to right: no white space but single
    spaces; [after_space] forbids one in the first place. *)
Fixpoint spaced (after_space : bool) (s : string) : bool :=
  match s with
  | EmptyString => true
  | String c r =>
      if is_space c
      then Ascii.eqb c " " && negb after_space && spaced true r
      else spaced false r
  end.

(** [spaced], and no space in the last place. *)
Fixpoint spaced_inside (after_space : bool) (s : string) : bool :=
  match s with
  | EmptyString => true
  | String c r =>
      if is_space c
      then Ascii.eqb c " " && negb after_space
           && negb (String.eqb r EmptyString) && spaced_inside true r
      else spaced_inside false r
  end.

End Layout.

Module Batching.
Import Pipeline.

(** The [k]-th slice of [embedTexts]:
    [texts.slice(k * BATCH, k * BATCH + BATCH)]. *)
Definition batch (texts : list string) (k : nat) : list string :=
  firstn BATCH (skipn (k * BATCH) texts).

(** The number of slices: [texts.length / BATCH], rounded up. *)
Definition batch_count (texts : list string) : nat :=
  (List.length texts + (BATCH - 1)) / BATCH.

(** The calls for the first [n] slices, in order. *)
Definition batch_calls (texts : list string) (n : nat) : list Call :=
  map (fun k => EmbeddingsCreate (InputMany (batch texts k))) (seq 0 n).

(** The vectors the embedding back end answers for slice [k]. *)
Definition batch_reply (P : Providers) (texts : list string) (k : nat) : list vector :=
  match embeddings_create P (InputMany (batch texts k)) with
  | Replied data => data
  | Failed _ => []
  end.

End Batching.

Module Requests.
Import Json Handler.

(** [!documents]. *)
Definition missing_documents (body : Body) : bool :=
  match documents body with
  | Some d => falsy_documents d
  | None => true
  end.

(** [!query]. *)
Definition missing_query (body : Body) : bool :=
  match query body with
  | Some q => String.eqb q EmptyString
  | None => true
  end.

(** The calls of [log] that went to the chat back end. *)
Definition chat_calls (log : list Call) : list Call :=
  filter (fun c => match c with
                   | ChatCompletionsCreate _ => true
                   | EmbeddingsCreate _ => false
                   end) log.

(** The back end answered call [c] with a failure. *)
Definition call_failed (P : Providers) (c : Call) (message : string) : Prop :=
  match c with
  | EmbeddingsCreate input => embeddings_create P input = Failed message
  | ChatCompletionsCreate messages => chat_completions_create P messages = Failed message
  end.

End Requests.

Module Documents.
Import JsString Json Handler.

(** [s] holds a tag: a [<] with a [>] somewhere after it, which is what the
    expression [<[^>]*>] matches. *)
Definition has_tag (s : string) : Prop :=
  exists a b c, s = a ++ "<" ++ b ++ ">" ++ c.

(** The same as a test. *)
Fixpoint tagged (s : string) : bool :=
  match s with
  | EmptyString => false
  | String c r => (Ascii.eqb c "<" && Extractor.has_close r) || tagged r
  end.

(** Every character of [s] is white space. *)
Fixpoint blank (s : string) : bool :=
  match s with
  | EmptyString => true
  | String c r => is_space c && blank r
  end.

(** The tag names the test of [isHtml] looks for. *)
Definition html_names : list string := ["html"; "body"; "p"; "div"].

(** The back ends [P], with the documents read by [fetchAndExtract] over the
    libraries [B].  This follows the handler for items that are URLs, whose
    [source] is always a string.  An inline item whose extraction fails
    keeps the item itself as its [source], which [Doc] cannot hold: for such
    an item the document is left to [P]. *)
Definition with_extractor (B : Extractor.Backends) (P : Providers) : Providers :=
  {| fetchAndExtract := fun item =>
       match Extractor.as_doc (Extractor.fetchAndExtract B item) with
       | Some doc => doc
       | None => fetchAndExtract P item
       end;
     embeddings_create := embeddings_create P;
     chat_completions_create := chat_completions_create P;
     toFixed := toFixed P;
     now := now P |}.

(** The chunk of a document that could not be read. *)
Definition empty_chunk (di : nat) (url : string) : Chunk :=
  {| text := EmptyString; source := url; doc_index := di; chunk_index := 0;
     embedding := None |}.

End Documents.

(* ===================================================================== *)
(** * More stand-ins for the back ends *)
(* ===================================================================== *)

Module Scenarios.
Import Json Handler Fixtures.

(** The back ends of [stub], with an embedding back end that is down. *)
Definition embeddings_down : Providers :=
  {| fetchAndExtract := fetchAndExtract (stub "Knee surgery is covered." "");
     embeddings_create := fun _ => Failed "503 Service Unavailable";
     chat_completions_create := fun _ => Replied (Some "");
     toFixed := fun _ _ => "1.000";
     now := "2025-01-01T00:00:00.000Z" |}.

(** The back ends of [stub], with an embedding back end that answers the
    query with a vector and a list of chunk texts with no vector at all. *)
Definition no_chunk_vectors : Providers :=
  {| fetchAndExtract := fetchAndExtract (stub "Knee surgery is covered." "");
     embeddings_create := fun input =>
       match input with
       | InputOne _ => Replied [ [1; 0]%float ]
       | InputMany _ => Replied []
       end;
     chat_completions_create := fun _ => Replied (Some "");
     toFixed := fun _ _ => "1.000";
     now := "2025-01-01T00:00:00.000Z" |}.

(** Libraries with no network: every [fetch] is refused. *)
Definition offline : Extractor.Backends :=
  {| Extractor.fetch := fun _ => Failed "getaddrinfo ENOTFOUND";
     Extractor.pdf := fun _ => Replied None;
     Extractor.extractRawText := fun _ => Replied None;
     Extractor.from_base64 := fun _ => [];
     Extractor.utf8 := fun _ => EmptyString |}.

(** A chunk that names an exclusion in capital letters. *)
Definition not_covered_chunk : ScoredChunk :=
  {| chunk := {| text := "Dental care is NOT covered."; source := "policy.txt";
                 doc_index := 0; chunk_index := 0; embedding := None |};
     score := 1%float |}.

(** The run of the handler on one document when the embedding back end is
    down. *)
Definition down_run : option Response * list Call :=
  Eval vm_compute in hackrx_run embeddings_down one_document.

(** Two documents of one chunk each, and vectors with one large entry,
    [2^700]: the query and the first embedding are the same vector, whose
    dot product with itself is [Infinity], so that their cosine is
    [Infinity / (Infinity * Infinity)], that is [NaN]. *)
Definition two_docs : list Doc := firstn 2 three_docs.

Definition two_chunks : list Chunk :=
  Eval vm_compute in
    match build_chunks two_docs with
    | Ok chunks => chunks
    | _ => []
    end.

Definition huge_query : vector := [0x1p700; 1]%float.

Definition huge_embeddings : list vector :=
  [ [0x1p700; 1]%float; [0; 1]%float ].

End Scenarios.

(* ===================================================================== *)
(** * The vocabulary of vectors of different lengths *)
(* ===================================================================== *)

Module Padding.
Import Vector.
#[local] Open Scope float_scope.

(** The dot product of two vectors entry by entry, as far as the shorter one
    goes, summed left to right from [0]. *)
Definition plain_dot (a b : vector) : float :=
  fold_left (fun s p => s + fst p * snd p) (combine a b) 0.

(** A float other than minus zero. *)
Definition not_minus_zero (s : float) : Prop := Prim2SF s <> S754_zero true.

End Padding.

(* ===================================================================== *)
(** * Facts about strings *)
(* ===================================================================== *)

Module JsStringFacts.
Import JsString.

Lemma length_take (n : nat) (s : string) :
  length (take n s) = Nat.min n (length s).
Proof.
  revert s; induction n as [|n IH]; intros [|c s]; simpl; auto.
Qed.

Lemma length_drop (n : nat) (s : string) :
  length (drop n s) = length s - n.
Proof.
  revert s; induction n as [|n IH]; intros [|c s]; simpl; auto.
Qed.

Lemma drop_drop (a b : nat) (s : string) :
  drop a (drop b s) = drop (b + a) s.
Proof.
  revert s; induction b as [|b IH]; intros s; simpl; auto.
  destruct s as [|c s]; simpl; auto.
  destruct a; reflexivity.
Qed.

Lemma take_take (a b : nat) (s : string) :
  take a (take b s) = take (Nat.min a b) s.
Proof.
  revert b s; induction a as [|a IH]; intros [|b] [|c s]; simpl; auto.
  now rewrite IH.
Qed.

Lemma drop_take (a b : nat) (s : string) :
  drop a (take b s) = take (b - a) (drop a s).
Proof.
  revert b s; induction a as [|a IH]; intros b s; simpl.
  - now rewrite Nat.sub_0_r.
  - destruct b as [|b], s as [|c s]; simpl; auto.
    now destruct (b - a).
Qed.

Lemma take_all (n : nat) (s : string) :
  length s <= n -> take n s = s.
Proof.
  revert s; induction n as [|n IH]; intros [|c s]; simpl; intros H; auto.
  - lia.
  - f_equal. apply IH. lia.
Qed.

(** [slice] on indices that are not negative. *)
Lemma slice_nat (s : string) (a b : nat) :
  slice s (Z.of_nat a) (Z.of_nat b)
  = take (Nat.min b (length s) - Nat.min a (length s)) (drop (Nat.min a (length s)) s).
Proof.
  unfold slice, relative_index.
  destruct (Z.ltb_spec (Z.of_nat a) 0); [lia|].
  destruct (Z.ltb_spec (Z.of_nat b) 0); [lia|].
  replace (Z.to_nat (Z.min (Z.of_nat a) (Z.of_nat (length s))))
    with (Nat.min a (length s)) by lia.
  f_equal. lia.
Qed.

(** A window that fits in the text has the window's size. *)
Lemma length_slice_nat (s : string) (a b : nat) :
  length (slice s (Z.of_nat a) (Z.of_nat b))
  = Nat.min b (length s) - Nat.min a (length s).
Proof.
  rewrite slice_nat, length_take, length_drop. lia.
Qed.

(** The tail of a full window is the head of the next one: both are the
    [o] code units of the text that start at [a + w - o]. *)
Lemma window_overlap (s : string) (a w o : nat) :
  o <= w -> a + w <= length s ->
  suffix o (slice s (Z.of_nat a) (Z.of_nat (a + w)))
  = prefix o (slice s (Z.of_nat (a + w - o)) (Z.of_nat (a + w - o + w))).
Proof.
  intros Ho Hfit. unfold suffix, prefix.
  rewrite length_slice_nat, !slice_nat.
  replace (Nat.min (a + w) (length s)) with (a + w) by lia.
  replace (Nat.min a (length s)) with a by lia.
  replace (Nat.min (a + w - o) (length s)) with (a + w - o) by lia.
  rewrite drop_take, drop_drop, take_take.
  replace (a + (a + w - a - o)) with (a + w - o) by lia.
  f_equal; lia.
Qed.

End JsStringFacts.

(* ===================================================================== *)
(** * Facts about the chunker *)
(* ===================================================================== *)

Module ChunkerFacts.
Import JsString JsStringFacts Chunker.

Section Windows.

Variable text : string.
Variables chunkSize overlap : Z.

Let step : Z := (chunkSize - overlap)%Z.
Let len : Z := Z.of_nat (length text).

(** The loop appends to its accumulator the windows from [i] on. *)
Lemma chunkText_loop_windows (fuel : nat) (i : Z) (acc : list string) :
  chunkText_loop fuel text chunkSize overlap i acc
  = option_map (app acc) (windows fuel text chunkSize overlap i).
Proof.
  revert i acc; induction fuel as [|fuel IH]; intros i acc; simpl; auto.
  destruct (i <? Z.of_nat (length text))%Z.
  - rewrite IH.
    destruct (windows fuel text chunkSize overlap (i + (chunkSize - overlap))%Z);
      simpl; auto.
    now rewrite <- app_assoc.
  - simpl. now rewrite app_nil_r.
Qed.

(** Chunk [k] of the windows from [i] is the slice that starts at
    [i + k * step], a position inside the text. *)
Lemma windows_nth (fuel : nat) (i : Z) (l : list string) (k : nat) (c : string) :
  windows fuel text chunkSize overlap i = Some l ->
  nth_error l k = Some c ->
  c = slice text (i + Z.of_nat k * step) (i + Z.of_nat k * step + chunkSize)
  /\ (i + Z.of_nat k * step < len)%Z.
Proof.
  revert i l k; induction fuel as [|fuel IH]; intros i l k; simpl; [discriminate|].
  destruct (Z.ltb_spec i (Z.of_nat (length text))) as [Hlt|Hge].
  - destruct (windows fuel text chunkSize overlap (i + (chunkSize - overlap))%Z)
      as [l'|] eqn:E; simpl; [|discriminate].
    intros [= <-]. destruct k as [|k]; cbn [nth_error].
    + intros [= <-]. rewrite Z.mul_0_l, Z.add_0_r. split; [reflexivity|exact Hlt].
    + intros Hk. destruct (IH _ _ _ E Hk) as [Hc Hin].
      rewrite Hc. unfold step, len in *.
      split; [f_equal; lia|lia].
  - intros [= <-]. destruct k; discriminate.
Qed.

(** With a positive step, [fuel] iterations are enough as soon as [fuel]
    exceeds the distance to the end of the text. *)
Lemma windows_enough (fuel : nat) (i : Z) :
  (0 < step)%Z -> (0 < fuel)%nat -> (len - i < Z.of_nat fuel)%Z ->
  exists l, windows fuel text chunkSize overlap i = Some l.
Proof.
  intros Hstep. revert i; induction fuel as [|fuel IH]; intros i Hpos Hfuel; [lia|].
  simpl. destruct (Z.ltb_spec i (Z.of_nat (length text))) as [Hlt|Hge].
  - destruct (IH (i + (chunkSize - overlap))%Z) as [l Hl].
    + fold len in Hlt. lia.
    + fold len in Hlt. fold step. lia.
    + rewrite Hl. simpl. eauto.
  - eauto.
Qed.

(** More fuel does not change a result. *)
Lemma windows_more_fuel (fuel fuel' : nat) (i : Z) (l : list string) :
  windows fuel text chunkSize overlap i = Some l ->
  (fuel <= fuel')%nat ->
  windows fuel' text chunkSize overlap i = Some l.
Proof.
  revert fuel' i l; induction fuel as [|fuel IH]; intros fuel' i l; simpl;
    [discriminate|].
  intros H Hle. destruct fuel' as [|fuel']; [lia|]. simpl.
  destruct (i <? Z.of_nat (length text))%Z; auto.
  destruct (windows fuel text chunkSize overlap (i + (chunkSize - overlap))%Z)
    as [l'|] eqn:E; simpl in H; [|discriminate].
  rewrite (IH fuel' _ _ E); [exact H|lia].
Qed.

(** With a step that is not positive, a loop that is entered below the end
    of the text never exits. *)
Lemma windows_diverge (fuel : nat) (i : Z) :
  (step <= 0)%Z -> (i < len)%Z ->
  windows fuel text chunkSize overlap i = None.
Proof.
  intros Hstep. revert i; induction fuel as [|fuel IH]; intros i Hi; simpl; auto.
  destruct (Z.ltb_spec i (Z.of_nat (length text))) as [Hlt|Hge].
  - rewrite IH; [reflexivity|]. fold step. lia.
  - fold len in Hge. lia.
Qed.

End Windows.

(** [chunkText] returns as soon as [overlap < chunkSize], and more
    iterations give the same chunks. *)
Lemma chunkText_fuel_enough (text : string) (chunkSize overlap : Z) :
  (overlap < chunkSize)%Z ->
  exists chunks,
    chunkText text chunkSize overlap = Some chunks
    /\ forall fuel, (S (length text) <= fuel)%nat ->
         chunkText_loop fuel text chunkSize overlap 0%Z [] = Some chunks.
Proof.
  intros H. unfold chunkText.
  destruct (windows_enough text chunkSize overlap (S (length text)) 0%Z)
    as [l Hl]; try lia.
  exists l. split.
  - now rewrite chunkText_loop_windows, Hl.
  - intros fuel Hfuel.
    now rewrite chunkText_loop_windows, (windows_more_fuel _ _ _ _ _ _ _ Hl Hfuel).
Qed.

(** With [overlap >= chunkSize] the loop never exits on a text that is not
    empty, whatever the number of iterations allowed. *)
Lemma chunkText_diverges (text : string) (chunkSize overlap : Z) (fuel : nat) :
  (chunkSize <= overlap)%Z -> text <> EmptyString ->
  chunkText_loop fuel text chunkSize overlap 0%Z [] = None.
Proof.
  intros H Hne. rewrite chunkText_loop_windows, windows_diverge; auto; [lia|].
  destruct text; [congruence|simpl; lia].
Qed.

(** Chunk [k] is the slice of the text that starts at [k * (chunkSize -
    overlap)], a position inside the text. *)
Lemma chunkText_nth (text : string) (chunkSize overlap : Z) (chunks : list string)
  (k : nat) (c : string) :
  chunkText text chunkSize overlap = Some chunks ->
  nth_error chunks k = Some c ->
  c = slice text (Z.of_nat k * (chunkSize - overlap))
        (Z.of_nat k * (chunkSize - overlap) + chunkSize)
  /\ (Z.of_nat k * (chunkSize - overlap) < Z.of_nat (length text))%Z.
Proof.
  unfold chunkText. rewrite chunkText_loop_windows.
  destruct (windows (S (length text)) text chunkSize overlap 0) as [l|] eqn:E;
    [|discriminate].
  simpl. intros [= <-] Hk.
  destruct (windows_nth _ _ _ _ _ _ _ _ E Hk) as [Hc Hin].
  rewrite !Z.add_0_l in Hc, Hin. now split.
Qed.

End ChunkerFacts.

(* ===================================================================== *)
(** * The chunker: overlap of consecutive chunks, and termination *)
(* ===================================================================== *)

Module ChunkerClaims.
Import JsString JsStringFacts Chunker ChunkerFacts.

(** A chunk is a slice between two positions that are not negative. *)
Lemma chunk_as_nat_slice (text : string) (chunkSize overlap : Z) (k : nat) :
  (0 <= overlap < chunkSize)%Z ->
  let a := Z.to_nat (Z.of_nat k * (chunkSize - overlap)) in
  slice text (Z.of_nat k * (chunkSize - overlap))
    (Z.of_nat k * (chunkSize - overlap) + chunkSize)
  = slice text (Z.of_nat a) (Z.of_nat (a + Z.to_nat chunkSize)).
Proof.
  intros H a. subst a.
  assert (0 <= Z.of_nat k * (chunkSize - overlap))%Z by (apply Z.mul_nonneg_nonneg; lia).
  f_equal; lia.
Qed.

(** C5, as the code has it.  Chunking is a function of the text and the
    window parameters (the same arguments give the same chunks).  For
    [0 <= overlap < chunkSize] and two consecutive chunks [c], [c']: when [c]
    is a full window (it has [chunkSize] characters), the last [overlap]
    characters of [c] are the first [overlap] characters of [c']; and when
    moreover [2 * overlap <= chunkSize], every chunk but the last two is a
    full window, so that only the final pair can differ. *)
Theorem chunkText_overlap (text : string) (chunkSize overlap : Z)
  (chunks : list string) (i : nat) (c c' : string) :
  (0 <= overlap < chunkSize)%Z ->
  chunkText text chunkSize overlap = Some chunks ->
  nth_error chunks i = Some c ->
  nth_error chunks (S i) = Some c' ->
  (forall chunks', chunkText text chunkSize overlap = Some chunks' -> chunks' = chunks)
  /\ (Z.of_nat (length c) = chunkSize ->
      suffix (Z.to_nat overlap) c = prefix (Z.to_nat overlap) c')
  /\ ((2 * overlap <= chunkSize)%Z -> (S (S i) < List.length chunks)%nat ->
      Z.of_nat (length c) = chunkSize).
Proof.
  intros Hpar Hrun Hc Hc'.
  destruct (chunkText_nth _ _ _ _ _ _ Hrun Hc) as [Ec Hin].
  destruct (chunkText_nth _ _ _ _ _ _ Hrun Hc') as [Ec' Hin'].
  rewrite chunk_as_nat_slice in Ec, Ec' by exact Hpar.
  set (step := (chunkSize - overlap)%Z) in *.
  assert (Hp : (0 <= Z.of_nat i * step)%Z) by (apply Z.mul_nonneg_nonneg; lia).
  assert (Hs : (Z.of_nat (S i) * step = Z.of_nat i * step + step)%Z) by lia.
  set (a := Z.to_nat (Z.of_nat i * step)) in *.
  set (w := Z.to_nat chunkSize) in *.
  set (o := Z.to_nat overlap) in *.
  assert (Ha' : Z.to_nat (Z.of_nat (S i) * step) = a + w - o)
    by (rewrite Hs; subst a w o step; lia).
  rewrite Ha' in Ec'.
  assert (Ha : (a < length text)%nat) by (subst a; lia).
  split; [|split].
  - intros chunks' H'. congruence.
  - intros Hfull. rewrite Ec in Hfull. rewrite length_slice_nat in Hfull.
    rewrite Ec, Ec'. apply window_overlap; subst w o; lia.
  - intros Hhalf Hlast.
    destruct (nth_error chunks (S (S i))) as [c''|] eqn:Ec''.
    + destruct (chunkText_nth _ _ _ _ _ _ Hrun Ec'') as [_ Hin''].
      fold step in Hin''.
      assert (Hs2 : (Z.of_nat (S (S i)) * step = Z.of_nat i * step + 2 * step)%Z)
        by lia.
      rewrite Ec, length_slice_nat. subst a w step. lia.
    + apply nth_error_None in Ec''. lia.
Qed.

(** A run of [chunkText_overlap]: the two chunks of ["abcdefgh"] for a
    window of 5 and an overlap of 2. *)
Lemma chunkText_overlap_witness :
  suffix (Z.to_nat 2) "abcde" = prefix (Z.to_nat 2) "defgh".
Proof.
  refine (proj1 (proj2 (chunkText_overlap "abcdefgh" 5 2 ["abcde"; "defgh"; "gh"]
                          0 "abcde" "defgh" _ _ _ _)) _).
  - lia.
  - reflexivity.
  - reflexivity.
  - reflexivity.
  - reflexivity.
Defined.

(** C5 fails as stated: with a window of 4 and an overlap of 3 the text
    ["abcde"] gives five chunks, and the third and the fourth, neither of
    them the final chunk, do not share three characters. *)
Lemma chunkText_overlap_counterexample :
  chunkText "abcde" 4 3 = Some ["abcd"; "bcde"; "cde"; "de"; "e"]
  /\ suffix (Z.to_nat 3) "cde" <> prefix (Z.to_nat 3) "de".
Proof.
  split; [reflexivity|discriminate].
Qed.

(** Nothing checks [overlap] against [chunkSize]: the two are no
    configuration but the literals 900 and 150 of the one call of the
    pipeline, which returns for every document.  In general [chunkText]
    returns whenever [overlap < chunkSize], with a result that does not
    depend on the number of iterations allowed beyond [length text + 1]. *)
Lemma chunkText_terminates (text : string) (chunkSize overlap : Z) :
  (overlap < chunkSize)%Z ->
  (exists chunks,
     chunkText text chunkSize overlap = Some chunks
     /\ forall fuel, (S (length text) <= fuel)%nat ->
          chunkText_loop fuel text chunkSize overlap 0%Z [] = Some chunks)
  /\ (forall di doc, exists chunks, Pipeline.doc_chunks di doc = Ok chunks).
Proof.
  intros H. split.
  - now apply chunkText_fuel_enough.
  - intros di doc. unfold Pipeline.doc_chunks.
    destruct (chunkText_fuel_enough
                ((match Pipeline.doc_text doc with
                  | Some t => t
                  | None => EmptyString
                  end) ++ Pipeline.newline) 900 150) as [chunks [Hc _]]; [lia|].
    rewrite Hc. eauto.
Qed.

Example chunkText_terminates_example :
  exists chunks, chunkText "abcdefgh" 5 2 = Some chunks.
Proof.
  destruct (proj1 (chunkText_terminates "abcdefgh" 5 2 ltac:(lia))) as [chunks [H _]].
  exists chunks. exact H.
Qed.

End ChunkerClaims.

(* ===================================================================== *)
(** * The similarity score *)
(* ===================================================================== *)

Module VectorClaims.
Import Vector.
#[local] Open Scope float_scope.

(** A [reduce] whose callback ignores the index is a left fold. *)
Lemma reduce_from_fold {A B : Type} (f : B -> A -> B) (l : list A) (i : nat) (acc : B) :
  reduce_from i (fun s v _ => f s v) acc l = fold_left f l acc.
Proof.
  revert i acc; induction l as [|v l IH]; intros i acc; simpl; auto.
Qed.

(** The sum [cosine] accumulates from index [i] on is the left fold over the
    pairs of [a] with any [bs] that reads like [b] from [i] on. *)
Lemma reduce_from_dot (b : vector) (a bs : vector) (i : nat) (acc : float) :
  (List.length a <= List.length bs)%nat ->
  (forall j, (j < List.length a)%nat ->
             nth_error bs j ?? 0 = nth_error b (i + j) ?? 0) ->
  reduce_from i (fun s v k => s + v * (nth_error b k ?? 0)) acc a
  = fold_left (fun s p => s + fst p * snd p) (combine a bs) acc.
Proof.
  revert bs i acc; induction a as [|v a IH]; intros bs i acc Hlen Hnth; simpl; auto.
  destruct bs as [|y bs]; simpl in Hlen; [lia|].
  assert (H0 : y = nth_error b i ?? 0).
  { specialize (Hnth 0%nat). rewrite Nat.add_0_r in Hnth.
    apply Hnth. simpl; lia. }
  simpl. rewrite <- H0.
  apply IH; [lia|].
  intros j Hj. specialize (Hnth (S j)). simpl in Hnth.
  rewrite Hnth by lia. f_equal. f_equal. lia.
Qed.

(** An entry of [pad_to a b] reads like the entry of [b], absent entries
    being [0]. *)
Lemma nth_pad_to (a b : vector) (j : nat) :
  nth_error (pad_to a b) j ?? 0 = nth_error b j ?? 0.
Proof.
  unfold pad_to.
  destruct (Nat.lt_ge_cases j (List.length b)) as [Hlt|Hge].
  - now rewrite nth_error_app1.
  - rewrite nth_error_app2 by exact Hge.
    rewrite (proj2 (nth_error_None b j) Hge). simpl.
    destruct (nth_error (repeat 0 (List.length a - List.length b)) (j - List.length b))
      as [x|] eqn:E; simpl; auto.
    apply nth_error_In, repeat_spec in E. exact E.
Qed.

Lemma length_pad_to (a b : vector) :
  List.length (pad_to a b) = Nat.max (List.length a) (List.length b).
Proof.
  unfold pad_to. rewrite length_app, repeat_length. lia.
Qed.

Lemma pad_to_idempotent (a b : vector) :
  pad_to a (pad_to a b) = pad_to a b.
Proof.
  unfold pad_to at 1. rewrite length_pad_to.
  replace (List.length a - Nat.max (List.length a) (List.length b))%nat with 0%nat
    by lia.
  apply app_nil_r.
Qed.

(** The [dot] of [cosine] is the dot product. *)
Lemma cosine_dot_is_dot_product (a b : vector) :
  cosine_dot a b = dot_product a b.
Proof.
  unfold cosine_dot, dot_product, reduce.
  apply reduce_from_dot.
  - rewrite length_pad_to. lia.
  - intros j _. simpl. apply nth_pad_to.
Qed.

(** C6.  The score of two vectors is their dot product divided by the
    product of their magnitudes, and it is the number [0] as soon as one
    magnitude equals zero: the division is then not evaluated, and no path
    of [cosine] raises. *)
Theorem cosine_is_normalized_dot_product (a b : vector) :
  cosine a b
  = if (magnitude a =? 0) || (magnitude b =? 0)
    then 0
    else dot_product a b / (magnitude a * magnitude b).
Proof.
  unfold cosine, magnitude, reduce.
  rewrite !(reduce_from_fold (fun s v => s + v * v)).
  change (reduce_from 0 (fun s v i => s + v * (nth_error b i ?? 0)) 0 a)
    with (cosine_dot a b).
  now rewrite cosine_dot_is_dot_product.
Qed.

(** C6 on examples: the 3-4-5 triangle, and a zero vector on either side. *)
Example cosine_3_4 : cosine [3; 4] [3; 4] = 1.
Proof. reflexivity. Qed.

Example cosine_zero_left : cosine [0; 0] [3; 4] = 0.
Proof. reflexivity. Qed.

Example cosine_zero_right : cosine [3; 4] [] = 0.
Proof. reflexivity. Qed.

End VectorClaims.

(* ===================================================================== *)
(** * The decision: the heuristic path *)
(* ===================================================================== *)

Module HeuristicClaims.
Import JsString Json Synthesizer Properties Fixtures.

Lemma prefix_true_iff (k s : string) :
  String.prefix k s = true <-> exists after, s = k ++ after.
Proof.
  revert s; induction k as [|a k IH]; intros s; simpl.
  - destruct s; (split; [intros _; eexists; reflexivity|reflexivity]).
  - destruct s as [|b s]; simpl.
    + split; [discriminate|]. intros [after H]. discriminate.
    + destruct (ascii_dec a b) as [->|Hne].
      * split.
        -- intros H. apply IH in H. destruct H as [after ->]. now exists after.
        -- intros [after H]. apply IH. exists after. congruence.
      * split; [discriminate|]. intros [after H]. congruence.
Qed.

Lemma includes_unfold (s k : string) :
  includes s k
  = if String.prefix k s then true
    else match s with
         | EmptyString => false
         | String _ s' => includes s' k
         end.
Proof.
  destruct s; reflexivity.
Qed.

(** [includes] decides occurrence. *)
Lemma includes_true_iff (s k : string) :
  includes s k = true <-> occurs k s.
Proof.
  unfold occurs. split.
  - induction s as [|c s IH]; rewrite includes_unfold;
      destruct (String.prefix k _) eqn:E; try discriminate.
    + intros _. apply prefix_true_iff in E. destruct E as [after E].
      exists EmptyString, after. exact E.
    + intros _. apply prefix_true_iff in E. destruct E as [after E].
      exists EmptyString, after. exact E.
    + intros H. destruct (IH H) as [before [after ->]].
      exists (String c before), after. reflexivity.
  - intros [before [after ->]].
    induction before as [|c before IH]; rewrite includes_unfold.
    + assert (E : String.prefix k (k ++ after) = true)
        by (apply prefix_true_iff; eauto).
      simpl in *. now rewrite E.
    + change (String c before ++ k ++ after)
        with (String c (before ++ k ++ after)).
      destruct (String.prefix k _); [reflexivity|exact IH].
Qed.

Lemma existsb_includes_iff (keywords : list string) (s : string) :
  existsb (fun k => includes s k) keywords = true <-> some_occurs keywords s.
Proof.
  unfold some_occurs. rewrite existsb_exists.
  split; intros [k [Hin H]]; exists k; split; auto; now apply includes_true_iff.
Qed.

(** The decision of the heuristic, case by case. *)
Lemma heuristic_decision_cases (joined : string) :
  (some_occurs rejectKeywords joined /\ ~ some_occurs approveKeywords joined ->
   heuristic_decision joined = "rejected")
  /\ (some_occurs approveKeywords joined /\ ~ some_occurs rejectKeywords joined ->
      heuristic_decision joined = "approved")
  /\ (~ (some_occurs rejectKeywords joined /\ ~ some_occurs approveKeywords joined) ->
      ~ (some_occurs approveKeywords joined /\ ~ some_occurs rejectKeywords joined) ->
      heuristic_decision joined = "maybe").
Proof.
  unfold heuristic_decision, foundReject, foundApprove.
  pose proof (existsb_includes_iff rejectKeywords joined) as HR.
  pose proof (existsb_includes_iff approveKeywords joined) as HA.
  destruct (existsb (fun k => includes joined k) rejectKeywords);
    destruct (existsb (fun k => includes joined k) approveKeywords); simpl;
    repeat split; try tauto; intros; try reflexivity; exfalso;
    intuition (try discriminate; auto).
Qed.

(** C2.  When no JSON object can be parsed out of the model's text, the
    result is the fallback object: its decision is the keyword heuristic on
    the lower-cased texts of the top chunks joined by one space ([rejected]
    when a rejection keyword occurs and no approval keyword does, [approved]
    when an approval keyword occurs and no rejection keyword does, [maybe]
    otherwise), and its amount is [null]. *)
Theorem unparsable_answer_uses_heuristic (top : list ScoredChunk) (llmText : string) :
  parse_llm llmText = None ->
  let joined := join " " (map (fun t => toLowerCase (text (chunk t))) top) in
  let rejecting := some_occurs rejectKeywords joined in
  let approving := some_occurs approveKeywords joined in
  exists results,
    synthesize top llmText = Ok results
    /\ field "amount" results = Some JNull
    /\ field "decision" results = Some (JStr (heuristic_decision joined))
    /\ (rejecting /\ ~ approving -> field "decision" results = Some (JStr "rejected"))
    /\ (approving /\ ~ rejecting -> field "decision" results = Some (JStr "approved"))
    /\ (~ (rejecting /\ ~ approving) -> ~ (approving /\ ~ rejecting) ->
        field "decision" results = Some (JStr "maybe")).
Proof.
  intros Hparse joined rejecting approving.
  exists (fallback top llmText).
  unfold synthesize. rewrite Hparse.
  destruct (heuristic_decision_cases joined) as [HR [HA HM]].
  fold rejecting approving in HR, HA, HM.
  repeat split; try reflexivity; simpl; unfold joined_text; fold joined.
  - intros H. now rewrite (HR H).
  - intros H. now rewrite (HA H).
  - intros H1 H2. now rewrite (HM H1 H2).
Qed.

Lemma unparsable_answer_uses_heuristic_witness :
  exists results,
    synthesize [covered_chunk] "I cannot answer." = Ok results
    /\ field "amount" results = Some JNull
    /\ field "decision" results = Some (JStr "approved").
Proof.
  destruct (unparsable_answer_uses_heuristic [covered_chunk] "I cannot answer."
              eq_refl) as [results [H1 [H2 [H3 _]]]].
  exists results. split; [exact H1|]. split; [exact H2|exact H3].
Defined.

(** The example of the specification: ["covered"] occurs, but so does
    ["waiting period"], a rejection keyword, and the heuristic says
    [maybe]. *)
Example heuristic_covered_after_waiting_period :
  heuristic_decision
    (toLowerCase "orthopedic procedures are covered after a 2-month waiting period")
  = "maybe".
Proof. reflexivity. Qed.

Example heuristic_pre_existing :
  heuristic_decision
    (toLowerCase "pre-existing conditions are excluded for the first 12 months")
  = "rejected".
Proof. reflexivity. Qed.

End HeuristicClaims.

(* ===================================================================== *)
(** * Facts about the handler *)
(* ===================================================================== *)

Module HandlerFacts.
Import JsString Json Handler Properties.

(** ** The log only grows *)

Lemma ret_extends {A : Type} (a : A) : extends_log (ret a).
Proof.
  intros log r log' [= <- <-]. exists []. now rewrite app_nil_r.
Qed.

Lemma lift_extends {A : Type} (r : Result A) : extends_log (lift r).
Proof.
  intros log r' log' [= <- <-]. exists []. now rewrite app_nil_r.
Qed.

Lemma call_embeddings_extends (P : Providers) (input : EmbeddingInput) :
  extends_log (call_embeddings P input).
Proof.
  intros log r log'. unfold call_embeddings.
  destruct (embeddings_create P input); intros [= <- <-]; eauto.
Qed.

Lemma call_chat_extends (P : Providers) (messages : list Message) :
  extends_log (call_chat P messages).
Proof.
  intros log r log'. unfold call_chat.
  destruct (chat_completions_create P messages); intros [= <- <-]; eauto.
Qed.

(** The log of [bind m k] starts with the log of [m]. *)
Lemma bind_log {A B : Type} (m : M A) (k : A -> M B) (log : list Call)
  (r : Result B) (log' : list Call) :
  (forall a, extends_log (k a)) ->
  bind m k log = (r, log') ->
  exists r1 log1 ext, m log = (r1, log1) /\ log' = (log1 ++ ext)%list.
Proof.
  intros Hk. unfold bind.
  destruct (m log) as [[a|e|] log1] eqn:E.
  - intros H. destruct (Hk a _ _ _ H) as [ext ->]. eauto 6.
  - intros [= <- <-]. exists (Throw e), log1, []. now rewrite app_nil_r.
  - intros [= <- <-]. exists Hang, log1, []. now rewrite app_nil_r.
Qed.

Lemma bind_extends {A B : Type} (m : M A) (k : A -> M B) :
  extends_log m -> (forall a, extends_log (k a)) -> extends_log (bind m k).
Proof.
  intros Hm Hk log r log' H.
  destruct (bind_log m k log r log' Hk H) as [r1 [log1 [ext [H1 ->]]]].
  destruct (Hm _ _ _ H1) as [ext1 ->].
  exists (ext1 ++ ext)%list. now rewrite app_assoc.
Qed.

Create HintDb extends.

#[local] Hint Resolve ret_extends lift_extends call_embeddings_extends
  call_chat_extends bind_extends : extends.

Lemma embedTexts_loop_extends (P : Providers) (fuel : nat) (texts : list string)
  (i : nat) (results : list vector) :
  extends_log (embedTexts_loop P fuel texts i results).
Proof.
  revert i results; induction fuel as [|fuel IH]; intros i results; simpl.
  - auto with extends.
  - destruct (i <? List.length texts)%nat; auto with extends.
Qed.

#[local] Hint Resolve embedTexts_loop_extends : extends.

Lemma retrieve_extends (P : Providers) (query : string) (chunks : list Chunk) :
  extends_log (retrieve P query chunks).
Proof.
  unfold retrieve, embedTexts.
  repeat (apply bind_extends; [auto with extends|intros ?]).
  auto with extends.
Qed.

#[local] Hint Resolve retrieve_extends : extends.

Lemma answer_extends (P : Providers) (query : string) (items : list DocRef)
  (chunks : list Chunk) :
  extends_log (answer P query items chunks).
Proof.
  unfold answer.
  repeat (apply bind_extends; [auto with extends|intros ?]).
  auto with extends.
Qed.

(** ** Every document gives a chunk *)

(** A text that is not empty gives at least one chunk. *)
Lemma chunkText_nonempty (text : string) (chunks : list string) :
  text <> EmptyString ->
  Chunker.chunkText text 900 150 = Some chunks ->
  chunks <> [].
Proof.
  intros Hne. unfold Chunker.chunkText.
  rewrite ChunkerFacts.chunkText_loop_windows. simpl.
  destruct (Z.ltb_spec 0 (Z.of_nat (length text))) as [_|H].
  - destruct (Chunker.windows _ _ _ _ _); simpl; [|discriminate].
    intros [= <-]. discriminate.
  - destruct text; [congruence|simpl in H; lia].
Qed.

Lemma mapi_from_nil_inv {A B : Type} (f : nat -> A -> B) (i : nat) (l : list A) :
  mapi_from i f l = [] -> l = [].
Proof.
  destruct l; [reflexivity|discriminate].
Qed.

(** Every document pushes at least one chunk: its text is extended with a
    line feed before it is chunked. *)
Lemma doc_chunks_nonempty (di : nat) (doc : Doc) :
  exists c chunks, doc_chunks di doc = Ok (c :: chunks).
Proof.
  unfold doc_chunks.
  set (txt := _ ++ newline).
  destruct (ChunkerFacts.chunkText_fuel_enough txt 900 150) as [cs [H _]]; [lia|].
  rewrite H.
  assert (Hne : cs <> []).
  { apply (chunkText_nonempty txt); [|exact H].
    subst txt. destruct (doc_text doc) as [[|? ?]|]; discriminate. }
  destruct cs as [|c0 cs]; [congruence|]. unfold mapi. simpl. eauto.
Qed.

Lemma mapi_result_from_doc_chunks (i : nat) (docs : list Doc) :
  exists per_doc,
    mapi_result_from i doc_chunks docs = Ok per_doc
    /\ (docs <> [] -> List.concat per_doc <> []).
Proof.
  revert i; induction docs as [|doc docs IH]; intros i; simpl.
  - exists []. split; [reflexivity|congruence].
  - destruct (doc_chunks_nonempty i doc) as [c [cs ->]].
    destruct (IH (S i)) as [per_doc [-> _]]. simpl.
    exists ((c :: cs) :: per_doc). split; [reflexivity|]. discriminate.
Qed.

(** The chunk list is empty for an empty [documents] array only. *)
Lemma build_chunks_nonempty (docs : list Doc) :
  exists chunks, build_chunks docs = Ok chunks /\ (docs <> [] -> chunks <> []).
Proof.
  unfold build_chunks, mapi_result.
  destruct (mapi_result_from_doc_chunks 0 docs) as [per_doc [-> H]].
  simpl. eauto.
Qed.

(** ** The first call of a request that has chunks *)

Lemma embedTexts_first_call (P : Providers) (texts : list string)
  (r : Result (list vector)) (log : list Call) :
  texts <> [] ->
  embedTexts P texts [] = (r, log) ->
  exists rest, log = EmbeddingsCreate (InputMany (firstn BATCH texts)) :: rest.
Proof.
  intros Hne. unfold embedTexts.
  destruct texts as [|t texts]; [congruence|].
  change (embedTexts_loop P (S (List.length (t :: texts))) (t :: texts) 0 [])
    with (bind (call_embeddings P (InputMany (firstn BATCH (t :: texts))))
            (fun data =>
               embedTexts_loop P (List.length (t :: texts)) (t :: texts)
                 (0 + BATCH) ([] ++ data)%list)).
  intros H.
  destruct (bind_log _ _ _ _ _
              (fun a => embedTexts_loop_extends P _ _ _ _) H)
    as [r1 [log1 [ext [H1 ->]]]].
  unfold call_embeddings in H1.
  destruct (embeddings_create P _); injection H1 as <- <-; simpl app; eauto.
Qed.

(** The continuations of [retrieve] and [answer] keep the log. *)
Ltac extends_log_steps :=
  intros; repeat (apply bind_extends; [auto with extends|intros ?]);
  auto with extends.

Lemma answer_first_call (P : Providers) (query : string) (items : list DocRef)
  (chunks : list Chunk) (r : Result Response) (log : list Call) :
  chunks <> [] ->
  answer P query items chunks [] = (r, log) ->
  exists rest,
    log = EmbeddingsCreate (InputMany (firstn BATCH (map text chunks))) :: rest.
Proof.
  intros Hne H. unfold answer in H.
  apply bind_log in H; [|extends_log_steps].
  destruct H as [r1 [log1 [ext [H1 ->]]]].
  unfold retrieve in H1.
  apply bind_log in H1; [|extends_log_steps].
  destruct H1 as [r2 [log2 [ext2 [H2 ->]]]].
  apply embedTexts_first_call in H2.
  - destruct H2 as [rest ->]. simpl. eauto.
  - destruct chunks; [congruence|discriminate].
Qed.

(** ** What a 200 response was built from *)

Lemma hackrx_run_200 (P : Providers) (body : Body) (env : Envelope) (log : list Call) :
  hackrx_run P body = (Some (Status200 env), log) ->
  exists d q chunks top log1 completion,
    documents body = Some d
    /\ query body = Some q
    /\ build_chunks (map (fetchAndExtract P) (as_array d)) = Ok chunks
    /\ retrieve P q chunks [] = (Ok top, log1)
    /\ chat_completions_create P (prompt P q top) = Replied completion
    /\ synthesize top (llmText_of completion) = Ok (results env)
    /\ top_k (meta env) = List.length top
    /\ chunks_indexed (meta env) = List.length chunks.
Proof.
  unfold hackrx_run.
  destruct (documents body) as [d|]; [|discriminate].
  destruct (falsy_documents d); [discriminate|].
  destruct (query body) as [q|]; [|discriminate].
  destruct (String.eqb q ""); [discriminate|].
  destruct (build_chunks _) as [chunks|e|] eqn:Hb; try discriminate.
  destruct chunks as [|c chunks]; [discriminate|].
  unfold answer, bind at 1.
  destruct (retrieve P q (c :: chunks) []) as [[top|e|] log1] eqn:Hr;
    try discriminate.
  unfold bind at 1, call_chat.
  destruct (chat_completions_create P (prompt P q top)) as [completion|msg] eqn:Hc;
    try discriminate.
  unfold bind, lift, ret.
  destruct (synthesize top (llmText_of completion)) as [parsed|e|] eqn:Hs;
    try discriminate.
  intros [= <- <-]. simpl.
  exists d, q, (c :: chunks), top, log1, completion. repeat split; auto.
Qed.

(** What the semantic search returns. *)
Lemma semantic_search_ok (qEmb : vector) (chunks : list Chunk)
  (top : list ScoredChunk) :
  semantic_search qEmb chunks = Ok top ->
  exists scored,
    score_chunks qEmb chunks = Ok scored
    /\ top = firstn (Nat.min 6 (List.length chunks)) (sort by_score_desc scored).
Proof.
  unfold semantic_search.
  destruct (score_chunks qEmb chunks) as [scored|e|]; cbn [rbind];
    try discriminate.
  intros H. exists scored. split; [reflexivity|congruence].
Qed.

(** The top chunks of a request are those of the semantic search over its
    chunks, with the embeddings attached. *)
Lemma retrieve_ok (P : Providers) (query : string) (chunks : list Chunk)
  (top : list ScoredChunk) (log log' : list Call) :
  retrieve P query chunks log = (Ok top, log') ->
  exists embeddings qEmb,
    semantic_search qEmb (attach_embeddings chunks embeddings) = Ok top.
Proof.
  unfold retrieve, bind at 1.
  destruct (embedTexts P (map text chunks) log) as [[embeddings|e|] log1];
    try discriminate.
  unfold bind at 1.
  destruct (call_embeddings P (InputOne query) log1) as [[qEmbData|e|] log2];
    try discriminate.
  unfold bind, lift, ret.
  destruct qEmbData as [|qEmb rest]; [discriminate|].
  destruct (semantic_search qEmb (attach_embeddings chunks embeddings))
    as [top'|e|] eqn:Hs; try discriminate.
  intros [= <- <-]. eauto.
Qed.

End HandlerFacts.

(* ===================================================================== *)
(** * The no-content check *)
(* ===================================================================== *)

Module NoContentClaims.
Import Json Handler Properties HandlerFacts.

(** The check [chunks.length === 0] fires for an empty [documents] array,
    and no back end is called. *)
Lemma empty_array_is_rejected (P : Providers) (q : string) :
  q <> EmptyString ->
  hackrx_run P {| documents := Some (DocArray []); query := Some q |}
  = (Some (Status400 "No extractable text found in documents."), []).
Proof.
  intros Hq. unfold hackrx_run. simpl.
  destruct (String.eqb_spec q ""); [congruence|reflexivity].
Qed.

(** As soon as [documents] holds one item, the chunk list is not empty,
    whatever was extracted, and the first thing the handler does next is to
    call the embedding back end. *)
Lemma documents_always_embed (P : Providers) (d : Documents) (q : string) :
  falsy_documents d = false -> q <> EmptyString -> as_array d <> [] ->
  exists first rest,
    snd (hackrx_run P {| documents := Some d; query := Some q |})
    = EmbeddingsCreate (InputMany first) :: rest.
Proof.
  intros Hd Hq Hne. unfold hackrx_run. simpl. rewrite Hd.
  destruct (String.eqb_spec q ""); [congruence|].
  destruct (build_chunks_nonempty (map (fetchAndExtract P) (as_array d)))
    as [chunks [-> Hchunks]].
  assert (Hc : chunks <> []).
  { apply Hchunks. destruct (as_array d); [congruence|simpl; discriminate]. }
  destruct chunks as [|c chunks]; [congruence|].
  assert (Hcons : c :: chunks <> []) by discriminate.
  destruct (answer P q (as_array d) (c :: chunks) []) as [[resp|e|] log] eqn:E;
    destruct (answer_first_call _ _ _ _ _ _ Hcons E) as [rest ->];
    simpl; eauto.
Qed.

(** C1 fails on the code.  Whatever the back ends are, a request whose one
    document yields the empty text is not rejected: its single chunk has the
    empty text, the handler sends it to the embedding back end as its first
    call, and the answer is not the 400 of the no-content check. *)
Theorem empty_text_is_embedded
  (embed : EmbeddingInput -> Reply (list vector))
  (chat : list Message -> Reply (option string))
  (fixed : float -> nat -> string) (clock : string) :
  let P := {| fetchAndExtract := fun _ =>
                {| doc_text := Some EmptyString;
                   doc_source := "scan.pdf";
                   doc_error := None |};
              embeddings_create := embed;
              chat_completions_create := chat;
              toFixed := fixed;
              now := clock |} in
  let body := {| documents := Some (DocArray [DocUrl "https://example.org/scan.pdf"]);
                 query := Some "knee surgery" |} in
  build_chunks (map (fetchAndExtract P) [DocUrl "https://example.org/scan.pdf"])
  = Ok [ {| text := EmptyString; source := "scan.pdf"; doc_index := 0;
            chunk_index := 0; embedding := None |} ]
  /\ (exists rest,
        snd (hackrx_run P body) = EmbeddingsCreate (InputMany [EmptyString]) :: rest)
  /\ fst (hackrx_run P body)
     <> Some (Status400 "No extractable text found in documents.").
Proof.
  intros P body.
  assert (Hb : build_chunks (map (fetchAndExtract P) [DocUrl "https://example.org/scan.pdf"])
               = Ok [ {| text := EmptyString; source := "scan.pdf"; doc_index := 0;
                         chunk_index := 0; embedding := None |} ])
    by reflexivity.
  split; [exact Hb|].
  unfold hackrx_run, body.
  cbn [documents query falsy_documents as_array String.eqb].
  rewrite Hb.
  match goal with
  | |- context [answer P ?q ?items ?chunks []] =>
      assert (Hcons : chunks <> []) by discriminate;
      destruct (answer P q items chunks []) as [[resp|e|] log] eqn:E;
      destruct (answer_first_call _ _ _ _ _ _ Hcons E) as [rest ->]
  end;
    cbn [fst snd]; (split; [exists rest; reflexivity|]); try discriminate.
  intros [= ->].
  unfold answer, bind in E.
  destruct (retrieve P _ _ []) as [[top|?|] log1]; try discriminate.
  unfold call_chat in E.
  destruct (chat_completions_create P _); try discriminate.
  unfold lift, ret in E.
  destruct (synthesize top _); discriminate.
Qed.

End NoContentClaims.

(* ===================================================================== *)
(** * The JSON parser consumes its input and has fuel enough *)
(* ===================================================================== *)

Module JsonParserFacts.
Import Json.

Lemma skip_ws_length (s : string) : length (skip_ws s) <= length s.
Proof.
  induction s as [|c s IH]; simpl; auto.
  destruct (is_json_ws c); simpl; lia.
Qed.

(** A string literal ends at its closing quote: something is consumed. *)
Lemma parse_string_body_progress (s t k : string) :
  parse_string_body s = Some (t, k) -> length k < length s.
Proof.
  remember (length s) as n eqn:Hn.
  revert s t k Hn. induction n as [n IH] using lt_wf_ind.
  intros s t k Hn. destruct s as [|c r]; simpl; [discriminate|].
  simpl in Hn.
  assert (Hrec : forall r' t' k', length r' < n ->
             parse_string_body r' = Some (t', k') -> length k' < length r').
  { intros r' t' k' Hlt H. exact (IH _ Hlt r' t' k' eq_refl H). }
  destruct (code c =? 34)%nat.
  { intros [= <- <-]. lia. }
  destruct (code c =? 92)%nat.
  - destruct r as [|e r']; [intros H; discriminate H|]. simpl in Hn.
    assert (Hesc : forall u, match parse_string_body r' with
                             | Some (t0, k0) => Some (String u t0, k0)
                             | None => None
                             end = Some (t, k) -> length k < n).
    { intros u H. destruct (parse_string_body r') as [[t0 k0]|] eqn:E; [|discriminate].
      injection H as <- <-. apply Hrec in E; lia. }
    repeat match goal with
           | |- (if ?b then _ else _) = _ -> _ =>
               destruct b; [solve [apply Hesc]|]
           end.
    destruct (code e =? 117)%nat; [|discriminate].
    destruct r' as [|h1 [|h2 [|h3 [|h4 r4]]]]; try (intros H; discriminate H).
    destruct (unit_of_hex h1 h2 h3 h4) as [u|]; [|discriminate].
    destruct (parse_string_body r4) as [[t0 k0]|] eqn:E; [|discriminate].
    intros [= <- <-]. simpl in Hn. apply Hrec in E; simpl; lia.
  - destruct (code c <? 32)%nat; [discriminate|].
    destruct (parse_string_body r) as [[t0 k0]|] eqn:E; [|discriminate].
    intros [= <- <-]. apply Hrec in E; lia.
Qed.

Lemma strip_prefix_length (lit s k : string) :
  strip_prefix lit s = Some k -> length k + length lit = length s.
Proof.
  revert s; induction lit as [|a lit IH]; intros s; simpl.
  - intros [= <-]. lia.
  - destruct s as [|b s]; [discriminate|].
    destruct (Ascii.eqb a b); [|discriminate].
    intros H. apply IH in H. simpl. lia.
Qed.

Lemma read_digits_length (s : string) (acc : Z) (count : nat) :
  length (snd (read_digits s acc count)) + snd (fst (read_digits s acc count))
  = length s + count.
Proof.
  revert acc count; induction s as [|c s IH]; intros acc count; simpl; auto.
  destruct (is_digit c); simpl; auto. rewrite IH. lia.
Qed.

Lemma read_digits_count (s : string) (acc : Z) (count : nat) :
  count <= snd (fst (read_digits s acc count)).
Proof.
  revert acc count; induction s as [|c s IH]; intros acc count; simpl; auto.
  destruct (is_digit c); simpl; auto.
  etransitivity; [|apply IH]. lia.
Qed.

(** A number literal has one digit at least. *)
Lemma parse_number_progress (s : string) (x : float) (k : string) :
  parse_number s = Some (x, k) -> length k < length s.
Proof.
  unfold parse_number.
  set (start := match s with
                | String c r => if (code c =? 45)%nat then (true, r) else (false, s)
                | EmptyString => (false, s)
                end).
  assert (Hstart : length (snd start) <= length s).
  { subst start. destruct s as [|c r]; simpl; auto.
    destruct (code c =? 45)%nat; simpl; lia. }
  destruct start as [neg s1]. cbn [snd] in Hstart.
  pose proof (read_digits_length s1 0%Z 0) as H1.
  destruct (read_digits s1 0%Z 0) as [[int_part int_count] s2].
  cbn [fst snd] in H1.
  destruct (int_count =? 0)%nat eqn:E0; [discriminate|].
  apply Nat.eqb_neq in E0.
  destruct (_ && _); [discriminate|].
  set (after_fraction := match s2 with
                         | String c r => _
                         | EmptyString => _
                         end).
  assert (Hfrac : forall m fc s3, after_fraction = Some (m, fc, s3) ->
                    length s3 <= length s2).
  { subst after_fraction. intros m fc s3. destruct s2 as [|c r].
    - intros [= _ _ <-]. lia.
    - destruct (code c =? 46)%nat.
      + pose proof (read_digits_length r int_part 0) as H2.
        destruct (read_digits r int_part 0) as [[m' fc'] s3'].
        cbn [fst snd] in H2.
        destruct (fc' =? 0)%nat; [discriminate|].
        intros [= _ _ <-]. simpl. lia.
      + intros [= _ _ <-]. lia. }
  destruct after_fraction as [[[m fc] s3]|]; [|discriminate].
  specialize (Hfrac _ _ _ eq_refl).
  set (after_exponent := match s3 with
                         | String c r => _
                         | EmptyString => _
                         end).
  assert (Hexp : forall e s4, after_exponent = Some (e, s4) ->
                   length s4 <= length s3).
  { subst after_exponent. intros e s4. destruct s3 as [|c r].
    - intros [= _ <-]. lia.
    - destruct (_ || _).
      + set (sign := match r with
                     | String d r' => _
                     | EmptyString => _
                     end).
        assert (Hsign : length (snd sign) <= length r).
        { subst sign. destruct r as [|d r']; simpl; auto.
          destruct (code d =? 45)%nat; simpl; [lia|].
          destruct (code d =? 43)%nat; simpl; lia. }
        destruct sign as [eneg r1]. cbn [snd] in Hsign.
        pose proof (read_digits_length r1 0%Z 0) as H3.
        destruct (read_digits r1 0%Z 0) as [[e' ec] s4'].
        cbn [fst snd] in H3.
        destruct (ec =? 0)%nat; [discriminate|].
        intros [= _ <-]. simpl. lia.
      + intros [= _ <-]. lia. }
  destruct after_exponent as [[e s4]|]; [|discriminate].
  specialize (Hexp _ _ eq_refl).
  intros [= _ <-]. lia.
Qed.

(** Whatever is parsed consumes input. *)
Lemma parse_progress (fuel : nat) :
  (forall s v rest, parse_value fuel s = Parsed v rest -> length rest < length s)
  /\ (forall s acc v rest,
        parse_members fuel s acc = Parsed v rest -> length rest < length s)
  /\ (forall s acc v rest,
        parse_elements fuel s acc = Parsed v rest -> length rest < length s).
Proof.
  induction fuel as [|fuel [IHv [IHm IHe]]].
  - repeat split; intros; discriminate.
  - split; [|split].
    + intros s v rest. cbn [parse_value].
      destruct s as [|c r]; [discriminate|].
      destruct (code c =? 123)%nat.
      { pose proof (skip_ws_length r) as Hw.
        destruct (skip_ws r) as [|c' r']; [discriminate|].
        destruct (code c' =? 125)%nat.
        - intros [= _ <-]. simpl in *. lia.
        - intros H. apply IHm in H. simpl in *. lia. }
      destruct (code c =? 91)%nat.
      { pose proof (skip_ws_length r) as Hw.
        destruct (skip_ws r) as [|c' r']; [discriminate|].
        destruct (code c' =? 93)%nat.
        - intros [= _ <-]. simpl in *. lia.
        - intros H. apply IHe in H. simpl in *. lia. }
      destruct (code c =? 34)%nat.
      { destruct (parse_string_body r) as [[t k]|] eqn:E; [|discriminate].
        intros [= _ <-]. apply parse_string_body_progress in E. simpl. lia. }
      destruct (code c =? 116)%nat.
      { destruct (strip_prefix "true" (String c r)) as [k|] eqn:E; [|discriminate].
        intros [= _ <-]. apply strip_prefix_length in E. simpl in *. lia. }
      destruct (code c =? 102)%nat.
      { destruct (strip_prefix "false" (String c r)) as [k|] eqn:E; [|discriminate].
        intros [= _ <-]. apply strip_prefix_length in E. simpl in *. lia. }
      destruct (code c =? 110)%nat.
      { destruct (strip_prefix "null" (String c r)) as [k|] eqn:E; [|discriminate].
        intros [= _ <-]. apply strip_prefix_length in E. simpl in *. lia. }
      destruct (parse_number (String c r)) as [[x k]|] eqn:E; [|discriminate].
      intros [= _ <-]. now apply parse_number_progress in E.
    + intros s acc v rest. cbn [parse_members].
      destruct s as [|c r]; [discriminate|].
      destruct (code c =? 34)%nat; [|discriminate].
      destruct (parse_string_body r) as [[key k]|] eqn:Ek; [|discriminate].
      apply parse_string_body_progress in Ek.
      pose proof (skip_ws_length k) as Hw1.
      destruct (skip_ws k) as [|colon k']; [discriminate|].
      destruct (code colon =? 58)%nat; [|discriminate].
      pose proof (skip_ws_length k') as Hw2.
      destruct (parse_value fuel (skip_ws k')) as [v0 k2| |] eqn:Ev; try discriminate.
      apply IHv in Ev.
      pose proof (skip_ws_length k2) as Hw3.
      destruct (skip_ws k2) as [|d k3]; [discriminate|].
      pose proof (skip_ws_length k3) as Hw4.
      destruct (code d =? 44)%nat.
      { intros H. apply IHm in H. simpl in *. lia. }
      destruct (code d =? 125)%nat; [|discriminate].
      intros [= _ <-]. simpl in *. lia.
    + intros s acc v rest. cbn [parse_elements].
      destruct (parse_value fuel s) as [v0 k| |] eqn:Ev; try discriminate.
      apply IHv in Ev.
      pose proof (skip_ws_length k) as Hw1.
      destruct (skip_ws k) as [|d k']; [discriminate|].
      pose proof (skip_ws_length k') as Hw2.
      destruct (code d =? 44)%nat.
      { intros H. apply IHe in H. simpl in *. lia. }
      destruct (code d =? 93)%nat; [|discriminate].
      intros [= _ <-]. simpl in *. lia.
Qed.

(** The fuel is enough: a value needs [2n + 2] for [n] characters, the
    members of an object [2n + 1], the elements of an array [2n + 3]. *)
Lemma parse_never_out_of_fuel (fuel : nat) :
  (forall s, 2 * length s + 2 <= fuel -> parse_value fuel s <> OutOfFuel)
  /\ (forall s acc, 2 * length s + 1 <= fuel -> parse_members fuel s acc <> OutOfFuel)
  /\ (forall s acc, 2 * length s + 3 <= fuel -> parse_elements fuel s acc <> OutOfFuel).
Proof.
  induction fuel as [|fuel [IHv [IHm IHe]]].
  - repeat split; intros; lia.
  - split; [|split].
    + intros s Hf. cbn [parse_value].
      destruct s as [|c r]; [discriminate|]. simpl in Hf.
      destruct (code c =? 123)%nat.
      { pose proof (skip_ws_length r) as Hw.
        destruct (skip_ws r) as [|c' r']; [discriminate|].
        destruct (code c' =? 125)%nat; [discriminate|].
        apply IHm. simpl in *. lia. }
      destruct (code c =? 91)%nat.
      { pose proof (skip_ws_length r) as Hw.
        destruct (skip_ws r) as [|c' r']; [discriminate|].
        destruct (code c' =? 93)%nat; [discriminate|].
        apply IHe. simpl in *. lia. }
      destruct (code c =? 34)%nat.
      { destruct (parse_string_body r) as [[t k]|]; discriminate. }
      destruct (code c =? 116)%nat.
      { destruct (strip_prefix "true" (String c r)); discriminate. }
      destruct (code c =? 102)%nat.
      { destruct (strip_prefix "false" (String c r)); discriminate. }
      destruct (code c =? 110)%nat.
      { destruct (strip_prefix "null" (String c r)); discriminate. }
      destruct (parse_number (String c r)) as [[x k]|]; discriminate.
    + intros s acc Hf. cbn [parse_members].
      destruct s as [|c r]; [discriminate|]. simpl in Hf.
      destruct (code c =? 34)%nat; [|discriminate].
      destruct (parse_string_body r) as [[key k]|] eqn:Ek; [|discriminate].
      apply parse_string_body_progress in Ek.
      pose proof (skip_ws_length k) as Hw1.
      destruct (skip_ws k) as [|colon k']; [discriminate|].
      destruct (code colon =? 58)%nat; [|discriminate].
      pose proof (skip_ws_length k') as Hw2.
      assert (Hv : parse_value fuel (skip_ws k') <> OutOfFuel)
        by (apply IHv; simpl in *; lia).
      destruct (parse_value fuel (skip_ws k')) as [v0 k2| |] eqn:Ev;
        [|discriminate|congruence].
      apply (proj1 (parse_progress fuel)) in Ev.
      pose proof (skip_ws_length k2) as Hw3.
      destruct (skip_ws k2) as [|d k3]; [discriminate|].
      pose proof (skip_ws_length k3) as Hw4.
      destruct (code d =? 44)%nat.
      { apply IHm. simpl in *. lia. }
      destruct (code d =? 125)%nat; discriminate.
    + intros s acc Hf. cbn [parse_elements].
      assert (Hv : parse_value fuel s <> OutOfFuel) by (apply IHv; lia).
      destruct (parse_value fuel s) as [v0 k| |] eqn:Ev; [|discriminate|congruence].
      apply (proj1 (parse_progress fuel)) in Ev.
      pose proof (skip_ws_length k) as Hw1.
      destruct (skip_ws k) as [|d k']; [discriminate|].
      pose proof (skip_ws_length k') as Hw2.
      destruct (code d =? 44)%nat.
      { apply IHe. simpl in *. lia. }
      destruct (code d =? 93)%nat; discriminate.
Qed.

(** [JSON_parse] never runs out of fuel: its [None] is a syntax error. *)
Lemma parse_value_never_out_of_fuel (text : string) :
  parse_value (parse_fuel (length text)) (skip_ws text) <> OutOfFuel.
Proof.
  apply (proj1 (parse_never_out_of_fuel _)).
  pose proof (skip_ws_length text). unfold parse_fuel. lia.
Qed.

End JsonParserFacts.

(* ===================================================================== *)
(** * Facts about JSON values and the parsed answer *)
(* ===================================================================== *)

Module JsonFacts.
Import JsString Json Synthesizer Properties.

Lemma lookup_obj_set_same (fields : list (string * json)) (k : string) (v : json) :
  lookup k (obj_set fields k v) = Some v.
Proof.
  induction fields as [|[k' v'] fields IH]; simpl.
  - now rewrite String.eqb_refl.
  - destruct (String.eqb k k') eqn:E; simpl; rewrite E; auto.
Qed.

Lemma lookup_obj_set_other (fields : list (string * json)) (k k' : string) (v : json) :
  k <> k' -> lookup k (obj_set fields k' v) = lookup k fields.
Proof.
  intros Hne. induction fields as [|[k0 v0] fields IH]; simpl.
  - destruct (String.eqb_spec k k'); [congruence|reflexivity].
  - destruct (String.eqb_spec k' k0) as [->|H0]; simpl.
    + destruct (String.eqb_spec k k0); [congruence|reflexivity].
    + destruct (String.eqb_spec k k0); [reflexivity|exact IH].
Qed.

(** The members of an object parse to an object. *)
Lemma parse_members_object (fuel : nat) (s : string) (acc : list (string * json))
  (v : json) (rest : string) :
  parse_members fuel s acc = Parsed v rest -> exists fields, v = JObj fields.
Proof.
  revert s acc; induction fuel as [|fuel IH]; intros s acc; simpl; [discriminate|].
  destruct s as [|c r]; [discriminate|].
  destruct (code c =? 34)%nat; [|discriminate].
  destruct (parse_string_body r) as [[key k]|]; [|discriminate].
  destruct (skip_ws k) as [|colon k']; [discriminate|].
  destruct (code colon =? 58)%nat; [|discriminate].
  destruct (parse_value fuel (skip_ws k')) as [v0 k2| |]; try discriminate.
  destruct (skip_ws k2) as [|d k3]; [discriminate|].
  destruct (code d =? 44)%nat; [apply IH|].
  destruct (code d =? 125)%nat; [|discriminate].
  intros [= <- <-]. eauto.
Qed.

(** A text that starts with an opening brace parses to an object, if it
    parses. *)
Lemma parse_value_brace (fuel : nat) (c : ascii) (r : string) (v : json)
  (rest : string) :
  code c = 123 ->
  parse_value fuel (String c r) = Parsed v rest -> exists fields, v = JObj fields.
Proof.
  intros Hc. destruct fuel as [|fuel]; simpl; [discriminate|].
  rewrite Hc. simpl.
  destruct (skip_ws r) as [|c' r']; [discriminate|].
  destruct (code c' =? 125)%nat.
  - intros [= <- <-]. eauto.
  - apply parse_members_object.
Qed.

Lemma from_first_open_brace (s t : string) :
  from_first_open s = Some t -> exists c r, t = String c r /\ code c = 123.
Proof.
  induction s as [|c r IH]; simpl; [discriminate|].
  destruct (Nat.eqb_spec (code c) 123) as [E|E]; [|exact IH].
  intros [= <-]. eauto.
Qed.

Lemma upto_last_close_head (c : ascii) (r p : string) :
  upto_last_close (String c r) = Some p -> exists r', p = String c r'.
Proof.
  simpl. destruct (upto_last_close r) as [p'|].
  - intros [= <-]. eauto.
  - destruct (code c =? 125)%nat; [|discriminate]. intros [= <-]. eauto.
Qed.

(** Whatever [parse_llm] returns is an object: the matched block starts
    with a brace. *)
Lemma parse_llm_object (llmText : string) (parsed : json) :
  parse_llm llmText = Some parsed -> exists fields, parsed = JObj fields.
Proof.
  unfold parse_llm, match_json_block.
  destruct (from_first_open llmText) as [t|] eqn:Ht; [|discriminate].
  destruct (from_first_open_brace _ _ Ht) as [c [r [-> Hc]]].
  destruct (upto_last_close (String c r)) as [block|] eqn:Hb; [|discriminate].
  destruct (upto_last_close_head _ _ _ Hb) as [r' ->].
  unfold JSON_parse.
  assert (Hws : skip_ws (String c r') = String c r').
  { simpl. unfold is_json_ws. rewrite Hc. reflexivity. }
  rewrite Hws.
  destruct (parse_value _ (String c r')) as [v rest| |] eqn:Hv; try discriminate.
  destruct (skip_ws rest); [|discriminate].
  intros [= <-]. exact (parse_value_brace _ _ _ _ _ Hc Hv).
Qed.

(** [mapi_result] keeps the length and maps position by position. *)
Lemma mapi_result_from_spec {A B : Type} (f : nat -> A -> Result B) (l : list A)
  (i : nat) (out : list B) :
  mapi_result_from i f l = Ok out ->
  List.length out = List.length l
  /\ forall n x y, nth_error l n = Some x -> nth_error out n = Some y ->
                   f (i + n) x = Ok y.
Proof.
  revert i out; induction l as [|x l IH]; intros i out; simpl.
  - intros [= <-]. split; [reflexivity|]. intros [|n] ? ?; discriminate.
  - destruct (f i x) as [y|e|] eqn:Ey; simpl; try discriminate.
    destruct (mapi_result_from (S i) f l) as [ys|e|] eqn:Eys; simpl; try discriminate.
    intros [= <-]. destruct (IH _ _ Eys) as [Hlen Hnth].
    split; [simpl; congruence|].
    intros [|n] x' y'; simpl.
    + intros [= <-] [= <-]. now rewrite Nat.add_0_r.
    + intros Hx Hy. rewrite <- (Hnth n x' y' Hx Hy). f_equal. lia.
Qed.

(** The result of the synthesizer, path by path. *)
Lemma synthesize_cases (top : list ScoredChunk) (llmText : string) (r : json) :
  synthesize top llmText = Ok r ->
  (parse_llm llmText = None /\ r = fallback top llmText)
  \/ (exists fields,
        parse_llm llmText = Some (JObj fields)
        /\ ((exists entries repaired,
               lookup "justification" fields = Some (JArr entries)
               /\ mapi_result (repair_entry top) entries = Ok repaired
               /\ r = JObj (obj_set fields "justification" (JArr repaired)))
            \/ ((forall entries, lookup "justification" fields <> Some (JArr entries))
                /\ r = JObj (obj_set fields "justification" (justification_of_top top))))).
Proof.
  unfold synthesize.
  destruct (parse_llm llmText) as [parsed|] eqn:Hp.
  - destruct (parse_llm_object _ _ Hp) as [fields ->]. simpl.
    intros H. right. exists fields. split; [reflexivity|].
    unfold repair in H. simpl in H.
    destruct (lookup "justification" fields) as [[|b|x|s|entries|fs]|] eqn:Hj;
      simpl in H;
      try (right; split; [intros ? ?; discriminate|]; now injection H as <-).
    left. destruct (mapi_result (repair_entry top) entries) as [repaired|e|] eqn:Hr;
      simpl in H; try discriminate.
    injection H as <-. eauto.
  - intros [= <-]. now left.
Qed.

End JsonFacts.

(* ===================================================================== *)
(** * The decision: what the result holds *)
(* ===================================================================== *)

Module DecisionClaims.
Import JsString Json Handler Properties Fixtures HandlerFacts JsonFacts.

(** ** The decision field *)

(** The heuristic only answers [approved], [rejected] or [maybe]. *)
Lemma heuristic_decision_values (joined : string) :
  In (JStr (heuristic_decision joined))
     [JStr "approved"; JStr "rejected"; JStr "maybe"].
Proof.
  unfold heuristic_decision.
  destruct (foundReject joined), (foundApprove joined); simpl; auto.
Qed.

(** The decision of a result: the heuristic's on the fallback path, and on
    the parsed path the field of the parsed object, untouched. *)
Lemma synthesize_decision (top : list ScoredChunk) (llmText : string) (r : json) :
  synthesize top llmText = Ok r ->
  match parse_llm llmText with
  | None =>
      exists d, field "decision" r = Some d
                /\ In d [JStr "approved"; JStr "rejected"; JStr "maybe"]
  | Some parsed => field "decision" r = field "decision" parsed
  end.
Proof.
  intros H. destruct (synthesize_cases _ _ _ H) as [[-> ->]|[fields [-> Hr]]].
  - eexists. split; [reflexivity|apply heuristic_decision_values].
  - simpl. destruct Hr as [[entries [repaired [_ [_ ->]]]]|[_ ->]]; simpl;
      apply lookup_obj_set_other; discriminate.
Qed.

(** C8, as the code has it.  In a 200 response, the decision is one of
    [approved], [rejected], [maybe] when the model's text holds no parsable
    object (the heuristic path); otherwise it is the [decision] field of the
    parsed object, passed through without any check against the
    enumeration. *)
Theorem decision_is_heuristic_or_passed_through (P : Providers) (body : Body)
  (env : Envelope) (log : list Call) :
  hackrx_run P body = (Some (Status200 env), log) ->
  exists q top completion,
    query body = Some q
    /\ chat_completions_create P (prompt P q top) = Replied completion
    /\ match parse_llm (llmText_of completion) with
       | None =>
           exists d, field "decision" (results env) = Some d
                     /\ In d [JStr "approved"; JStr "rejected"; JStr "maybe"]
       | Some parsed =>
           field "decision" (results env) = field "decision" parsed
       end.
Proof.
  intros H.
  destruct (hackrx_run_200 _ _ _ _ H)
    as [d [q [chunks [top [log1 [completion [_ [Hq [_ [_ [Hc [Hs _]]]]]]]]]]]].
  exists q, top, completion. repeat split; auto.
  exact (synthesize_decision top _ _ Hs).
Qed.

Lemma decision_is_heuristic_or_passed_through_witness :
  exists env log q top completion,
    covered_run = (Some (Status200 env), log)
    /\ query one_document = Some q
    /\ chat_completions_create (stub "Knee surgery is covered." "I cannot answer.")
         (prompt (stub "Knee surgery is covered." "I cannot answer.") q top)
       = Replied completion.
Proof.
  eexists. eexists.
  destruct (decision_is_heuristic_or_passed_through
              (stub "Knee surgery is covered." "I cannot answer.") one_document
              _ _ ltac:(vm_compute; reflexivity))
    as [q [top [completion [Hq [Hc _]]]]].
  exists q, top, completion. split; [reflexivity|]. split; assumption.
Defined.

(** C8 fails as stated: the model answers an object whose decision is
    ["banana"], and the 200 response carries that decision, which is none of
    the four values. *)
Lemma decision_outside_enum_counterexample :
  exists env log,
    hackrx_run (stub "Knee surgery is covered." banana_reply) one_document
    = (Some (Status200 env), log)
    /\ field "decision" (results env) = Some (JStr "banana")
    /\ ~ In (JStr "banana") decision_values.
Proof.
  eexists. eexists. split; [vm_compute; reflexivity|].
  split; [reflexivity|].
  simpl. intros [H|[H|[H|[H|[]]]]]; discriminate.
Qed.

End DecisionClaims.

(* ===================================================================== *)
(** * The justification entries *)
(* ===================================================================== *)

Module JustificationClaims.
Import JsString Json Handler Properties Fixtures HandlerFacts JsonFacts.

(** The entries built from the top chunks are backfilled entries of an
    answer that supplied nothing. *)
Lemma entry_of_top_fields (t : ScoredChunk) :
  field "source" (entry_of_top t) = Some (JStr (source (chunk t)))
  /\ field "chunk_index" (entry_of_top t)
     = Some (JNum (float_of_nat (chunk_index (chunk t))))
  /\ field "similarity" (entry_of_top t) = Some (JNum (score t)).
Proof.
  repeat split.
Qed.

Lemma or_else_source (x : option json) (s : string) :
  or_else (or_opt x (Some (JStr s))) (JStr EmptyString)
  = if is_falsy x then JStr s else x ?? JNull.
Proof.
  destruct x as [v|]; simpl.
  - destruct (truthy v) eqn:E; simpl; [now rewrite E|].
    destruct s; reflexivity.
  - destruct s; reflexivity.
Qed.

Lemma or_else_no_source (x : option json) :
  or_else (or_opt x None) (JStr EmptyString)
  = if is_falsy x then JStr EmptyString else x ?? JNull.
Proof.
  destruct x as [v|]; simpl; auto.
  destruct (truthy v) eqn:E; simpl; [now rewrite E|reflexivity].
Qed.

Lemma nullish_else_paired (x y : option json) :
  nullish_else (nullish_opt x y) JNull
  = if is_nullish x then y ?? JNull else x ?? JNull.
Proof.
  destruct x as [[| | | | |]|], y as [[| | | | |]|]; reflexivity.
Qed.

(** The fields of an entry, read back. *)
Lemma entry_fields (a b c d : json) :
  let entry := JObj [ ("clause", a); ("source", b); ("chunk_index", c);
                      ("similarity", d) ] in
  field "source" entry = Some b
  /\ field "chunk_index" entry = Some c
  /\ field "similarity" entry = Some d.
Proof.
  repeat split.
Qed.

(** What [repair_entry] returns, on an entry that is not [null]. *)
Lemma repair_entry_ok (top : list ScoredChunk) (i : nat) (j out : json) :
  repair_entry top i j = Ok out ->
  let of_top (f : ScoredChunk -> json) := option_map f (nth_error top i) in
  out = JObj
          [ ("clause",
             or_else
               (or_opt (field "clause" j)
                  (of_top (fun t => JStr (slice (text (chunk t)) 0 300))))
               (JStr EmptyString));
            ("source",
             or_else
               (or_opt (field "source" j) (of_top (fun t => JStr (source (chunk t)))))
               (JStr EmptyString));
            ("chunk_index",
             nullish_else
               (nullish_opt (field "chunk_index" j)
                  (of_top (fun t => JNum (float_of_nat (chunk_index (chunk t))))))
               JNull);
            ("similarity",
             nullish_else
               (nullish_opt (field "similarity" j) (of_top (fun t => JNum (score t))))
               JNull) ].
Proof.
  unfold repair_entry.
  destruct j as [|b|x|s|items|fields]; cbn [get_prop rbind field];
    try discriminate; now intros [= <-].
Qed.

(** An entry that is repaired is backfilled. *)
Lemma repair_entry_backfilled (top : list ScoredChunk) (i : nat) (j out : json) :
  repair_entry top i j = Ok out -> backfilled top i j out.
Proof.
  intros H. rewrite (repair_entry_ok _ _ _ _ H).
  unfold backfilled, paired_source, paired_chunk_index, paired_similarity.
  match goal with
  | |- context [JObj [ ("clause", ?a); ("source", ?b); ("chunk_index", ?c);
                       ("similarity", ?d) ]] =>
      destruct (entry_fields a b c d) as [-> [-> ->]]
  end.
  rewrite !nullish_else_paired.
  destruct (nth_error top i) as [t|]; cbn [option_map nullish_or];
    rewrite ?or_else_source, ?or_else_no_source; repeat split.
Qed.




End JustificationClaims.

(* ===================================================================== *)
(** * The simplified handlers *)
(* ===================================================================== *)

Module SimpleClaims.
Import Json Pipeline Simple.

(** C10.  In both simplified handlers, a completion whose content is not
    valid JSON makes [JSON.parse] throw; the [catch] branch answers with the
    error ([status 500] in [pages/api/webhook.js], the default status of
    [NextResponse.json] in the route file), and no decision is computed.
    The main pipeline, on a text it cannot parse, answers with the fallback
    object instead. *)
Theorem invalid_json_is_an_error (P : Providers) (query : option string)
  (reply : string) :
  chat_completions_create P [ {| role := "user"; content := simple_prompt query |} ]
  = Replied (Some reply) ->
  JSON_parse reply = None ->
  POST P (Replied query) = {| status := 200; body := BodyError SyntaxError |}
  /\ handler P "POST" (Some query) = {| status := 500; body := BodyError SyntaxError |}
  /\ (Synthesizer.parse_llm reply = None ->
      forall top, Synthesizer.synthesize top reply
                  = Ok (Synthesizer.fallback top reply)).
Proof.
  intros Hc Hp. unfold POST, handler, decide. rewrite Hc, Hp. simpl.
  repeat split.
  intros Hl top. unfold Synthesizer.synthesize. now rewrite Hl.
Qed.

Lemma invalid_json_is_an_error_witness :
  handler (Fixtures.stub "" "The claim is approved.") "POST" (Some (Some "knee surgery"))
  = {| status := 500; body := BodyError SyntaxError |}.
Proof.
  exact (proj1 (proj2 (invalid_json_is_an_error
                         (Fixtures.stub "" "The claim is approved.")
                         (Some "knee surgery") "The claim is approved."
                         eq_refl eq_refl))).
Defined.

(** A completion that is valid JSON is answered as it is, whatever it
    holds. *)
Example valid_json_is_answered :
  handler (Fixtures.stub "" Fixtures.banana_reply) "POST" (Some (Some "knee surgery"))
  = {| status := 200; body := BodyJson (JObj [("decision", JStr "banana")]) |}.
Proof. reflexivity. Qed.

Example other_methods_are_refused :
  status (handler (Fixtures.stub "" "") "GET" None) = 405.
Proof. reflexivity. Qed.

End SimpleClaims.

(* ===================================================================== *)
(** * Facts about binary64 numbers: order and the sign of a difference *)
(* ===================================================================== *)

(** The ranking compares two scores by the sign of their difference.  On
    numbers that are not NaN, that sign agrees with the order: the facts
    below derive it from the specification of the primitive operations
    ([SpecFloat], [FloatAxioms]). *)

Module FloatFacts.
Import FloatKey.
#[local] Open Scope Z_scope.

(** A number of binary digits is what [digits2_pos] says. *)
Lemma digits2_pos_bounds (p : positive) :
  2 ^ (Zpos (digits2_pos p) - 1) <= Zpos p < 2 ^ Zpos (digits2_pos p).
Proof.
  induction p as [p IH|p IH|]; cbn [digits2_pos].
  - rewrite Pos2Z.inj_succ.
    replace (Z.succ (Zpos (digits2_pos p)) - 1) with (Z.succ (Zpos (digits2_pos p) - 1))
      by lia.
    rewrite !Z.pow_succ_r by lia. lia.
  - rewrite Pos2Z.inj_succ.
    replace (Z.succ (Zpos (digits2_pos p)) - 1) with (Z.succ (Zpos (digits2_pos p) - 1))
      by lia.
    rewrite !Z.pow_succ_r by lia. lia.
  - simpl. lia.
Qed.

(** One step of [shr_1] halves the mantissa. *)
Lemma shr_1_bounds (mrs : shr_record) :
  0 <= shr_m mrs ->
  0 <= shr_m (shr_1 mrs) /\ shr_m mrs < 2 * (shr_m (shr_1 mrs) + 1).
Proof.
  destruct mrs as [m r s]. simpl.
  destruct m as [|[p|p|]|p]; simpl; lia.
Qed.

Lemma iter_shr_1_bounds (n : positive) (mrs : shr_record) :
  0 <= shr_m mrs ->
  0 <= shr_m (iter_pos shr_1 n mrs)
  /\ shr_m mrs < 2 ^ Zpos n * (shr_m (iter_pos shr_1 n mrs) + 1).
Proof.
  revert mrs; induction n as [n IH|n IH|]; intros mrs H; cbn [iter_pos].
  - destruct (shr_1_bounds mrs H) as [H0 H1].
    destruct (IH _ H0) as [H2 H3].
    destruct (IH _ H2) as [H4 H5].
    split; [exact H4|].
    replace (Z.pos n~1) with (Z.pos n + Z.pos n + 1) by lia.
    rewrite !Z.pow_add_r, Z.pow_1_r by lia.
    set (a := shr_m (shr_1 mrs)) in *.
    set (b := shr_m (iter_pos shr_1 n (shr_1 mrs))) in *.
    set (c := shr_m (iter_pos shr_1 n (iter_pos shr_1 n (shr_1 mrs)))) in *.
    assert (HP : 0 < 2 ^ Zpos n) by (apply Z.pow_pos_nonneg; lia).
    set (P := 2 ^ Z.pos n) in *. nia.
  - destruct (IH _ H) as [H2 H3].
    destruct (IH _ H2) as [H4 H5].
    split; [exact H4|].
    replace (Z.pos n~0) with (Z.pos n + Z.pos n) by lia.
    rewrite !Z.pow_add_r by lia.
    assert (HP : 0 < 2 ^ Zpos n) by (apply Z.pow_pos_nonneg; lia).
    set (P := 2 ^ Z.pos n) in *. nia.
  - apply shr_1_bounds; exact H.
Qed.

Lemma shr_m_of_loc (m : Z) (l : location) : shr_m (shr_record_of_loc m l) = m.
Proof.
  destruct l as [|[]]; reflexivity.
Qed.

(** Rounding a positive mantissa whose exponent is at least [emin] leaves a
    positive mantissa: nothing underflows to zero. *)
Lemma shr_fexp_positive (m e : Z) (l : location) :
  0 < m -> -1074 <= e ->
  0 < shr_m (fst (shr_fexp prec emax m e l))
  /\ -1074 <= snd (shr_fexp prec emax m e l).
Proof.
  intros Hm He. unfold shr_fexp, shr.
  destruct m as [|p|p]; try lia. cbn [Zdigits2].
  pose proof (digits2_pos_bounds p) as [Hlo Hhi].
  set (d := Zpos (digits2_pos p)) in *.
  unfold fexp, SpecFloat.emin, prec, emax.
  destruct (Z.max (d + e - 53) (3 - 1024 - 53) - e) as [|n|n] eqn:En; cbn [fst snd].
  - rewrite shr_m_of_loc. lia.
  - destruct (iter_shr_1_bounds n (shr_record_of_loc (Zpos p) l)) as [H0 H1].
    { rewrite shr_m_of_loc. lia. }
    rewrite shr_m_of_loc in H1.
    assert (Hn : Zpos n = d - 53) by lia.
    replace (d - 1) with (Zpos n + 52) in Hlo by lia.
    rewrite Z.pow_add_r in Hlo by lia.
    assert (HP : 0 < 2 ^ Zpos n) by (apply Z.pow_pos_nonneg; lia).
    assert (H52 : 0 < 2 ^ 52) by reflexivity.
    split; [nia|lia].
  - rewrite shr_m_of_loc. lia.
Qed.

Lemma SFltb_zero (x : spec_float) :
  SFltb x (S754_zero false) = is_negative x.
Proof.
  destruct x as [s|s| |s m e]; try destruct s; reflexivity.
Qed.

Lemma binary_round_aux_sign (sx : bool) (m e : Z) (l : location) :
  0 < m -> -1074 <= e ->
  is_negative (binary_round_aux prec emax sx m e l) = sx.
Proof.
  intros Hm He. unfold binary_round_aux.
  pose proof (shr_fexp_positive m e l Hm He) as [Hp He'].
  destruct (shr_fexp prec emax m e l) as [mrs' e']. cbn [fst snd] in Hp, He'.
  set (m1 := round_nearest_even (shr_m mrs') (loc_of_shr_record mrs')).
  assert (Hm1 : 0 < m1).
  { subst m1. unfold round_nearest_even.
    destruct (loc_of_shr_record mrs') as [|[]]; try destruct (Z.even _); lia. }
  pose proof (shr_fexp_positive m1 e' loc_Exact Hm1 He') as [Hp2 _].
  destruct (shr_fexp prec emax m1 e' loc_Exact) as [mrs'' e'']. cbn [fst] in Hp2.
  destruct (shr_m mrs''); try lia.
  destruct (Z.leb e'' (emax - prec)), sx; reflexivity.
Qed.

Lemma binary_round_sign (sx : bool) (mx : positive) (ex : Z) :
  -1074 <= ex ->
  is_negative (binary_round prec emax sx mx ex) = sx.
Proof.
  intros He. unfold binary_round.
  destruct (shl_align mx ex (fexp prec emax (Zpos (digits2_pos mx) + ex)))
    as [mz ez] eqn:E.
  apply binary_round_aux_sign; [lia|].
  unfold shl_align in E.
  assert (Hf : -1074 <= fexp prec emax (Zpos (digits2_pos mx) + ex)).
  { unfold fexp, SpecFloat.emin, prec, emax. lia. }
  destruct (fexp prec emax (Zpos (digits2_pos mx) + ex) - ex);
    injection E as <- <-; first [exact He|exact Hf].
Qed.

(** The sign of a normalized integer is the integer's. *)
Lemma binary_normalize_sign (d e : Z) :
  -1074 <= e ->
  is_negative (binary_normalize prec emax d e false) = (d <? 0).
Proof.
  intros He. destruct d as [|p|p]; simpl; auto using binary_round_sign.
Qed.

Lemma pos_iter_xO (m d : positive) :
  Zpos (Pos.iter xO m d) = Zpos m * 2 ^ Zpos d.
Proof.
  induction d as [|d IH] using Pos.peano_ind.
  - simpl. lia.
  - rewrite Pos.iter_succ, Pos2Z.inj_succ, Z.pow_succ_r by lia.
    change (Zpos (Pos.iter xO m d)~0) with (2 * Zpos (Pos.iter xO m d)).
    rewrite IH. lia.
Qed.

Lemma shl_align_value (mx : positive) (ex ez : Z) :
  ez <= ex -> Zpos (fst (shl_align mx ex ez)) = Zpos mx * 2 ^ (ex - ez).
Proof.
  intros H. unfold shl_align.
  destruct (ez - ex) as [|p|p] eqn:E; cbn [fst].
  - replace (ex - ez) with 0 by lia. lia.
  - lia.
  - rewrite pos_iter_xO. f_equal. f_equal. lia.
Qed.

(** What validity says of a finite float. *)
Lemma valid_finite (s : bool) (m : positive) (e : Z) :
  SpecFloat.valid_binary prec emax (S754_finite s m e) = true ->
  -1074 <= e <= 971 /\ Zpos m < 2 ^ 53 /\ (-1074 < e -> 2 ^ 52 <= Zpos m).
Proof.
  unfold SpecFloat.valid_binary, bounded, canonical_mantissa, fexp, SpecFloat.emin, prec, emax.
  intros H. apply andb_prop in H. destruct H as [H1 H2].
  apply Z.eqb_eq in H1. apply Z.leb_le in H2.
  pose proof (digits2_pos_bounds m) as [Hlo Hhi].
  set (d := Zpos (digits2_pos m)) in *.
  assert (Hd : d <= 53) by lia.
  assert (Hpow : 2 ^ d <= 2 ^ 53) by (apply Z.pow_le_mono_r; lia).
  split; [lia|]. split; [lia|].
  intros He. assert (d = 53) by lia. subst d.
  replace (Zpos (digits2_pos m) - 1) with 52 in Hlo by lia. exact Hlo.
Qed.

Lemma SFcompare_key (x y : spec_float) :
  SpecFloat.valid_binary prec emax x = true -> SpecFloat.valid_binary prec emax y = true ->
  x <> S754_nan -> y <> S754_nan ->
  SFcompare x y = Some (key x ?= key y).
Proof.
  intros Vx Vy Nx Ny.
  assert (H53 : 2 ^ 53 = 9007199254740992) by reflexivity.
  assert (H70 : 2 ^ 70 = 1180591620717411303424) by reflexivity.
  destruct x as [sx|sx| |sx mx ex]; try congruence;
    destruct y as [sy|sy| |sy my ey]; try congruence;
    try (apply valid_finite in Vx; destruct Vx as [Vx1 [Vx2 _]]);
    try (apply valid_finite in Vy; destruct Vy as [Vy1 [Vy2 _]]);
    unfold SFcompare, key; rewrite ?H53, ?H70 in *;
    try destruct sx; try destruct sy;
    try (destruct (Z.compare_spec ex ey));
    try (change (Pos.compare_cont Eq mx my) with (Pos.compare mx my);
         destruct (Pos.compare_spec mx my));
    cbn [CompOpp];
    f_equal; symmetry;
    first [apply Z.compare_eq_iff; lia | apply Z.compare_lt_iff; lia
          | apply Z.compare_gt_iff; lia].
Qed.

(** The difference of two floats is below zero exactly when the first is
    below the second. *)
Lemma SFsub_is_negative (x y : spec_float) :
  SpecFloat.valid_binary prec emax x = true ->
  SpecFloat.valid_binary prec emax y = true ->
  x <> S754_nan -> y <> S754_nan ->
  is_negative (SFsub prec emax x y) = (key x <? key y).
Proof.
  intros Vx Vy Nx Ny.
  assert (H52 : 2 ^ 52 = 4503599627370496) by reflexivity.
  assert (H53 : 2 ^ 53 = 9007199254740992) by reflexivity.
  assert (H70 : 2 ^ 70 = 1180591620717411303424) by reflexivity.
  destruct x as [sx|sx| |sx mx ex]; try congruence;
    destruct y as [sy|sy| |sy my ey]; try congruence;
    try (apply valid_finite in Vx; destruct Vx as [Vx1 [Vx2 Vx3]]);
    try (apply valid_finite in Vy; destruct Vy as [Vy1 [Vy2 Vy3]]).
  all: try (unfold SFsub, key, is_negative; rewrite ?H53, ?H70 in *;
            try destruct sx; try destruct sy; cbn [negb];
            match goal with
            | |- _ = (?a <? ?b) =>
                destruct (Z.ltb_spec a b); first [reflexivity|exfalso; lia]
            end).
  unfold SFsub. rewrite binary_normalize_sign by lia.
  rewrite !shl_align_value by lia.
  unfold key. rewrite H52, H53 in *.
  destruct (Z.lt_trichotomy ex ey) as [Hlt|[Heq|Hgt]].
  - replace (Z.min ex ey) with ex by lia.
    replace (ex - ex) with 0 by lia. rewrite Z.pow_0_r, Z.mul_1_r.
    assert (Ht : 2 ^ 1 <= 2 ^ (ey - ex)) by (apply Z.pow_le_mono_r; lia).
    rewrite Z.pow_1_r in Ht. set (t := 2 ^ (ey - ex)) in *.
    assert (Hmy : 4503599627370496 <= Zpos my) by (apply Vy3; lia).
    destruct sx, sy; unfold cond_Zopp;
      match goal with
      | |- (?a <? ?b) = (?c <? ?d) =>
          destruct (Z.ltb_spec a b), (Z.ltb_spec c d);
          first [reflexivity|exfalso; nia]
      end.
  - subst ey. rewrite Z.min_id.
    replace (ex - ex) with 0 by lia. rewrite Z.pow_0_r, !Z.mul_1_r.
    destruct sx, sy; unfold cond_Zopp;
      match goal with
      | |- (?a <? ?b) = (?c <? ?d) =>
          destruct (Z.ltb_spec a b), (Z.ltb_spec c d);
          first [reflexivity|exfalso; lia]
      end.
  - replace (Z.min ex ey) with ey by lia.
    replace (ey - ey) with 0 by lia. rewrite Z.pow_0_r, Z.mul_1_r.
    assert (Ht : 2 ^ 1 <= 2 ^ (ex - ey)) by (apply Z.pow_le_mono_r; lia).
    rewrite Z.pow_1_r in Ht. set (t := 2 ^ (ex - ey)) in *.
    assert (Hmx : 4503599627370496 <= Zpos mx) by (apply Vx3; lia).
    destruct sx, sy; unfold cond_Zopp;
      match goal with
      | |- (?a <? ?b) = (?c <? ?d) =>
          destruct (Z.ltb_spec a b), (Z.ltb_spec c d);
          first [reflexivity|exfalso; nia]
      end.
Qed.

(** ** Primitive floats *)

Lemma Prim2SF_not_nan (x : float) :
  is_nan x = false -> Prim2SF x <> S754_nan.
Proof.
  unfold Prim2SF. intros ->.
  destruct (is_zero x); [discriminate|].
  destruct (is_infinity x); [discriminate|].
  destruct (Z.frexp x) as [r e].
  destruct (shr_fexp _ _ _ _ _) as [mrs e'].
  destruct (shr_m mrs); discriminate.
Qed.

Lemma ltb_key (x y : float) :
  is_nan x = false -> is_nan y = false ->
  (x <? y)%float = (fkey x <? fkey y).
Proof.
  intros Hx Hy. rewrite ltb_spec. unfold SFltb, fkey.
  rewrite SFcompare_key by auto using Prim2SF_valid, Prim2SF_not_nan.
  reflexivity.
Qed.

Lemma leb_key (x y : float) :
  is_nan x = false -> is_nan y = false ->
  (x <=? y)%float = (fkey x <=? fkey y).
Proof.
  intros Hx Hy. rewrite leb_spec. unfold SFleb, fkey.
  rewrite SFcompare_key by auto using Prim2SF_valid, Prim2SF_not_nan.
  unfold Z.leb. now destruct (key (Prim2SF x) ?= key (Prim2SF y)).
Qed.

Lemma eqb_key (x y : float) :
  is_nan x = false -> is_nan y = false ->
  (x =? y)%float = (fkey x =? fkey y).
Proof.
  intros Hx Hy. rewrite eqb_spec. unfold SFeqb, fkey.
  rewrite SFcompare_key by auto using Prim2SF_valid, Prim2SF_not_nan.
  destruct (Z.compare_spec (key (Prim2SF x)) (key (Prim2SF y)));
    destruct (Z.eqb_spec (key (Prim2SF x)) (key (Prim2SF y)));
    first [reflexivity|lia].
Qed.

(** The comparator of the ranking: a difference is negative exactly when
    its first operand is the smaller one. *)
Lemma sub_ltb_zero (x y : float) :
  is_nan x = false -> is_nan y = false ->
  (x - y <? 0)%float = (fkey x <? fkey y).
Proof.
  intros Hx Hy. rewrite ltb_spec, sub_spec.
  change (Prim2SF 0%float) with (S754_zero false).
  rewrite SFltb_zero. unfold SF64sub.
  apply SFsub_is_negative; auto using Prim2SF_valid, Prim2SF_not_nan.
Qed.

End FloatFacts.

(* ===================================================================== *)
(** * A short vector counts as extended with zeros *)
(* ===================================================================== *)

Module PaddingFacts.
Import Vector Padding FloatKey FloatFacts VectorClaims.
#[local] Open Scope Z_scope.

(** Rounding a positive mantissa whose exponent is at least [emin] never
    gives a zero. *)
Lemma binary_round_aux_not_zero (sx s : bool) (m e : Z) (l : location) :
  0 < m -> -1074 <= e ->
  binary_round_aux prec emax sx m e l <> S754_zero s.
Proof.
  intros Hm He. unfold binary_round_aux.
  pose proof (shr_fexp_positive m e l Hm He) as [Hp He'].
  destruct (shr_fexp prec emax m e l) as [mrs' e']. cbn [fst snd] in Hp, He'.
  set (m1 := round_nearest_even (shr_m mrs') (loc_of_shr_record mrs')).
  assert (Hm1 : 0 < m1).
  { subst m1. unfold round_nearest_even.
    destruct (loc_of_shr_record mrs') as [|[]]; try destruct (Z.even _); lia. }
  pose proof (shr_fexp_positive m1 e' loc_Exact Hm1 He') as [Hp2 _].
  destruct (shr_fexp prec emax m1 e' loc_Exact) as [mrs'' e'']. cbn [fst] in Hp2.
  destruct (shr_m mrs''); try lia.
  destruct (Z.leb e'' (emax - prec)); discriminate.
Qed.

(** So does rounding a mantissa of either sign: no minus zero. *)
Lemma binary_round_not_minus_zero (sx : bool) (mx : positive) (ex : Z) :
  -1074 <= ex ->
  binary_round prec emax sx mx ex <> S754_zero true.
Proof.
  intros He. unfold binary_round.
  destruct (shl_align mx ex (fexp prec emax (Zpos (digits2_pos mx) + ex)))
    as [mz ez] eqn:E.
  apply binary_round_aux_not_zero; [lia|].
  unfold shl_align in E.
  assert (Hf : -1074 <= fexp prec emax (Zpos (digits2_pos mx) + ex)).
  { unfold fexp, SpecFloat.emin, prec, emax. lia. }
  destruct (fexp prec emax (Zpos (digits2_pos mx) + ex) - ex);
    injection E as <- <-; first [exact He|exact Hf].
Qed.

(** A sum is minus zero only if its first operand is. *)
Lemma SFadd_not_minus_zero (x y : spec_float) :
  SpecFloat.valid_binary prec emax x = true ->
  SpecFloat.valid_binary prec emax y = true ->
  x <> S754_zero true ->
  SFadd prec emax x y <> S754_zero true.
Proof.
  intros Vx Vy Hx.
  destruct x as [sx|sx| |sx mx ex]; destruct y as [sy|sy| |sy my ey];
    cbn [SFadd]; try discriminate; try exact Hx;
    try (destruct sx, sy; cbn [Bool.eqb]; first [discriminate|congruence]).
  apply valid_finite in Vx. apply valid_finite in Vy.
  unfold binary_normalize.
  destruct (_ + _)%Z; try discriminate;
    apply binary_round_not_minus_zero; lia.
Qed.

(** Adding zero changes nothing but minus zero. *)
Lemma SFadd_zero_r (x : spec_float) :
  x <> S754_zero true -> SFadd prec emax x (S754_zero false) = x.
Proof.
  destruct x as [[|]|sx| |sx mx ex]; cbn [SFadd]; try reflexivity.
  intros H. congruence.
Qed.

#[local] Open Scope float_scope.

(** ** The running sums of [cosine] *)

(** The same on primitive floats. *)
Lemma add_not_minus_zero (s x : float) :
  not_minus_zero s -> not_minus_zero (s + x).
Proof.
  unfold not_minus_zero. intros H. rewrite add_spec.
  apply SFadd_not_minus_zero; auto using Prim2SF_valid.
Qed.

Lemma add_zero_r (s : float) : not_minus_zero s -> s + 0 * 0 = s.
Proof.
  intros H. apply Prim2SF_inj. rewrite add_spec.
  change (Prim2SF (0 * 0)) with (S754_zero false).
  now apply SFadd_zero_r.
Qed.

(** Squares of zeros add nothing to a sum of squares. *)
Lemma sum_of_squares_zeros (n : nat) (s : float) :
  not_minus_zero s ->
  fold_left (fun s v => s + v * v) (repeat 0 n) s = s.
Proof.
  intros H. induction n as [|n IH]; [reflexivity|].
  cbn [repeat fold_left]. now rewrite add_zero_r.
Qed.

(** A sum of squares started from zero is never minus zero. *)
Lemma sum_of_squares_not_minus_zero (b : vector) (s : float) :
  not_minus_zero s ->
  not_minus_zero (fold_left (fun s v => s + v * v) b s).
Proof.
  revert s; induction b as [|v b IH]; intros s H; [exact H|].
  cbn [fold_left]. apply IH. now apply add_not_minus_zero.
Qed.

(** The magnitude of a vector extended with zeros is the vector's. *)
Lemma magnitude_pad_to (a b : vector) : magnitude (pad_to a b) = magnitude b.
Proof.
  unfold magnitude, pad_to. rewrite fold_left_app.
  rewrite sum_of_squares_zeros; [reflexivity|].
  apply sum_of_squares_not_minus_zero. discriminate.
Qed.

(** [cosine] in terms of the magnitudes and of its own [dot]. *)
Lemma cosine_magnitudes (a b : vector) :
  cosine a b
  = if (magnitude a =? 0) || (magnitude b =? 0)
    then 0
    else cosine_dot a b / (magnitude a * magnitude b).
Proof.
  unfold cosine, magnitude, reduce.
  now rewrite !(reduce_from_fold (fun s v => s + v * v)).
Qed.

(** The [dot] of [cosine] is the plain dot product with the extended
    vector. *)
Lemma cosine_dot_pad_to (a b : vector) :
  cosine_dot a b = plain_dot a (pad_to a b).
Proof. apply cosine_dot_is_dot_product. Qed.

End PaddingFacts.

Module PaddingClaims.
Import Vector Padding PaddingFacts VectorClaims.
#[local] Open Scope float_scope.

(** C9.  [cosine] is a total function of two lists of any lengths, and it
    reads an entry the second vector lacks as [0]: its value on [a] and [b]
    is its value on [a] and [b] extended with zeros to the length of [a],
    which is the plain dot product of the two divided by the product of
    their magnitudes ([0] when a magnitude is zero).  The scoring step of
    the pipeline therefore yields this score, and no exception, for an
    embedding of any length. *)
Theorem cosine_pads_short_vector (a b : vector) :
  cosine a b = cosine a (pad_to a b)
  /\ cosine a b
     = (if (magnitude a =? 0) || (magnitude (pad_to a b) =? 0)
        then 0
        else plain_dot a (pad_to a b) / (magnitude a * magnitude (pad_to a b)))
  /\ (forall c, Pipeline.embedding c = Some b ->
        Pipeline.score_chunks a [c]
        = Ok [ {| Pipeline.chunk := c; Pipeline.score := cosine a b |} ]).
Proof.
  assert (H : cosine a b
              = if (magnitude a =? 0) || (magnitude (pad_to a b) =? 0)
                then 0
                else plain_dot a (pad_to a b)
                     / (magnitude a * magnitude (pad_to a b))).
  { rewrite cosine_magnitudes, magnitude_pad_to, cosine_dot_pad_to. reflexivity. }
  split; [|split].
  - rewrite H at 1. rewrite (cosine_magnitudes a (pad_to a b)).
    rewrite (cosine_dot_pad_to a (pad_to a b)), pad_to_idempotent. reflexivity.
  - exact H.
  - intros c Hc. unfold Pipeline.score_chunks, Pipeline.mapi_result. simpl.
    now rewrite Hc.
Qed.

(** C9 on an example: a query of dimension 4 against an embedding of
    dimension 1. *)
Example cosine_mismatch : cosine [1; 1; 1; 1] [2] = 0.5.
Proof. reflexivity. Qed.

Example cosine_mismatch_padded : cosine [1; 1; 1; 1] [2; 0; 0; 0] = 0.5.
Proof. reflexivity. Qed.

End PaddingClaims.

(* ===================================================================== *)
(** * Facts about [sort] *)
(* ===================================================================== *)

Module SortFacts.
Import Pipeline.

Section StronglySortedLists.

Context {A : Type} (R : A -> A -> Prop).

Lemma StronglySorted_app_inv_r (l1 l2 : list A) :
  StronglySorted R (l1 ++ l2)%list -> StronglySorted R l2.
Proof.
  induction l1 as [|a l1 IH]; simpl; auto.
  intros H. inversion H; auto.
Qed.

(** An element may be placed between two parts of a sorted list when it
    relates to both. *)
Lemma StronglySorted_insert (x : A) (l1 l2 : list A) :
  StronglySorted R (l1 ++ l2)%list ->
  Forall (fun y => R y x) l1 ->
  Forall (R x) l2 ->
  StronglySorted R (l1 ++ x :: l2)%list.
Proof.
  induction l1 as [|a l1 IH]; simpl; intros Hs H1 H2.
  - now constructor.
  - inversion Hs as [|? ? Hs' Ha]; subst.
    inversion H1 as [|? ? Hax H1']; subst.
    constructor; [now apply IH|].
    apply Forall_app in Ha. destruct Ha as [Ha1 Ha2].
    apply Forall_app. split; [exact Ha1|]. now constructor.
Qed.

Lemma StronglySorted_app (l1 l2 : list A) :
  StronglySorted R l1 -> StronglySorted R l2 ->
  (forall x y, In x l1 -> In y l2 -> R x y) ->
  StronglySorted R (l1 ++ l2)%list.
Proof.
  induction l1 as [|a l1 IH]; simpl; intros H1 H2 H; auto.
  inversion H1 as [|? ? H1' Ha]; subst.
  constructor.
  - apply IH; auto.
  - apply Forall_app. split; [exact Ha|].
    apply Forall_forall. intros y Hy. apply H; auto.
Qed.

Lemma StronglySorted_firstn (n : nat) (l : list A) :
  StronglySorted R l -> StronglySorted R (firstn n l).
Proof.
  revert l; induction n as [|n IH]; intros l H; simpl; [constructor|].
  destruct l as [|a l]; [constructor|].
  inversion H as [|? ? H' Ha]; subst.
  constructor; [now apply IH|].
  apply Forall_forall. intros y Hy.
  rewrite Forall_forall in Ha. apply Ha.
  rewrite <- (firstn_skipn n l). apply in_or_app. now left.
Qed.

Lemma StronglySorted_weaken (R' : A -> A -> Prop) (l : list A) :
  (forall x y, In x l -> In y l -> R x y -> R' x y) ->
  StronglySorted R l -> StronglySorted R' l.
Proof.
  induction l as [|a l IH]; intros H Hs; [constructor|].
  inversion Hs as [|? ? Hs' Ha]; subst.
  constructor.
  - apply IH; auto. intros x y Hx Hy. apply H; simpl; auto.
  - rewrite Forall_forall in *. intros y Hy. apply H; simpl; auto.
Qed.

End StronglySortedLists.

Lemma StronglySorted_map {A B : Type} (f : A -> B) (R : B -> B -> Prop) (l : list A) :
  StronglySorted R (map f l) -> StronglySorted (fun x y => R (f x) (f y)) l.
Proof.
  induction l as [|a l IH]; simpl; intros H; [constructor|].
  inversion H as [|? ? H' Ha]; subst.
  constructor; [now apply IH|].
  rewrite Forall_forall in *. intros y Hy. apply Ha. now apply in_map.
Qed.

Section Sort.

Context {A : Type} (compareFn : A -> A -> float).

(** Where [insert_sorted] puts its element: after the elements that go
    before it, in front of the first one that does not. *)
Lemma insert_sorted_split (x : A) (l : list A) :
  exists l1 l2,
    l = (l1 ++ l2)%list
    /\ insert_sorted compareFn x l = (l1 ++ x :: l2)%list
    /\ Forall (fun y => goes_before compareFn y x = true) l1
    /\ match l2 with
       | [] => True
       | z :: _ => goes_before compareFn z x = false
       end.
Proof.
  induction l as [|y l IH]; simpl.
  - exists [], []. repeat split; constructor.
  - destruct (goes_before compareFn y x) eqn:E.
    + destruct IH as [l1 [l2 [-> [-> [H1 H2]]]]].
      exists (y :: l1), l2. repeat split; auto.
    + exists [], (y :: l). repeat split; auto.
Qed.

Lemma length_insert_sorted (x : A) (l : list A) :
  List.length (insert_sorted compareFn x l) = S (List.length l).
Proof.
  induction l as [|y l IH]; simpl; auto.
  destruct (goes_before compareFn y x); simpl; auto.
Qed.

Lemma length_sort (l : list A) :
  List.length (sort compareFn l) = List.length l.
Proof.
  induction l as [|x l IH]; simpl; auto.
  now rewrite length_insert_sorted, IH.
Qed.

Lemma In_insert_sorted (x y : A) (l : list A) :
  In y (insert_sorted compareFn x l) <-> y = x \/ In y l.
Proof.
  induction l as [|z l IH]; simpl.
  - intuition.
  - destruct (goes_before compareFn z x); simpl; rewrite ?IH; intuition.
Qed.

(** [sort] keeps the elements. *)
Lemma In_sort (y : A) (l : list A) :
  In y (sort compareFn l) <-> In y l.
Proof.
  induction l as [|x l IH]; simpl; [tauto|].
  rewrite In_insert_sorted, IH. intuition.
Qed.

(** [sort] is stable: in its result, an element [x] stands in front of an
    element [y] only if it goes before [y] by the comparator, or it stood in
    front of [y] in the input.  [T] is any relation that holds from each
    element of the input to the elements behind it. *)
Lemma sort_stable (T : A -> A -> Prop) (l : list A) :
  StronglySorted T l ->
  StronglySorted (fun x y => goes_before compareFn x y = false -> T x y)
    (sort compareFn l).
Proof.
  induction l as [|a l IH]; simpl; intros H; [constructor|].
  inversion H as [|? ? H' Ha]; subst.
  destruct (insert_sorted_split a (sort compareFn l)) as [l1 [l2 [E [-> [H1 _]]]]].
  apply StronglySorted_insert.
  - rewrite <- E. now apply IH.
  - rewrite Forall_forall in *. intros y Hy Hb.
    rewrite (H1 y Hy) in Hb. discriminate.
  - rewrite Forall_forall in *. intros z Hz _. apply Ha.
    apply In_sort. rewrite E. apply in_or_app. now right.
Qed.

(** On elements the comparator orders consistently, the result of [sort]
    is sorted: no element goes before one in front of it. *)
Lemma sort_sorted (ok : A -> Prop) (l : list A) :
  (forall x y, ok x -> ok y ->
     goes_before compareFn x y = true -> goes_before compareFn y x = false) ->
  (forall x y z, ok x -> ok y -> ok z ->
     goes_before compareFn x y = false -> goes_before compareFn y z = false ->
     goes_before compareFn x z = false) ->
  Forall ok l ->
  StronglySorted (fun x y => goes_before compareFn y x = false) (sort compareFn l).
Proof.
  intros Hasym Htrans. induction l as [|a l IH]; simpl; intros Hok; [constructor|].
  inversion Hok as [|? ? Hoka Hokl]; subst.
  specialize (IH Hokl).
  assert (Hoks : forall y, In y (sort compareFn l) -> ok y).
  { intros y Hy. rewrite Forall_forall in Hokl. apply Hokl. now apply In_sort. }
  destruct (insert_sorted_split a (sort compareFn l)) as [l1 [l2 [E [-> [H1 H2]]]]].
  rewrite E in IH, Hoks.
  apply StronglySorted_insert; [exact IH| |].
  - rewrite Forall_forall in *. intros y Hy.
    apply Hasym; auto. apply Hoks, in_or_app. now left.
  - apply StronglySorted_app_inv_r in IH.
    destruct l2 as [|z l2]; [constructor|].
    inversion IH as [|? ? _ Hz]; subst.
    constructor; [exact H2|].
    rewrite Forall_forall in *. intros y Hy.
    apply (Htrans y z a); auto.
    + apply Hoks, in_or_app. right. now right.
    + apply Hoks, in_or_app. right. now left.
Qed.

End Sort.

End SortFacts.

(* ===================================================================== *)
(** * The ranking: size, order and ties of the top chunks *)
(* ===================================================================== *)

Module RankingClaims.
Import Pipeline Handler Properties FloatKey Fixtures Scenarios JsonFacts SortFacts
  FloatFacts.

(** The chunks of one document, numbered from [i]. *)
Lemma mapi_from_positions (di : nat) (mk : nat -> string -> Chunk)
  (l : list string) (i : nat) :
  (forall idx c, doc_index (mk idx c) = di /\ chunk_index (mk idx c) = idx) ->
  StronglySorted position_lt (mapi_from i mk l)
  /\ Forall (fun c => doc_index c = di /\ i <= chunk_index c) (mapi_from i mk l).
Proof.
  intros Hmk. revert i; induction l as [|x l IH]; intros i; simpl.
  - split; constructor.
  - destruct (IH (S i)) as [Hs Hf]. destruct (Hmk i x) as [Hd Hc].
    split.
    + constructor; [exact Hs|].
      rewrite Forall_forall in *. intros c Hin. destruct (Hf c Hin) as [Hd' Hc'].
      right. split; [congruence|lia].
    + constructor; [split; [exact Hd|lia]|].
      rewrite Forall_forall in *. intros c Hin. destruct (Hf c Hin). split; [auto|lia].
Qed.

Lemma doc_chunks_positions (di : nat) (doc : Doc) (cs : list Chunk) :
  doc_chunks di doc = Ok cs ->
  StronglySorted position_lt cs /\ Forall (fun c => doc_index c = di) cs.
Proof.
  unfold doc_chunks.
  destruct (Chunker.chunkText _ 900 150) as [docChunks|]; [|discriminate].
  intros [= <-]. unfold mapi.
  match goal with
  | |- context [mapi_from 0 ?mk docChunks] =>
      destruct (mapi_from_positions di mk docChunks 0) as [Hs Hf];
      [intros; split; reflexivity|]
  end.
  split; [exact Hs|].
  rewrite Forall_forall in *. intros c Hc. apply (Hf c Hc).
Qed.

Lemma mapi_result_from_positions (i : nat) (docs : list Doc)
  (per_doc : list (list Chunk)) :
  mapi_result_from i doc_chunks docs = Ok per_doc ->
  StronglySorted position_lt (List.concat per_doc)
  /\ Forall (fun c => i <= doc_index c) (List.concat per_doc).
Proof.
  revert i per_doc; induction docs as [|doc docs IH]; intros i per_doc; simpl.
  - intros [= <-]. split; constructor.
  - destruct (doc_chunks i doc) as [cs|e|] eqn:Ec; simpl; try discriminate.
    destruct (mapi_result_from (S i) doc_chunks docs) as [rest|e|] eqn:Er; simpl;
      try discriminate.
    intros [= <-]. simpl.
    destruct (doc_chunks_positions _ _ _ Ec) as [Hs Hd].
    destruct (IH _ _ Er) as [Hs' Hd'].
    rewrite Forall_forall in Hd, Hd'.
    split.
    + apply StronglySorted_app; auto.
      intros x y Hx Hy. left. rewrite (Hd x Hx). apply (Hd' y Hy).
    + apply Forall_forall. intros c Hc. apply in_app_or in Hc.
      destruct Hc as [Hc|Hc]; [rewrite (Hd c Hc); lia|].
      specialize (Hd' c Hc). lia.
Qed.

(** The chunk list is in the original order. *)
Lemma build_chunks_positions (docs : list Doc) (chunks : list Chunk) :
  build_chunks docs = Ok chunks -> StronglySorted position_lt chunks.
Proof.
  unfold build_chunks, mapi_result.
  destruct (mapi_result_from 0 doc_chunks docs) as [per_doc|e|] eqn:E; simpl;
    try discriminate.
  intros [= <-]. exact (proj1 (mapi_result_from_positions _ _ _ E)).
Qed.

(** Attaching the embeddings keeps the length and the positions. *)
Lemma mapi_from_attach (embeddings : list vector) (chunks : list Chunk) (i : nat) :
  map (fun c => (doc_index c, chunk_index c))
      (mapi_from i (fun i c =>
                      {| text := text c; source := source c;
                         doc_index := doc_index c; chunk_index := chunk_index c;
                         embedding := nth_error embeddings i |}) chunks)
  = map (fun c => (doc_index c, chunk_index c)) chunks.
Proof.
  revert i; induction chunks as [|c chunks IH]; intros i; simpl; [reflexivity|].
  now rewrite IH.
Qed.

(** A list whose positions are those of a list in the original order is in
    the original order. *)
Lemma positions_sorted {A : Type} (f : A -> Chunk) (l : list A) (chunks : list Chunk) :
  map (fun x => (doc_index (f x), chunk_index (f x))) l
  = map (fun c => (doc_index c, chunk_index c)) chunks ->
  StronglySorted position_lt chunks ->
  StronglySorted (fun x y => position_lt (f x) (f y)) l.
Proof.
  revert chunks; induction l as [|x l IH]; intros chunks; simpl.
  - constructor.
  - destruct chunks as [|c chunks]; simpl; [discriminate|].
    intros [= Hd Hc Hrest] Hs.
    inversion Hs as [|? ? Hs' Hf]; subst.
    constructor; [now apply (IH chunks)|].
    apply Forall_forall. intros y Hy.
    apply (in_map (fun x => (doc_index (f x), chunk_index (f x)))) in Hy.
    rewrite Hrest in Hy. apply in_map_iff in Hy. destruct Hy as [c' [E Hc']].
    rewrite Forall_forall in Hf. specialize (Hf c' Hc').
    injection E as E1 E2. unfold position_lt in *. lia.
Qed.

(** Scoring keeps the chunks, in order. *)
Lemma score_chunks_chunks (qEmb : vector) (chunks : list Chunk)
  (scored : list ScoredChunk) :
  score_chunks qEmb chunks = Ok scored -> map chunk scored = chunks.
Proof.
  unfold score_chunks, mapi_result. generalize 0.
  revert scored; induction chunks as [|c chunks IH]; intros scored n; simpl.
  - now intros [= <-].
  - destruct (embedding c) as [e|]; simpl; [|discriminate].
    destruct (mapi_result_from (S n) _ chunks) as [rest|e'|] eqn:E; simpl;
      try discriminate.
    intros [= <-]. simpl. f_equal. exact (IH _ _ E).
Qed.

(** The comparator of the ranking, on scores that are not NaN, is the
    order of the keys. *)
Lemma goes_before_key (x y : ScoredChunk) :
  is_nan (score x) = false -> is_nan (score y) = false ->
  goes_before by_score_desc x y = (fkey (score y) <? fkey (score x))%Z.
Proof.
  intros Hx Hy. unfold goes_before, by_score_desc. now apply sub_ltb_zero.
Qed.

(** The scores are the cosines of the query with the embeddings. *)
Lemma score_chunks_scores (qEmb : vector) (chunks : list Chunk)
  (scored : list ScoredChunk) :
  score_chunks qEmb chunks = Ok scored ->
  Forall (fun s => exists e, embedding (chunk s) = Some e
                             /\ score s = cosine qEmb e) scored.
Proof.
  unfold score_chunks, mapi_result. generalize 0.
  revert scored; induction chunks as [|c chunks IH]; intros scored n; simpl.
  - intros [= <-]. constructor.
  - destruct (embedding c) as [e|] eqn:Ee; simpl; [|discriminate].
    destruct (mapi_result_from (S n) _ chunks) as [rest|e'|] eqn:E; simpl;
      try discriminate.
    intros [= <-]. constructor; [|exact (IH _ _ E)].
    exists e. simpl. auto.
Qed.

(** An embedding that is attached comes from the list of embeddings. *)
Lemma attach_embeddings_In (chunks : list Chunk) (embeddings : list vector)
  (c : Chunk) (e : vector) :
  In c (attach_embeddings chunks embeddings) -> embedding c = Some e ->
  In e embeddings.
Proof.
  unfold attach_embeddings, mapi. generalize 0.
  induction chunks as [|c0 chunks IH]; intros n; simpl; [tauto|].
  intros [<-|H] He.
  - simpl in He. now apply nth_error_In in He.
  - exact (IH _ H He).
Qed.

(** C4, as the code has it.  The top chunks number [min(6, chunkCount)],
    and each carries the cosine of the query with its own embedding as its
    score.  When the scores are numbers (no cosine is NaN), every chunk of
    the result has a score at least that of each chunk behind it, and two
    chunks with equal scores stand in their original order, document index
    then chunk index.  The result is a function of the chunks and the query
    vector. *)
Theorem top_k_is_sorted_and_stable (docs : list Doc) (chunks : list Chunk)
  (embeddings : list vector) (qEmb : vector) (top : list ScoredChunk) :
  build_chunks docs = Ok chunks ->
  semantic_search qEmb (attach_embeddings chunks embeddings) = Ok top ->
  List.length top = Nat.min 6 (List.length chunks)
  /\ Forall (fun s => In (chunk s) (attach_embeddings chunks embeddings)
                      /\ exists e, embedding (chunk s) = Some e
                                   /\ In e embeddings
                                   /\ score s = cosine qEmb e) top
  /\ ((forall e, In e embeddings -> is_nan (cosine qEmb e) = false) ->
      StronglySorted (fun x y => (score y <=? score x)%float = true) top
      /\ StronglySorted
           (fun x y => (score x =? score y)%float = true ->
                       position_lt (chunk x) (chunk y)) top).
Proof.
  intros Hb Hsearch.
  destruct (HandlerFacts.semantic_search_ok _ _ _ Hsearch) as [scored [Hs ->]].
  assert (Hattach : List.length (attach_embeddings chunks embeddings)
                    = List.length chunks).
  { unfold attach_embeddings, mapi.
    rewrite <- (length_map (fun c => (doc_index c, chunk_index c))).
    now rewrite mapi_from_attach, length_map. }
  assert (Hlen : List.length scored = List.length chunks).
  { now rewrite <- (length_map chunk scored), (score_chunks_chunks _ _ _ Hs). }
  assert (Hcosine : Forall (fun s => In (chunk s) (attach_embeddings chunks embeddings)
                                     /\ exists e, embedding (chunk s) = Some e
                                                  /\ In e embeddings
                                                  /\ score s = cosine qEmb e) scored).
  { pose proof (score_chunks_scores _ _ _ Hs) as Hsc.
    rewrite Forall_forall in *. intros s Hin.
    assert (Hc : In (chunk s) (attach_embeddings chunks embeddings)).
    { rewrite <- (score_chunks_chunks _ _ _ Hs). now apply in_map. }
    split; [exact Hc|].
    destruct (Hsc s Hin) as [e [He Hscore]]. exists e.
    split; [exact He|]. split; [|exact Hscore].
    exact (attach_embeddings_In chunks embeddings (chunk s) e Hc He). }
  rewrite Hattach.
  split; [|split].
  - rewrite length_firstn, length_sort, Hlen. lia.
  - rewrite Forall_forall in *. intros s Hin.
    apply Hcosine. apply In_sort with (compareFn := by_score_desc).
    rewrite <- (firstn_skipn (Nat.min 6 (List.length chunks))
                  (sort by_score_desc scored)).
    apply in_or_app. now left.
  - intros Hcos.
    assert (Hnan : Forall (fun s => is_nan (score s) = false) scored).
    { rewrite Forall_forall in *. intros s Hin.
      destruct (Hcosine s Hin) as [_ [e [_ [He ->]]]]. now apply Hcos. }
    assert (Hpos : StronglySorted
                     (fun x y => position_lt (chunk x) (chunk y)) scored).
    { apply (positions_sorted chunk scored chunks);
        [|now apply (build_chunks_positions docs)].
      rewrite <- (map_map chunk (fun c => (doc_index c, chunk_index c))).
      rewrite (score_chunks_chunks _ _ _ Hs).
      apply mapi_from_attach. }
    assert (Hok : forall x, In x (sort by_score_desc scored) ->
                            is_nan (score x) = false).
    { intros x Hx. rewrite Forall_forall in Hnan. apply Hnan.
      now apply In_sort in Hx. }
    split.
    + apply StronglySorted_firstn.
      apply (StronglySorted_weaken
               (fun x y => goes_before by_score_desc y x = false)).
      * intros x y Hx Hy. rewrite goes_before_key by auto.
        rewrite leb_key by auto. lia.
      * apply (sort_sorted by_score_desc (fun s => is_nan (score s) = false)).
        -- intros x y Hx Hy. rewrite !goes_before_key by auto. lia.
        -- intros x y z Hx Hy Hz. rewrite !goes_before_key by auto. lia.
        -- exact Hnan.
    + apply StronglySorted_firstn.
      apply (StronglySorted_weaken
               (fun x y => goes_before by_score_desc x y = false ->
                           position_lt (chunk x) (chunk y))).
      * intros x y Hx Hy H Heq. apply H.
        rewrite goes_before_key by auto. rewrite eqb_key in Heq by auto. lia.
      * now apply sort_stable.
Qed.

Lemma top_k_is_sorted_and_stable_witness :
  List.length three_top = Nat.min 6 (List.length three_chunks)
  /\ StronglySorted (fun x y => (score y <=? score x)%float = true) three_top.
Proof.
  destruct (top_k_is_sorted_and_stable three_docs three_chunks three_embeddings
              [1; 0]%float three_top eq_refl eq_refl) as [Hlen [_ Hsorted]].
  split; [exact Hlen|].
  apply Hsorted.
  intros e [<-|[<-|[<-|[]]]]; reflexivity.
Defined.

(** C4 fails as stated when a similarity is NaN.  The query and the first
    of two chunks embed to the vector [(2^700, 1)]: the dot product
    overflows, the first score is NaN and the second is 0.  With two chunks
    the top chunks are both of them, and in neither order is the list
    non-increasing, since NaN compares with no number. *)
Lemma top_k_with_nan_counterexample :
  build_chunks two_docs = Ok two_chunks
  /\ cosine huge_query [0x1p700; 1]%float = nan
  /\ exists scored top,
       score_chunks huge_query (attach_embeddings two_chunks huge_embeddings)
       = Ok scored
       /\ semantic_search huge_query (attach_embeddings two_chunks huge_embeddings)
          = Ok top
       /\ List.length top = Nat.min 6 (List.length two_chunks)
       /\ ~ StronglySorted (fun x y => (score y <=? score x)%float = true) top
       /\ forall other,
            Permutation other scored ->
            ~ StronglySorted (fun x y => (score y <=? score x)%float = true) other.
Proof.
  split; [reflexivity|]. split; [reflexivity|].
  eexists. eexists.
  split; [vm_compute; reflexivity|].
  split; [vm_compute; reflexivity|].
  split; [reflexivity|].
  assert (Hno : forall other scored,
            scored = [ {| chunk := nth 0 (attach_embeddings two_chunks huge_embeddings)
                                     (chunk not_covered_chunk);
                          score := nan |};
                       {| chunk := nth 1 (attach_embeddings two_chunks huge_embeddings)
                                     (chunk not_covered_chunk);
                          score := 0%float |} ] ->
            Permutation other scored ->
            ~ StronglySorted (fun x y => (score y <=? score x)%float = true) other).
  { intros other scored -> Hp Hs.
    apply Permutation_sym, Permutation_length_2_inv in Hp.
    destruct Hp as [-> | ->];
      inversion Hs as [|? ? _ Hf]; subst;
      inversion Hf as [|? ? Hle _]; subst;
      vm_compute in Hle; discriminate. }
  split.
  - apply (Hno _ _ eq_refl). apply Permutation_refl.
  - intros other. apply (Hno _ _ eq_refl).
Qed.

(** The two chunks that tie at score 1 come first, in document order. *)
Example three_docs_ranking :
  map (fun s => (source (chunk s), score s)) three_top
  = [ ("a.txt", 1%float); ("c.txt", 1%float); ("b.txt", 0%float) ].
Proof. reflexivity. Qed.

End RankingClaims.

(* ===================================================================== *)
(** * The handler always responds *)
(* ===================================================================== *)

Module HandlerTotality.
Import JsString Json Handler Properties HandlerFacts.

Lemma ret_never_hangs {A : Type} (a : A) : never_hangs (ret a).
Proof.
  intros log. discriminate.
Qed.

Lemma lift_never_hangs {A : Type} (r : Result A) :
  r <> Hang -> never_hangs (lift r).
Proof.
  intros H log. exact H.
Qed.

Lemma call_embeddings_never_hangs (P : Providers) (input : EmbeddingInput) :
  never_hangs (call_embeddings P input).
Proof.
  intros log. unfold call_embeddings.
  destruct (embeddings_create P input); discriminate.
Qed.

Lemma call_chat_never_hangs (P : Providers) (messages : list Message) :
  never_hangs (call_chat P messages).
Proof.
  intros log. unfold call_chat.
  destruct (chat_completions_create P messages); discriminate.
Qed.

Lemma bind_never_hangs {A B : Type} (m : M A) (k : A -> M B) :
  never_hangs m -> (forall a, never_hangs (k a)) -> never_hangs (bind m k).
Proof.
  intros Hm Hk log. unfold bind. specialize (Hm log).
  destruct (m log) as [[a|e|] log']; simpl in *; [apply Hk|discriminate|congruence].
Qed.

(** The loop of [embedTexts] exits: each iteration moves [i] forward. *)
Lemma embedTexts_loop_never_hangs (P : Providers) (fuel : nat) (texts : list string)
  (i : nat) (results : list vector) :
  List.length texts - i < fuel ->
  never_hangs (embedTexts_loop P fuel texts i results).
Proof.
  revert i results; induction fuel as [|fuel IH]; intros i results H.
  - lia.
  - cbn [embedTexts_loop].
    destruct (Nat.ltb_spec i (List.length texts)).
    + apply bind_never_hangs; [apply call_embeddings_never_hangs|].
      intros data. apply IH. unfold BATCH. lia.
    + apply ret_never_hangs.
Qed.

Lemma mapi_result_from_never_hangs {A B : Type} (f : nat -> A -> Result B)
  (l : list A) (i : nat) :
  (forall n x, f n x <> Hang) -> mapi_result_from i f l <> Hang.
Proof.
  intros Hf. revert i; induction l as [|x l IH]; intros i; simpl; [discriminate|].
  specialize (Hf i x). specialize (IH (S i)).
  destruct (f i x); simpl; try congruence.
  destruct (mapi_result_from (S i) f l); simpl; congruence.
Qed.

Lemma score_chunks_never_hangs (qEmb : vector) (chunks : list Chunk) :
  score_chunks qEmb chunks <> Hang.
Proof.
  apply mapi_result_from_never_hangs.
  intros n c. destruct (embedding c); discriminate.
Qed.

Lemma semantic_search_never_hangs (qEmb : vector) (chunks : list Chunk) :
  semantic_search qEmb chunks <> Hang.
Proof.
  unfold semantic_search. pose proof (score_chunks_never_hangs qEmb chunks).
  destruct (score_chunks qEmb chunks); cbn [rbind]; congruence.
Qed.

Lemma repair_entry_never_hangs (top : list ScoredChunk) (i : nat) (j : json) :
  repair_entry top i j <> Hang.
Proof.
  unfold repair_entry. destruct j; simpl; discriminate.
Qed.

Lemma synthesize_never_hangs (top : list ScoredChunk) (llmText : string) :
  synthesize top llmText <> Hang.
Proof.
  unfold synthesize.
  destruct (parse_llm llmText) as [parsed|]; [|discriminate].
  destruct (truthy parsed); [|discriminate].
  unfold repair.
  destruct (get_prop parsed "justification") as [[[| | | |entries|]|]|e|] eqn:E;
    simpl; try discriminate.
  - pose proof (mapi_result_from_never_hangs (repair_entry top) entries 0
                  (repair_entry_never_hangs top)) as H.
    unfold mapi_result.
    destruct (mapi_result_from 0 (repair_entry top) entries); simpl;
      [discriminate|discriminate|congruence].
  - destruct parsed; discriminate.
Qed.

Lemma answer_never_hangs (P : Providers) (query : string) (items : list DocRef)
  (chunks : list Chunk) :
  never_hangs (answer P query items chunks).
Proof.
  unfold answer, retrieve, embedTexts.
  repeat (apply bind_never_hangs; [|intros ?]);
    try apply ret_never_hangs;
    try apply call_embeddings_never_hangs;
    try apply call_chat_never_hangs.
  - apply embedTexts_loop_never_hangs. lia.
  - apply lift_never_hangs.
    match goal with |- match ?l with _ => _ end <> _ => destruct l end;
      discriminate.
  - apply lift_never_hangs, semantic_search_never_hangs.
  - apply lift_never_hangs, synthesize_never_hangs.
Qed.

(** X21.  For every request the handler sends a response: the chunker is
    called with 900 and 150 and returns, the batches of [embedTexts] run
    out, and every exception is caught. *)
Lemma hackrx_run_responds (P : Providers) (body : Body) :
  exists response, fst (hackrx_run P body) = Some response.
Proof.
  unfold hackrx_run.
  destruct (documents body) as [d|]; [|simpl; eauto].
  destruct (falsy_documents d); [simpl; eauto|].
  destruct (query body) as [q|]; [|simpl; eauto].
  destruct (String.eqb q ""); [simpl; eauto|].
  destruct (build_chunks_nonempty (map (fetchAndExtract P) (as_array d)))
    as [chunks [-> _]].
  destruct chunks as [|c chunks]; [simpl; eauto|].
  pose proof (answer_never_hangs P q (as_array d) (c :: chunks) []) as H.
  destruct (answer P q (as_array d) (c :: chunks) []) as [[r|e|] log];
    simpl in *; eauto. congruence.
Qed.

(** In a 200 response, [top_k] is [min(6, chunks_indexed)]. *)
Lemma hackrx_run_top_k (P : Providers) (body : Body) (env : Envelope)
  (log : list Call) :
  hackrx_run P body = (Some (Status200 env), log) ->
  top_k (meta env) = Nat.min 6 (chunks_indexed (meta env)).
Proof.
  intros H.
  destruct (hackrx_run_200 _ _ _ _ H)
    as [d [q [chunks [top [log1 [completion [_ [_ [Hb [Hr [_ [_ [-> ->]]]]]]]]]]]]].
  destruct (retrieve_ok _ _ _ _ _ _ Hr) as [embeddings [qEmb Hs]].
  destruct (semantic_search_ok _ _ _ Hs) as [scored [Hsc ->]].
  assert (Hattach : List.length (attach_embeddings chunks embeddings)
                    = List.length chunks).
  { unfold attach_embeddings, mapi.
    rewrite <- (length_map (fun c => (doc_index c, chunk_index c))).
    now rewrite RankingClaims.mapi_from_attach, length_map. }
  assert (Hlen : List.length scored = List.length chunks).
  { now rewrite <- (length_map chunk scored),
      (RankingClaims.score_chunks_chunks _ _ _ Hsc). }
  rewrite length_firstn, SortFacts.length_sort, Hlen, Hattach. lia.
Qed.

End HandlerTotality.

(* ===================================================================== *)
(** * The chunker: the chunks in closed form *)
(* ===================================================================== *)

Module ChunkerShape.
Import JsString JsStringFacts Chunker ChunkerFacts Layout.

Lemma window_count_done (len i step : Z) :
  (0 < step)%Z -> (len <= i)%Z -> window_count len i step = 0%nat.
Proof.
  intros Hs Hi. unfold window_count.
  assert ((len - i + step - 1) / step < 1)%Z; [|lia].
  apply Z.div_lt_upper_bound; lia.
Qed.

Lemma window_count_step (len i step : Z) :
  (0 < step)%Z -> (i < len)%Z ->
  window_count len i step = S (window_count len (i + step) step).
Proof.
  intros Hs Hi. unfold window_count.
  replace (len - i + step - 1)%Z with ((len - (i + step) + step - 1) + 1 * step)%Z by lia.
  rewrite Z.div_add by lia.
  assert (0 <= (len - (i + step) + step - 1) / step)%Z by (apply Z.div_pos; lia).
  lia.
Qed.

(** The windows from [i] on, one per start below the length of the text. *)
Lemma windows_closed_form (text : string) (chunkSize overlap : Z) (fuel : nat) (i : Z) :
  let step := (chunkSize - overlap)%Z in
  let len := Z.of_nat (length text) in
  (0 < step)%Z -> (0 < fuel)%nat -> (len - i < Z.of_nat fuel)%Z ->
  windows fuel text chunkSize overlap i
  = Some (map (fun k => slice text (i + Z.of_nat k * step)
                          (i + Z.of_nat k * step + chunkSize))
            (seq 0 (window_count len i step))).
Proof.
  intros step len Hs. revert i.
  induction fuel as [|fuel IH]; intros i Hf Hi; [lia|].
  cbn [windows]. fold len. fold step.
  destruct (Z.ltb_spec i len) as [Hlt|Hge].
  - rewrite (window_count_step len i step Hs Hlt).
    rewrite IH by lia.
    cbn [option_map seq map]. f_equal. f_equal.
    + f_equal; lia.
    + rewrite <- seq_shift, map_map. apply map_ext. intros k.
      f_equal; lia.
  - now rewrite (window_count_done len i step Hs Hge).
Qed.

Lemma chunkText_windows (text : string) (chunkSize overlap : Z) :
  (overlap < chunkSize)%Z ->
  chunkText text chunkSize overlap
  = Some (map (fun k => slice text (Z.of_nat k * (chunkSize - overlap))
                          (Z.of_nat k * (chunkSize - overlap) + chunkSize))
            (seq 0 (window_count (Z.of_nat (length text)) 0 (chunkSize - overlap)))).
Proof.
  intros H. unfold chunkText.
  rewrite chunkText_loop_windows, windows_closed_form by lia.
  reflexivity.
Qed.

Lemma take_drop_app (n : nat) (s : string) : take n s ++ drop n s = s.
Proof.
  revert s; induction n as [|n IH]; intros [|c s]; simpl; try reflexivity.
  now rewrite IH.
Qed.

Lemma drop_all (n : nat) (s : string) : length s <= n -> drop n s = EmptyString.
Proof.
  revert s; induction n as [|n IH]; intros [|c s]; simpl; intros H;
    try reflexivity; try lia.
  apply IH; lia.
Qed.

Lemma append_empty_r (s : string) : s ++ "" = s.
Proof. induction s as [|c s IH]; simpl; [reflexivity|now rewrite IH]. Qed.

Lemma length_append (a b : string) : length (a ++ b) = length a + length b.
Proof. induction a as [|c a IH]; simpl; [reflexivity|now rewrite IH]. Qed.

Lemma join_empty_cons (p : string) (rest : list string) :
  join "" (p :: rest) = p ++ join "" rest.
Proof.
  destruct rest as [|q rest]; cbn [join].
  - now rewrite append_empty_r.
  - reflexivity.
Qed.

(** The first [step] characters of the windows from [i] on, put end to end,
    are the text from [i] on. *)
Lemma windows_rebuild (text : string) (chunkSize overlap : Z) (fuel i : nat)
  (l : list string) :
  (0 <= overlap < chunkSize)%Z ->
  windows fuel text chunkSize overlap (Z.of_nat i) = Some l ->
  join "" (map (prefix (Z.to_nat (chunkSize - overlap))) l) = drop i text.
Proof.
  intros H. revert i l.
  induction fuel as [|fuel IH]; intros i l; [discriminate|].
  cbn [windows].
  destruct (Z.ltb_spec (Z.of_nat i) (Z.of_nat (length text))) as [Hlt|Hge].
  - replace (Z.of_nat i + (chunkSize - overlap))%Z
      with (Z.of_nat (i + Z.to_nat (chunkSize - overlap))) by lia.
    destruct (windows fuel text chunkSize overlap
                (Z.of_nat (i + Z.to_nat (chunkSize - overlap)))) as [l'|] eqn:E;
      [|discriminate].
    intros [= <-]. cbn [map]. rewrite join_empty_cons, (IH _ _ E).
    replace (Z.of_nat i + chunkSize)%Z with (Z.of_nat (i + Z.to_nat chunkSize)) by lia.
    rewrite slice_nat. unfold prefix. rewrite take_take.
    replace (Nat.min i (length text)) with i by lia.
    assert (E2 : drop i text
                 = take (Z.to_nat (chunkSize - overlap)) (drop i text)
                   ++ drop (i + Z.to_nat (chunkSize - overlap)) text)
      by now rewrite <- drop_drop, take_drop_app.
    etransitivity; [|symmetry; exact E2]. f_equal.
    destruct (Nat.le_gt_cases (length text - i) (Z.to_nat (chunkSize - overlap)))
      as [Hs|Hs].
    + rewrite !take_all; try reflexivity; rewrite length_drop; lia.
    + f_equal. lia.
  - intros [= <-]. cbn [map join]. symmetry. apply drop_all. lia.
Qed.

(** X1.  For [overlap < chunkSize], [chunkText] returns one chunk per step
    of [chunkSize - overlap] characters, that is the length of the text
    divided by the step, rounded up; chunk [k] is
    [text.slice(k * step, k * step + chunkSize)].  An empty text gives no
    chunk. *)
Theorem chunkText_closed_form (text : string) (chunkSize overlap : Z) :
  (overlap < chunkSize)%Z ->
  let step := (chunkSize - overlap)%Z in
  let count := Z.to_nat ((Z.of_nat (length text) + step - 1) / step) in
  chunkText text chunkSize overlap
  = Some (map (fun k => slice text (Z.of_nat k * step) (Z.of_nat k * step + chunkSize))
            (seq 0 count))
  /\ (text = EmptyString -> chunkText text chunkSize overlap = Some []).
Proof.
  intros H step count. split.
  - rewrite (chunkText_windows text chunkSize overlap H). fold step.
    unfold window_count.
    now replace (Z.of_nat (length text) - 0 + step - 1)%Z
      with (Z.of_nat (length text) + step - 1)%Z by lia.
  - intros ->. reflexivity.
Qed.

(** A text of eight characters, a window of 5 and an overlap of 2: three
    chunks. *)
Lemma chunkText_closed_form_witness :
  chunkText "abcdefgh" 5 2 = Some ["abcde"; "defgh"; "gh"].
Proof.
  rewrite (proj1 (chunkText_closed_form "abcdefgh" 5 2 ltac:(lia))).
  reflexivity.
Defined.

(** X2.  For [0 <= overlap < chunkSize], no chunk is empty and none is
    longer than [chunkSize]; a chunk whose window ends inside the text has
    exactly [chunkSize] characters. *)
Theorem chunkText_chunk_sizes (text : string) (chunkSize overlap : Z)
  (chunks : list string) (k : nat) (c : string) :
  (0 <= overlap < chunkSize)%Z ->
  chunkText text chunkSize overlap = Some chunks ->
  nth_error chunks k = Some c ->
  (1 <= length c)%nat
  /\ (Z.of_nat (length c) <= chunkSize)%Z
  /\ ((Z.of_nat k * (chunkSize - overlap) + chunkSize <= Z.of_nat (length text))%Z ->
      Z.of_nat (length c) = chunkSize).
Proof.
  intros H Hc Hk.
  destruct (chunkText_nth text chunkSize overlap chunks k c Hc Hk) as [-> Hlt].
  assert (Hpos : (0 <= Z.of_nat k * (chunkSize - overlap))%Z)
    by (apply Z.mul_nonneg_nonneg; lia).
  set (a := Z.to_nat (Z.of_nat k * (chunkSize - overlap))).
  replace (Z.of_nat k * (chunkSize - overlap))%Z with (Z.of_nat a) in * by lia.
  replace (Z.of_nat a + chunkSize)%Z with (Z.of_nat (a + Z.to_nat chunkSize)) by lia.
  rewrite length_slice_nat. repeat split; lia.
Qed.

(** The last chunk of the eight characters has two of them. *)
Lemma chunkText_chunk_sizes_witness :
  (1 <= length "gh")%nat /\ (Z.of_nat (length "gh") <= 5)%Z.
Proof.
  destruct (chunkText_chunk_sizes "abcdefgh" 5 2 ["abcde"; "defgh"; "gh"] 2 "gh")
    as [H1 [H2 _]]; [lia|reflexivity|reflexivity|].
  split; [exact H1|exact H2].
Defined.

(** X3.  For [0 <= overlap < chunkSize] no character of the text is lost:
    the first [chunkSize - overlap] characters of every chunk, put end to
    end, are the text. *)
Theorem chunkText_rebuilds_text (text : string) (chunkSize overlap : Z)
  (chunks : list string) :
  (0 <= overlap < chunkSize)%Z ->
  chunkText text chunkSize overlap = Some chunks ->
  join "" (map (prefix (Z.to_nat (chunkSize - overlap))) chunks) = text.
Proof.
  intros H Hc. unfold chunkText in Hc.
  rewrite chunkText_loop_windows in Hc.
  destruct (windows (S (length text)) text chunkSize overlap 0) as [l|] eqn:E;
    [|discriminate].
  injection Hc as <-. cbn [app].
  exact (windows_rebuild text chunkSize overlap _ 0 l H E).
Qed.

Lemma chunkText_rebuilds_text_witness :
  join "" (map (prefix (Z.to_nat (5 - 2))) ["abcde"; "defgh"; "gh"]) = "abcdefgh".
Proof.
  apply (chunkText_rebuilds_text "abcdefgh" 5 2 ["abcde"; "defgh"; "gh"]);
    [lia|reflexivity].
Defined.

End ChunkerShape.

(* ===================================================================== *)
(** * Step 2 of the handler: the chunks of the documents *)
(* ===================================================================== *)

Module LayoutFacts.
Import JsString JsStringFacts Chunker ChunkerFacts Pipeline Layout ChunkerShape.

(** ** White space after [normalize] *)

Lemma spaced_collapse (in_run : bool) (s : string) :
  spaced in_run (collapse_from in_run s) = true.
Proof.
  revert in_run; induction s as [|c s IH]; intros in_run; [reflexivity|].
  cbn [collapse_from]. destruct (is_space c) eqn:E.
  - destruct in_run; [apply IH|].
    cbn [spaced]. change (is_space " ") with true. cbn. apply IH.
  - cbn [spaced]. rewrite E. apply IH.
Qed.

Lemma spaced_trimStart (after_space : bool) (s : string) :
  spaced after_space s = true -> spaced true (trimStart s) = true.
Proof.
  revert after_space; induction s as [|c s IH]; intros after_space; [reflexivity|].
  cbn [spaced trimStart]. destruct (is_space c) eqn:E.
  - intros H. apply andb_prop in H. destruct H as [_ H]. exact (IH _ H).
  - intros H. cbn [spaced]. now rewrite E.
Qed.

Lemma spaced_trimEnd (after_space : bool) (s : string) :
  spaced after_space s = true -> spaced_inside after_space (trimEnd s) = true.
Proof.
  revert after_space; induction s as [|c s IH]; intros after_space; [reflexivity|].
  cbn [spaced trimEnd]. destruct (is_space c) eqn:E.
  - intros H. apply andb_prop in H. destruct H as [H1 H].
    specialize (IH _ H).
    destruct (trimEnd s) as [|c' t]; [reflexivity|].
    cbn [spaced_inside]. rewrite E, H1. cbn [String.eqb negb andb]. exact IH.
  - intros H. specialize (IH _ H).
    destruct (trimEnd s) as [|c' t]; cbn [spaced_inside]; rewrite E; [reflexivity|exact IH].
Qed.

Lemma spaced_inside_sound (after_space : bool) (s : string) :
  spaced_inside after_space s = true ->
  forall a c b, s = a ++ String c b -> is_space c = true ->
    c = " "%char
    /\ (a = EmptyString -> after_space = false)
    /\ exists c' b', b = String c' b' /\ is_space c' = false.
Proof.
  revert after_space; induction s as [|x r IH]; intros after_space H a c b E Hc.
  - destruct a; discriminate.
  - cbn [spaced_inside] in H. destruct a as [|y a]; simpl in E; injection E as -> E.
    + subst r. rewrite Hc in H.
      apply andb_prop in H. destruct H as [H H4].
      apply andb_prop in H. destruct H as [H H3].
      apply andb_prop in H. destruct H as [H1 H2].
      apply Ascii.eqb_eq in H1. split; [exact H1|].
      split; [intros _; now destruct after_space|].
      destruct b as [|c' b']; [discriminate|]. exists c', b'. split; [reflexivity|].
      cbn [spaced_inside] in H4.
      destruct (is_space c'); [destruct (Ascii.eqb c' " "); discriminate|reflexivity].
    + destruct (is_space y).
      * apply andb_prop in H. destruct H as [_ H].
        destruct (IH _ H a c b E Hc) as [H1 [_ H3]].
        repeat split; auto. discriminate.
      * destruct (IH _ H a c b E Hc) as [H1 [_ H3]].
        repeat split; auto. discriminate.
Qed.

Lemma normalize_single_spaced (c : string) : single_spaced (normalize c).
Proof.
  unfold normalize, trim, collapse_spaces. intros a x b E Hx.
  pose proof (spaced_collapse false c) as H.
  apply spaced_trimStart, spaced_trimEnd in H.
  destruct (spaced_inside_sound _ _ H a x b E Hx) as [H1 [H2 H3]].
  repeat split; auto. intros ->. specialize (H2 eq_refl). discriminate.
Qed.

Lemma length_collapse_from (in_run : bool) (s : string) :
  length (collapse_from in_run s) <= length s.
Proof.
  revert in_run; induction s as [|c s IH]; intros in_run; [reflexivity|].
  pose proof (IH true). pose proof (IH false).
  cbn [collapse_from]. destruct (is_space c); [destruct in_run|]; simpl; lia.
Qed.

Lemma length_trimStart (s : string) : length (trimStart s) <= length s.
Proof.
  induction s as [|c s IH]; [reflexivity|]. cbn [trimStart].
  destruct (is_space c); simpl; lia.
Qed.

Lemma length_trimEnd (s : string) : length (trimEnd s) <= length s.
Proof.
  induction s as [|c s IH]; [reflexivity|]. cbn [trimEnd].
  destruct (trimEnd s); [destruct (is_space c)|]; simpl in *; lia.
Qed.

Lemma length_normalize (c : string) : length (normalize c) <= length c.
Proof.
  unfold normalize, trim, collapse_spaces.
  pose proof (length_collapse_from false c).
  pose proof (length_trimStart (collapse_from false c)).
  pose proof (length_trimEnd (trimStart (collapse_from false c))).
  lia.
Qed.

(** ** The chunks of a document *)

Lemma mapi_from_map_seq {A B : Type} (f : nat -> A -> B) (g : nat -> A) (i n : nat) :
  mapi_from i f (map g (seq i n)) = map (fun k => f k (g k)) (seq i n).
Proof.
  revert i; induction n as [|n IH]; intros i; [reflexivity|].
  cbn [seq map mapi_from]. now rewrite IH.
Qed.

(** The chunks of one document. *)
Lemma doc_chunks_closed_form (di : nat) (doc : Doc) :
  doc_chunks di doc = Ok (map (chunk_at di doc) (seq 0 (chunk_count doc))).
Proof.
  unfold doc_chunks. fold (text_of doc).
  rewrite (chunkText_windows (text_of doc ++ newline) 900 150) by lia.
  replace (window_count (Z.of_nat (length (text_of doc ++ newline))) 0 (900 - 150))
    with (chunk_count doc).
  - unfold mapi.
    rewrite (mapi_from_map_seq _
               (fun k => slice (text_of doc ++ newline) (Z.of_nat k * (900 - 150))
                           (Z.of_nat k * (900 - 150) + 900))).
    reflexivity.
  - unfold chunk_count, window_count.
    assert (E : length (text_of doc ++ newline) = length (text_of doc) + 1).
    { rewrite length_append. reflexivity. }
    rewrite E.
    replace (Z.of_nat (length (text_of doc) + 1) - 0 + (900 - 150) - 1)%Z
      with (Z.of_nat (length (text_of doc)) + 1 * 750)%Z by lia.
    change (900 - 150)%Z with 750%Z.
    rewrite Z.div_add by lia.
    change 750%Z with (Z.of_nat 750). rewrite <- Nat2Z.inj_div. lia.
Qed.

Lemma mapi_result_from_doc_chunks_closed (i : nat) (docs : list Doc) :
  mapi_result_from i doc_chunks docs
  = Ok (mapi_from i (fun di doc => map (chunk_at di doc) (seq 0 (chunk_count doc))) docs).
Proof.
  revert i; induction docs as [|doc docs IH]; intros i; [reflexivity|].
  cbn [mapi_result_from mapi_from]. rewrite doc_chunks_closed_form, IH. reflexivity.
Qed.

Lemma build_chunks_closed_form (docs : list Doc) :
  build_chunks docs
  = Ok (List.concat
          (mapi (fun di doc => map (chunk_at di doc) (seq 0 (chunk_count doc))) docs)).
Proof.
  unfold build_chunks, mapi_result, mapi.
  now rewrite mapi_result_from_doc_chunks_closed.
Qed.

Lemma In_mapi_from {A B : Type} (f : nat -> A -> B) (l : list A) (i : nat) (y : B) :
  In y (mapi_from i f l) -> exists n x, nth_error l n = Some x /\ y = f (i + n) x.
Proof.
  revert i; induction l as [|x l IH]; intros i; [contradiction|].
  cbn [mapi_from]. intros [<-|H].
  - exists 0, x. split; [reflexivity|]. now rewrite Nat.add_0_r.
  - destruct (IH _ H) as [n [x' [Hn ->]]]. exists (S n), x'.
    split; [exact Hn|]. now rewrite Nat.add_succ_r.
Qed.

Lemma length_concat_mapi_from (i : nat) (docs : list Doc) :
  List.length
    (List.concat
       (mapi_from i (fun di doc => map (chunk_at di doc) (seq 0 (chunk_count doc))) docs))
  = list_sum (map chunk_count docs).
Proof.
  revert i; induction docs as [|doc docs IH]; intros i; [reflexivity|].
  cbn [mapi_from List.concat map list_sum].
  now rewrite length_app, length_map, length_seq, IH.
Qed.

Lemma length_chunk_at (di : nat) (doc : Doc) (idx : nat) :
  length (text (chunk_at di doc idx)) <= 900.
Proof.
  cbn [chunk_at text].
  pose proof (length_normalize
                (slice (text_of doc ++ newline) (Z.of_nat idx * 750)
                   (Z.of_nat idx * 750 + 900))) as H.
  replace (Z.of_nat idx * 750)%Z with (Z.of_nat (idx * 750)) in H by lia.
  replace (Z.of_nat (idx * 750) + 900)%Z with (Z.of_nat (idx * 750 + 900)) in H by lia.
  rewrite length_slice_nat in H.
  replace (Z.of_nat idx * 750)%Z with (Z.of_nat (idx * 750)) by lia.
  replace (Z.of_nat (idx * 750) + 900)%Z with (Z.of_nat (idx * 750 + 900)) by lia.
  lia.
Qed.

End LayoutFacts.

Module LayoutClaims.
Import JsString Pipeline Layout LayoutFacts.

(** X4.  Step 2 always succeeds, and its result is known in advance: a
    document whose text has [n] characters gives [n / 750 + 1] chunks (the
    division rounds down; a missing text counts as empty), chunk [idx] being
    the normalized window of 900 characters that starts at [750 * idx] in
    the text followed by a line feed, with the document's source, its index
    and [idx].  The chunks come document by document. *)
Theorem chunks_of_the_documents (docs : list Doc) :
  exists chunks,
    build_chunks docs = Ok chunks
    /\ chunks = List.concat
                  (mapi (fun di doc => map (chunk_at di doc) (seq 0 (chunk_count doc)))
                     docs)
    /\ List.length chunks = list_sum (map chunk_count docs).
Proof.
  eexists. split; [apply build_chunks_closed_form|].
  split; [reflexivity|]. apply length_concat_mapi_from.
Qed.

(** X5.  The text of every chunk has at most 900 characters, and white
    space occurs in it only as single spaces between two other characters:
    no tab or line feed, no space at either end, no two spaces in a row. *)
Theorem chunk_texts_are_normalized (docs : list Doc) (chunks : list Chunk) (c : Chunk) :
  build_chunks docs = Ok chunks ->
  In c chunks ->
  length (text c) <= 900 /\ single_spaced (text c).
Proof.
  rewrite build_chunks_closed_form. intros [= <-] Hin.
  apply in_concat in Hin. destruct Hin as [cs [Hcs Hc]].
  apply In_mapi_from in Hcs. destruct Hcs as [n [doc [_ ->]]].
  apply in_map_iff in Hc. destruct Hc as [idx [<- _]].
  split; [apply length_chunk_at|].
  cbn [chunk_at text]. apply normalize_single_spaced.
Qed.

(** A text with spaces at both ends and three in a row. *)
Lemma chunk_texts_are_normalized_witness :
  length "Knee surgery is covered." <= 900
  /\ single_spaced "Knee surgery is covered.".
Proof.
  refine (chunk_texts_are_normalized
            [ {| doc_text := Some "  Knee   surgery is covered. ";
                 doc_source := "policy.txt"; doc_error := None |} ]
            _
            {| text := "Knee surgery is covered."; source := "policy.txt";
               doc_index := 0; chunk_index := 0; embedding := None |} _ _).
  - reflexivity.
  - left. reflexivity.
Defined.

End LayoutClaims.

(* ===================================================================== *)
(** * [embedTexts]: the slices and the calls *)
(* ===================================================================== *)

Module EmbedTextsFacts.
Import Pipeline Properties Batching.

Lemma BATCH_pos : 0 < BATCH.
Proof. unfold BATCH. lia. Qed.

Lemma batch_count_zero (texts : list string) (k : nat) :
  List.length texts <= k * BATCH -> (List.length texts - k * BATCH + (BATCH - 1)) / BATCH = 0.
Proof.
  intros H. apply Nat.div_small. pose proof BATCH_pos. lia.
Qed.

Lemma batch_count_succ (n k : nat) :
  k * BATCH < n ->
  (n - k * BATCH + (BATCH - 1)) / BATCH = S ((n - S k * BATCH + (BATCH - 1)) / BATCH).
Proof.
  intros H. pose proof BATCH_pos.
  destruct (Nat.le_gt_cases (S k * BATCH) n) as [Hle|Hgt].
  - replace (n - k * BATCH + (BATCH - 1))
      with ((n - S k * BATCH + (BATCH - 1)) + 1 * BATCH)
      by (cbn [Nat.mul] in *; lia).
    rewrite Nat.div_add by lia. lia.
  - replace (n - S k * BATCH) with 0 by lia.
    rewrite (Nat.div_small (0 + (BATCH - 1))) by lia.
    symmetry. apply (Nat.div_unique _ _ 1 (n - k * BATCH - 1)); cbn [Nat.mul] in *; lia.
Qed.

(** The loop from slice [k] on, when every slice from there on is answered. *)
Lemma embedTexts_loop_replied (P : Providers) (texts : list string) (fuel k : nat)
  (results : list vector) (log : list Call) :
  List.length texts - k * BATCH < fuel ->
  (forall j, k <= j -> j * BATCH < List.length texts ->
     exists data, embeddings_create P (InputMany (batch texts j)) = Replied data) ->
  let n := (List.length texts - k * BATCH + (BATCH - 1)) / BATCH in
  embedTexts_loop P fuel texts (k * BATCH) results log
  = (Ok (results ++ List.concat (map (batch_reply P texts) (seq k n)))%list,
     (log ++ map (fun j => EmbeddingsCreate (InputMany (batch texts j))) (seq k n))%list).
Proof.
  revert k results log.
  induction fuel as [|fuel IH]; intros k results log Hf Hall n; [lia|].
  cbn [embedTexts_loop].
  destruct (Nat.ltb_spec (k * BATCH) (List.length texts)) as [Hlt|Hge].
  - subst n. rewrite (batch_count_succ _ _ Hlt).
    destruct (Hall k (le_n _) Hlt) as [data Hd].
    unfold bind, call_embeddings. fold (batch texts k). rewrite Hd.
    replace (k * BATCH + BATCH) with (S k * BATCH) by (cbn [Nat.mul]; lia).
    rewrite IH.
    + cbn [seq map List.concat]. unfold batch_reply at 2. rewrite Hd.
      now rewrite <- !app_assoc.
    + pose proof BATCH_pos. cbn [Nat.mul]. lia.
    + intros j Hj. apply Hall. lia.
  - subst n. rewrite (batch_count_zero _ _ Hge).
    cbn [seq map List.concat]. now rewrite !app_nil_r.
Qed.

(** The loop from slice [k] on, when slice [f] is the first that fails. *)
Lemma embedTexts_loop_failed (P : Providers) (texts : list string) (fuel k f : nat)
  (results : list vector) (log : list Call) (message : string) :
  List.length texts - k * BATCH < fuel ->
  k <= f -> f * BATCH < List.length texts ->
  (forall j, k <= j -> j < f ->
     exists data, embeddings_create P (InputMany (batch texts j)) = Replied data) ->
  embeddings_create P (InputMany (batch texts f)) = Failed message ->
  embedTexts_loop P fuel texts (k * BATCH) results log
  = (Throw (ProviderFailure message),
     (log ++ map (fun j => EmbeddingsCreate (InputMany (batch texts j)))
               (seq k (S f - k)))%list).
Proof.
  revert k results log.
  induction fuel as [|fuel IH]; intros k results log Hf Hk Hlt Hall Hfail; [lia|].
  cbn [embedTexts_loop].
  assert (Hklt : k * BATCH < List.length texts).
  { pose proof BATCH_pos. nia. }
  destruct (Nat.ltb_spec (k * BATCH) (List.length texts)) as [_|Hge]; [|lia].
  unfold bind, call_embeddings. fold (batch texts k).
  destruct (Nat.eq_dec k f) as [->|Hne].
  - rewrite Hfail. replace (S f - f) with 1 by lia. reflexivity.
  - destruct (Hall k (le_n _)) as [data Hd]; [lia|]. rewrite Hd.
    replace (k * BATCH + BATCH) with (S k * BATCH) by (cbn [Nat.mul]; lia).
    rewrite IH; try assumption; try lia.
    + replace (S f - k) with (S (S f - S k)) by lia.
      cbn [seq map]. now rewrite <- app_assoc.
    + pose proof BATCH_pos. cbn [Nat.mul]. lia.
    + intros j Hj Hjf. apply Hall; lia.
Qed.

Lemma batches_concat (texts : list string) (n k : nat) :
  List.length texts - k * BATCH <= n * BATCH ->
  List.concat (map (batch texts) (seq k n)) = skipn (k * BATCH) texts.
Proof.
  revert k; induction n as [|n IH]; intros k H.
  - cbn [seq map List.concat]. symmetry. apply skipn_all2. lia.
  - cbn [seq map List.concat]. rewrite IH by (cbn [Nat.mul] in *; lia).
    unfold batch.
    replace (S k * BATCH) with (BATCH + k * BATCH) by (cbn [Nat.mul]; lia).
    rewrite <- skipn_skipn. apply firstn_skipn.
Qed.

Lemma batch_count_enough (texts : list string) :
  List.length texts <= batch_count texts * BATCH.
Proof.
  unfold batch_count. pose proof BATCH_pos.
  pose proof (Nat.div_mod_eq (List.length texts + (BATCH - 1)) BATCH) as E.
  pose proof (Nat.mod_upper_bound (List.length texts + (BATCH - 1)) BATCH).
  nia.
Qed.

Lemma batch_count_lt (texts : list string) (k : nat) :
  k < batch_count texts <-> k * BATCH < List.length texts.
Proof.
  unfold batch_count. pose proof BATCH_pos.
  pose proof (Nat.div_mod_eq (List.length texts + (BATCH - 1)) BATCH) as E.
  pose proof (Nat.mod_upper_bound (List.length texts + (BATCH - 1)) BATCH).
  split; intros; nia.
Qed.

Lemma length_batch (texts : list string) (k : nat) :
  List.length (batch texts k) = Nat.min BATCH (List.length texts - k * BATCH).
Proof. unfold batch. now rewrite length_firstn, length_skipn. Qed.

(** Either every slice is answered, or some slice is the first that fails. *)
Lemma first_failure (P : Providers) (texts : list string) (n : nat) :
  (forall k, k < n ->
     exists data, embeddings_create P (InputMany (batch texts k)) = Replied data)
  \/ (exists f message,
        f < n
        /\ embeddings_create P (InputMany (batch texts f)) = Failed message
        /\ forall j, j < f ->
             exists data, embeddings_create P (InputMany (batch texts j)) = Replied data).
Proof.
  induction n as [|n [IH|[f [message [Hf [Hfail Hbefore]]]]]].
  - left. intros k Hk. lia.
  - destruct (embeddings_create P (InputMany (batch texts n))) as [data|message] eqn:E.
    + left. intros k Hk. destruct (Nat.eq_dec k n) as [->|Hne]; [eauto|].
      apply IH. lia.
    + right. exists n, message. repeat split; auto.
  - right. exists f, message. repeat split; auto.
Qed.

Lemma embedTexts_replied (P : Providers) (texts : list string) (log : list Call) :
  (forall k, k < batch_count texts ->
     exists data, embeddings_create P (InputMany (batch texts k)) = Replied data) ->
  embedTexts P texts log
  = (Ok (List.concat (map (batch_reply P texts) (seq 0 (batch_count texts)))),
     (log ++ batch_calls texts (batch_count texts))%list).
Proof.
  intros H. unfold embedTexts.
  pose proof (embedTexts_loop_replied P texts (S (List.length texts)) 0 [] log) as E.
  change (0 * BATCH) with 0 in E. rewrite Nat.sub_0_r in E.
  apply E; [lia|].
  intros j _ Hj. apply H. now apply batch_count_lt.
Qed.

Lemma embedTexts_failed (P : Providers) (texts : list string) (log : list Call)
  (f : nat) (message : string) :
  f < batch_count texts ->
  (forall j, j < f ->
     exists data, embeddings_create P (InputMany (batch texts j)) = Replied data) ->
  embeddings_create P (InputMany (batch texts f)) = Failed message ->
  embedTexts P texts log
  = (Throw (ProviderFailure message), (log ++ batch_calls texts (S f))%list).
Proof.
  intros Hf Hbefore Hfail. unfold embedTexts.
  pose proof (embedTexts_loop_failed P texts (S (List.length texts)) 0 f [] log message)
    as E.
  change (0 * BATCH) with 0 in E. rewrite !Nat.sub_0_r in E.
  apply E; auto; try lia.
  now apply batch_count_lt.
Qed.

Lemma In_batch_calls (texts : list string) (n : nat) (c : Call) :
  In c (batch_calls texts n)
  <-> exists k, k < n /\ c = EmbeddingsCreate (InputMany (batch texts k)).
Proof.
  unfold batch_calls. rewrite in_map_iff. split.
  - intros [k [<- Hk]]. apply in_seq in Hk. exists k. split; [lia|reflexivity].
  - intros [k [Hk ->]]. exists k. split; [reflexivity|]. apply in_seq. lia.
Qed.

Lemma batch_calls_succ (texts : list string) (n : nat) :
  batch_calls texts (S n)
  = (batch_calls texts n ++ [EmbeddingsCreate (InputMany (batch texts n))])%list.
Proof.
  unfold batch_calls. now rewrite seq_S, map_app.
Qed.

End EmbedTextsFacts.

Module EmbedTextsClaims.
Import Pipeline Properties Batching EmbedTextsFacts Fixtures Scenarios.

(** X6.  A run of [embedTexts] that returns has sent, one call each and in
    this order, slices that cover the texts: put end to end they are the
    texts, so that every text is sent once.  Every slice holds between 1
    and 10 texts, and every slice but the last holds 10. *)
Theorem batches_cover_the_texts (P : Providers) (texts : list string)
  (log : list Call) (data : list vector) (log' : list Call) :
  embedTexts P texts log = (Ok data, log') ->
  exists slices,
    log' = (log ++ map (fun slice => EmbeddingsCreate (InputMany slice)) slices)%list
    /\ List.concat slices = texts
    /\ Forall (fun slice => 1 <= List.length slice <= 10) slices
    /\ forall k slice,
         nth_error slices k = Some slice -> S k < List.length slices ->
         List.length slice = 10.
Proof.
  intros H.
  destruct (first_failure P texts (batch_count texts))
    as [Hall|[f [message [Hf [Hfail Hbefore]]]]].
  2:{ rewrite (embedTexts_failed P texts log f message Hf Hbefore Hfail) in H.
      discriminate. }
  rewrite (embedTexts_replied P texts log Hall) in H. injection H as _ <-.
  exists (map (batch texts) (seq 0 (batch_count texts))).
  pose proof BATCH_pos as Hpos. change BATCH with 10 in Hpos.
  split; [|split; [|split]].
  - unfold batch_calls. now rewrite map_map.
  - rewrite batches_concat; [reflexivity|].
    pose proof (batch_count_enough texts). lia.
  - apply Forall_forall. intros slice Hin.
    apply in_map_iff in Hin. destruct Hin as [k [<- Hk]].
    apply in_seq in Hk. rewrite length_batch.
    assert (Hlt : k < batch_count texts) by lia.
    apply batch_count_lt in Hlt. change BATCH with 10 in *. lia.
  - intros k slice Hk Hlast.
    rewrite length_map, length_seq in Hlast.
    rewrite nth_error_map in Hk.
    destruct (nth_error (seq 0 (batch_count texts)) k) as [k'|] eqn:Ek;
      [|discriminate].
    injection Hk as <-.
    apply nth_error_nth with (d := 0) in Ek.
    rewrite seq_nth in Ek by lia. cbn [Nat.add] in Ek. subst k'.
    rewrite length_batch. apply batch_count_lt in Hlast.
    change BATCH with 10 in *. cbn [Nat.mul] in Hlast. lia.
Qed.

(** Two texts are sent in one slice. *)
Lemma batches_cover_the_texts_witness :
  exists slices,
    [EmbeddingsCreate (InputMany ["a"; "b"])]
    = map (fun slice => EmbeddingsCreate (InputMany slice)) slices
    /\ List.concat slices = ["a"; "b"].
Proof.
  destruct (batches_cover_the_texts (stub "" "") ["a"; "b"] []
              [[1; 0]%float; [1; 0]%float]
              [EmbeddingsCreate (InputMany ["a"; "b"])] eq_refl)
    as [slices [Hlog [Hcat _]]].
  exists slices. split; assumption.
Defined.
(** X7.  When the embedding back end answers every slice, [embedTexts]
    makes one call per slice, in order, that is the number of texts divided
    by 10, rounded up (none for no text), and returns the vectors of the
    answers put end to end. *)
Theorem embedTexts_calls_and_result (P : Providers) (texts : list string)
  (log : list Call) :
  (forall k, k < batch_count texts ->
     exists data, embeddings_create P (InputMany (batch texts k)) = Replied data) ->
  embedTexts P texts log
  = (Ok (List.concat (map (batch_reply P texts) (seq 0 (batch_count texts)))),
     (log ++ batch_calls texts (batch_count texts))%list)
  /\ List.length (batch_calls texts (batch_count texts))
     = (List.length texts + 9) / 10.
Proof.
  intros H. split; [now apply embedTexts_replied|].
  unfold batch_calls. now rewrite length_map, length_seq.
Qed.

(** Two texts, one slice, one call. *)
Lemma embedTexts_calls_and_result_witness :
  embedTexts (stub "" "") ["a"; "b"] []
  = (Ok [[1; 0]%float; [1; 0]%float], [EmbeddingsCreate (InputMany ["a"; "b"])]).
Proof.
  refine (proj1 (embedTexts_calls_and_result (stub "" "") ["a"; "b"] [] _)).
  intros k _. eexists. reflexivity.
Defined.

(** X8.  The first slice the embedding back end fails on ends
    [embedTexts]: the failure is thrown, the vectors of the slices before
    are dropped, and no later slice is sent. *)
Theorem embedTexts_stops_at_first_failure (P : Providers) (texts : list string)
  (log : list Call) (f : nat) (message : string) :
  f * BATCH < List.length texts ->
  (forall j, j < f ->
     exists data, embeddings_create P (InputMany (batch texts j)) = Replied data) ->
  embeddings_create P (InputMany (batch texts f)) = Failed message ->
  embedTexts P texts log
  = (Throw (ProviderFailure message), (log ++ batch_calls texts (S f))%list).
Proof.
  intros Hf Hbefore Hfail.
  apply embedTexts_failed; auto. now apply batch_count_lt.
Qed.

(** The back end is down: the first call is the only one. *)
Lemma embedTexts_stops_at_first_failure_witness :
  embedTexts embeddings_down ["a"; "b"] []
  = (Throw (ProviderFailure "503 Service Unavailable"),
     [EmbeddingsCreate (InputMany ["a"; "b"])]).
Proof.
  refine (embedTexts_stops_at_first_failure embeddings_down ["a"; "b"] [] 0
            "503 Service Unavailable" _ _ _).
  - cbn. lia.
  - intros j Hj. lia.
  - reflexivity.
Defined.

End EmbedTextsClaims.

(* ===================================================================== *)
(** * [cosine]: the order of the arguments *)
(* ===================================================================== *)

Module CosineFacts.
Import Vector.
#[local] Open Scope float_scope.

Lemma SFmul_comm (x y : spec_float) :
  SFmul prec emax x y = SFmul prec emax y x.
Proof.
  destruct x as [sx|sx| |sx mx ex], y as [sy|sy| |sy my ey]; cbn [SFmul];
    try reflexivity; rewrite (xorb_comm sx sy); try reflexivity.
  now rewrite Pos.mul_comm, Z.add_comm.
Qed.

(** The product of two floats does not depend on their order. *)
Lemma mul_comm (x y : float) : x * y = y * x.
Proof.
  apply Prim2SF_inj. rewrite !mul_spec. apply SFmul_comm.
Qed.

Lemma dot_fold_comm (l : list (float * float)) (acc : float) :
  fold_left (fun s p => s + fst p * snd p) l acc
  = fold_left (fun s p => s + fst p * snd p) (map (fun p => (snd p, fst p)) l) acc.
Proof.
  revert acc; induction l as [|[x y] l IH]; intros acc; [reflexivity|].
  cbn [fold_left map fst snd]. now rewrite (mul_comm x y), IH.
Qed.

Lemma combine_swap {A B : Type} (a : list A) (b : list B) :
  map (fun p => (snd p, fst p)) (combine a b) = combine b a.
Proof.
  revert b; induction a as [|x a IH]; intros [|y b]; cbn; try reflexivity.
  now rewrite IH.
Qed.

Lemma pad_to_same_length (a b : vector) :
  List.length a = List.length b -> pad_to a b = b.
Proof.
  intros H. unfold pad_to. rewrite H, Nat.sub_diag. apply app_nil_r.
Qed.

(** X9.  For two vectors of the same length the score does not depend on
    the order of the arguments, bit for bit: [cosine(a, b)] and
    [cosine(b, a)] are the same number. *)
Theorem cosine_symmetric (a b : vector) :
  List.length a = List.length b -> cosine a b = cosine b a.
Proof.
  intros H. unfold cosine.
  change (reduce (fun s v i => s + v * (nth_error b i ?? 0)) 0 a) with (cosine_dot a b).
  change (reduce (fun s v i => s + v * (nth_error a i ?? 0)) 0 b) with (cosine_dot b a).
  rewrite !VectorClaims.cosine_dot_is_dot_product.
  set (magA := sqrt (reduce (fun s v _ => s + v * v) 0 a)).
  set (magB := sqrt (reduce (fun s v _ => s + v * v) 0 b)).
  rewrite (orb_comm (magB =? 0)), (mul_comm magB magA).
  unfold dot_product. rewrite !pad_to_same_length by auto.
  now rewrite dot_fold_comm, combine_swap.
Qed.

Lemma cosine_symmetric_witness :
  cosine [1; 2] [3; 4] = cosine [3; 4] [1; 2].
Proof.
  apply (cosine_symmetric [1; 2] [3; 4]). reflexivity.
Defined.

End CosineFacts.

(* ===================================================================== *)
(** * Step 5: the chunks that are kept *)
(* ===================================================================== *)

Module RankingFacts.
Import Json Handler Properties FloatKey FloatFacts SortFacts RankingClaims.

Lemma insert_sorted_permutation {A : Type} (compareFn : A -> A -> float) (x : A)
  (l : list A) :
  Permutation (insert_sorted compareFn x l) (x :: l).
Proof.
  induction l as [|y l IH]; cbn [insert_sorted]; [reflexivity|].
  destruct (goes_before compareFn y x); [|reflexivity].
  rewrite IH. apply perm_swap.
Qed.

Lemma sort_permutation {A : Type} (compareFn : A -> A -> float) (l : list A) :
  Permutation (sort compareFn l) l.
Proof.
  induction l as [|x l IH]; cbn [sort]; [reflexivity|].
  rewrite insert_sorted_permutation. now apply perm_skip.
Qed.

Lemma StronglySorted_across {A : Type} (R : A -> A -> Prop) (l1 l2 : list A) :
  StronglySorted R (l1 ++ l2)%list ->
  forall x y, In x l1 -> In y l2 -> R x y.
Proof.
  induction l1 as [|a l1 IH]; intros H x y Hx Hy; [contradiction|].
  cbn [app] in H. apply StronglySorted_inv in H. destruct H as [H Hall].
  destruct Hx as [->|Hx]; [|now apply IH].
  rewrite Forall_forall in Hall. apply Hall. apply in_or_app. now right.
Qed.

End RankingFacts.

Module RankingMore.
Import Json Handler Properties FloatKey FloatFacts SortFacts RankingClaims RankingFacts.
Import Fixtures.

(** X10.  The semantic search keeps the best chunks.  When no score is NaN,
    the scored chunks are the chunks kept and the chunks left out, neither
    more nor fewer (no chunk is kept twice and none is made up), and no
    chunk left out scores more than a chunk kept. *)
Theorem top_k_are_the_best (qEmb : vector) (chunks : list Chunk)
  (top : list ScoredChunk) :
  semantic_search qEmb chunks = Ok top ->
  (forall c e, In c chunks -> embedding c = Some e -> is_nan (cosine qEmb e) = false) ->
  exists scored rest,
    score_chunks qEmb chunks = Ok scored
    /\ map chunk scored = chunks
    /\ Permutation scored (top ++ rest)
    /\ forall t r, In t top -> In r rest -> (score r <=? score t)%float = true.
Proof.
  intros Hsearch Hcos.
  destruct (HandlerFacts.semantic_search_ok _ _ _ Hsearch) as [scored [Hs ->]].
  set (K := Nat.min 6 (List.length chunks)).
  exists scored, (skipn K (sort by_score_desc scored)).
  pose proof (score_chunks_chunks _ _ _ Hs) as Hchunks.
  assert (Hnan : Forall (fun s => is_nan (score s) = false) scored).
  { pose proof (score_chunks_scores _ _ _ Hs) as Hsc.
    rewrite Forall_forall in *. intros s Hin.
    destruct (Hsc s Hin) as [e [He ->]]. apply (Hcos (chunk s)); [|exact He].
    rewrite <- Hchunks. now apply in_map. }
  assert (Hok : forall x, In x (sort by_score_desc scored) -> is_nan (score x) = false).
  { intros x Hx. rewrite Forall_forall in Hnan. apply Hnan. now apply In_sort in Hx. }
  repeat split; auto.
  - rewrite firstn_skipn. symmetry. apply sort_permutation.
  - intros t r Ht Hr.
    assert (Hsorted : StronglySorted (fun x y => (score y <=? score x)%float = true)
                        (firstn K (sort by_score_desc scored)
                         ++ skipn K (sort by_score_desc scored))).
    { rewrite firstn_skipn.
      apply (StronglySorted_weaken
               (fun x y => goes_before by_score_desc y x = false)).
      - intros x y Hx Hy. rewrite goes_before_key by auto.
        rewrite leb_key by auto. lia.
      - apply (sort_sorted by_score_desc (fun s => is_nan (score s) = false)).
        + intros x y Hx Hy. rewrite !goes_before_key by auto. lia.
        + intros x y z Hx Hy Hz. rewrite !goes_before_key by auto. lia.
        + exact Hnan. }
    exact (StronglySorted_across _ _ _ Hsorted t r Ht Hr).
Qed.

(** The three documents of [three_docs]: all three are kept. *)
Lemma top_k_are_the_best_witness :
  exists scored rest,
    score_chunks [1; 0]%float (attach_embeddings three_chunks three_embeddings)
    = Ok scored
    /\ Permutation scored (three_top ++ rest).
Proof.
  destruct (top_k_are_the_best [1; 0]%float
              (attach_embeddings three_chunks three_embeddings) three_top)
    as [scored [rest [H1 [_ [H2 _]]]]].
  - reflexivity.
  - intros c e [<-|[<-|[<-|[]]]] [= <-]; reflexivity.
  - exists scored, rest. split; assumption.
Defined.

End RankingMore.

(* ===================================================================== *)
(** * The model's answer: what is parsed, and what the fallback decides *)
(* ===================================================================== *)

Module BlockFacts.
Import JsString Json Synthesizer Properties HeuristicClaims JsonFacts.

(** Appending strings is associative. *)
Lemma append_assoc (a b c : string) : (a ++ b) ++ c = a ++ b ++ c.
Proof. induction a as [|x a IH]; simpl; [reflexivity|now rewrite IH]. Qed.

Lemma code_eqb (c : ascii) (n : nat) :
  n < 256 -> (code c =? n)%nat = true <-> c = ascii_of_nat n.
Proof.
  intros Hn. unfold code. rewrite Nat.eqb_eq. split.
  - intros <-. symmetry. apply ascii_nat_embedding.
  - intros ->. now apply nat_ascii_embedding.
Qed.

(** Occurrence of a one-character string, step by step. *)
Lemma occurs_char_nil (x : ascii) : ~ occurs (String x "") "".
Proof. intros [[|b before] [after H]]; discriminate. Qed.

Lemma occurs_char_cons (x c : ascii) (s : string) :
  occurs (String x "") (String c s) <-> c = x \/ occurs (String x "") s.
Proof.
  split.
  - intros [[|b before] [after H]]; simpl in H; injection H as -> ->.
    + now left.
    + right. now exists before, after.
  - intros [->|[before [after ->]]].
    + now exists "", s.
    + now exists (String c before), after.
Qed.

Lemma from_first_open_none (s : string) :
  from_first_open s = None <-> ~ occurs "{" s.
Proof.
  induction s as [|c s IH]; simpl.
  - split; [intros _; apply occurs_char_nil|reflexivity].
  - rewrite occurs_char_cons.
    destruct (code c =? 123)%nat eqn:E.
    + apply (code_eqb c 123) in E; [|lia]. split; [discriminate|].
      intros H. exfalso. apply H. now left.
    + assert (c <> "{"%char).
      { intros ->. discriminate. }
      rewrite IH. tauto.
Qed.

Lemma upto_last_close_none (s : string) :
  upto_last_close s = None <-> ~ occurs "}" s.
Proof.
  induction s as [|c s IH]; simpl.
  - split; [intros _; apply occurs_char_nil|reflexivity].
  - rewrite occurs_char_cons.
    destruct (upto_last_close s) as [p|].
    + split; [discriminate|]. intros H. exfalso.
      assert (Hs : ~ occurs "}" s) by tauto.
      apply IH in Hs. discriminate.
    + destruct (code c =? 125)%nat eqn:E.
      * apply (code_eqb c 125) in E; [|lia]. split; [discriminate|].
        intros H. exfalso. apply H. now left.
      * assert (c <> "}"%char) by (intros ->; discriminate).
        assert (~ occurs "}" s) by now apply IH.
        tauto.
Qed.

Lemma from_first_open_some (s t : string) :
  from_first_open s = Some t
  <-> exists pre r, s = pre ++ t /\ t = String "{" r /\ ~ occurs "{" pre.
Proof.
  split.
  - revert t; induction s as [|c s IH]; intros t; simpl; [discriminate|].
    destruct (code c =? 123)%nat eqn:E.
    + apply (code_eqb c 123) in E; [|lia]. subst c. intros [= <-].
      exists "", s. repeat split. apply occurs_char_nil.
    + intros H. destruct (IH _ H) as [pre [r [-> [-> Hpre]]]].
      exists (String c pre), r. repeat split.
      rewrite occurs_char_cons. intros [->|H']; [discriminate|tauto].
  - intros [pre [r [-> [-> Hpre]]]].
    induction pre as [|c pre IH]; [reflexivity|].
    rewrite occurs_char_cons in Hpre.
    change (String c pre ++ String "{" r) with (String c (pre ++ String "{" r)).
    cbn [from_first_open].
    destruct (code c =? 123)%nat eqn:E.
    + apply (code_eqb c 123) in E; [|lia]. tauto.
    + apply IH. tauto.
Qed.

Lemma upto_last_close_some (s p : string) :
  upto_last_close s = Some p
  <-> exists q post, s = p ++ post /\ p = q ++ "}" /\ ~ occurs "}" post.
Proof.
  split.
  - revert p; induction s as [|c s IH]; intros p; simpl; [discriminate|].
    destruct (upto_last_close s) as [p'|] eqn:Es.
    + intros [= <-]. destruct (IH _ eq_refl) as [q [post [-> [-> Hpost]]]].
      exists (String c q), post. repeat split. exact Hpost.
    + destruct (code c =? 125)%nat eqn:E; [|discriminate].
      apply (code_eqb c 125) in E; [|lia]. subst c. intros [= <-].
      exists "", s. repeat split. now apply upto_last_close_none.
  - intros [q [post [-> [-> Hpost]]]].
    apply upto_last_close_none in Hpost.
    induction q as [|c q IH]; simpl.
    + now rewrite Hpost.
    + simpl in IH. now rewrite IH.
Qed.

(** The match runs from the first opening brace to the last closing brace. *)
Lemma match_json_block_spec (llmText block : string) :
  match_json_block llmText = Some block
  <-> exists pre inner post,
        llmText = pre ++ block ++ post
        /\ block = "{" ++ inner ++ "}"
        /\ ~ occurs "{" pre
        /\ ~ occurs "}" post.
Proof.
  unfold match_json_block. split.
  - destruct (from_first_open llmText) as [t|] eqn:Et; [|discriminate].
    intros Hp.
    apply from_first_open_some in Et. destruct Et as [pre [r [-> [-> Hpre]]]].
    apply upto_last_close_some in Hp. destruct Hp as [q [post [E [-> Hpost]]]].
    destruct q as [|c q].
    + simpl in E. discriminate.
    + simpl in E. injection E as <- E.
      exists pre, q, post. repeat split; auto.
      simpl. now rewrite E.
  - intros [pre [inner [post [-> [-> [Hpre Hpost]]]]]].
    assert (Et : from_first_open (pre ++ ("{" ++ inner ++ "}") ++ post)
                 = Some (("{" ++ inner ++ "}") ++ post)).
    { apply from_first_open_some. exists pre, ((inner ++ "}") ++ post).
      repeat split; auto. }
    rewrite Et. apply upto_last_close_some.
    exists ("{" ++ inner), post. repeat split; auto.
Qed.

Lemma from_first_open_suffix (a u t : string) :
  from_first_open (a ++ "{" ++ u) = Some t -> exists v, t = v ++ u.
Proof.
  induction a as [|c a IH]; simpl.
  - intros [= <-]. now exists "{".
  - destruct (code c =? 123)%nat.
    + intros [= <-]. exists (String c (a ++ "{")).
      simpl. now rewrite append_assoc.
    + exact IH.
Qed.

End BlockFacts.

Module BlockClaims.
Import JsString Json Synthesizer Properties JsonFacts BlockFacts.

(** X11.  What is parsed out of the model's text is the part from its
    first opening brace to its last closing brace: text before that holds no
    opening brace and text after that holds no closing brace is ignored. *)
Theorem surrounding_text_is_ignored (llmText pre inner post : string) :
  llmText = pre ++ "{" ++ inner ++ "}" ++ post ->
  ~ occurs "{" pre ->
  ~ occurs "}" post ->
  match_json_block llmText = Some ("{" ++ inner ++ "}")
  /\ parse_llm llmText = JSON_parse ("{" ++ inner ++ "}").
Proof.
  intros -> Hpre Hpost.
  assert (Hm : match_json_block (pre ++ "{" ++ inner ++ "}" ++ post)
               = Some ("{" ++ inner ++ "}")).
  { apply match_json_block_spec. exists pre, inner, post.
    repeat split; auto. f_equal. cbn [append]. f_equal.
    now rewrite append_assoc. }
  split; [exact Hm|]. unfold parse_llm. now rewrite Hm.
Qed.

Lemma surrounding_text_is_ignored_witness :
  match_json_block "Answer: {} Thanks" = Some "{}"
  /\ parse_llm "Answer: {} Thanks" = JSON_parse "{}".
Proof.
  refine (surrounding_text_is_ignored "Answer: {} Thanks" "Answer: " "" " Thanks" _ _ _).
  - reflexivity.
  - apply from_first_open_none. reflexivity.
  - apply upto_last_close_none. reflexivity.
Defined.

(** X12.  The expression finds no block in the model's text exactly when
    no opening brace of the text has a closing brace after it; the handler
    then skips [JSON.parse] and builds the fallback. *)
Theorem match_json_block_none (llmText : string) :
  (match_json_block llmText = None
   <-> ~ exists a b c, llmText = a ++ "{" ++ b ++ "}" ++ c)
  /\ (match_json_block llmText = None ->
      forall top, synthesize top llmText = Ok (fallback top llmText)).
Proof.
  split.
  2:{ intros H top. unfold synthesize, parse_llm. now rewrite H. }
  unfold match_json_block. split.
  - intros H [a [b [c ->]]].
    destruct (from_first_open (a ++ "{" ++ b ++ "}" ++ c)) as [t|] eqn:Et.
    + destruct (from_first_open_suffix _ _ _ Et) as [v ->].
      apply upto_last_close_none in H. apply H.
      exists (v ++ b), c. now rewrite append_assoc.
    + apply from_first_open_none in Et. apply Et.
      now exists a, (b ++ "}" ++ c).
  - intros H.
    destruct (from_first_open llmText) as [t|] eqn:Et; [|reflexivity].
    destruct (upto_last_close t) as [p|] eqn:Ep; [|reflexivity].
    exfalso. apply H.
    assert (Hm : match_json_block llmText = Some p)
      by (unfold match_json_block; now rewrite Et).
    apply match_json_block_spec in Hm.
    destruct Hm as [pre [inner [post [-> [-> _]]]]].
    exists pre, inner, post. now rewrite !append_assoc.
Qed.

End BlockClaims.

Module HeuristicMore.
Import JsString Json Synthesizer Properties HeuristicClaims JsonFacts BlockFacts.
Import Scenarios.

Lemma occurs_inside (k k' s : string) :
  occurs k' k -> occurs k s -> occurs k' s.
Proof.
  intros [b1 [a1 ->]] [b2 [a2 ->]].
  exists (b2 ++ b1), (a1 ++ a2).
  now rewrite !append_assoc.
Qed.

Lemma occurs_join (k sep p : string) (parts : list string) :
  In p parts -> occurs k p -> occurs k (join sep parts).
Proof.
  intros Hin Hk. induction parts as [|x parts IH]; [contradiction|].
  destruct Hin as [->|Hin].
  - destruct parts as [|y parts]; [exact Hk|].
    change (join sep (p :: y :: parts)) with (p ++ sep ++ join sep (y :: parts)).
    destruct Hk as [b [a ->]].
    exists b, (a ++ sep ++ join sep (y :: parts)).
    now rewrite !append_assoc.
  - specialize (IH Hin). destruct parts as [|y parts]; [contradiction|].
    change (join sep (x :: y :: parts)) with (x ++ sep ++ join sep (y :: parts)).
    destruct IH as [b [a E]].
    exists (x ++ sep ++ b), a. rewrite E. now rewrite !append_assoc.
Qed.

(** X13.  Two rejection keywords can never make the fallback reject: when
    the text of a top chunk holds [not covered] or [not eligible], in any
    letter case, the approval keyword [covered] or [eligible] is found in
    it as well, and the decision of the fallback is [maybe]. *)
Theorem negated_keyword_gives_maybe (top : list ScoredChunk) (llmText : string)
  (t : ScoredChunk) :
  parse_llm llmText = None ->
  In t top ->
  occurs "not covered" (toLowerCase (text (chunk t)))
  \/ occurs "not eligible" (toLowerCase (text (chunk t))) ->
  exists results,
    synthesize top llmText = Ok results
    /\ field "decision" results = Some (JStr "maybe").
Proof.
  intros Hp Hin Hk. unfold synthesize. rewrite Hp.
  eexists; split; [reflexivity|]. cbn [fallback field lookup String.eqb Ascii.eqb Bool.eqb].
  simpl. do 2 f_equal.
  set (joined := joined_text top).
  assert (Hj : forall k, occurs k (toLowerCase (text (chunk t))) -> occurs k joined).
  { intros k H. unfold joined, joined_text.
    apply (occurs_join k " " (toLowerCase (text (chunk t)))); [|exact H].
    apply (in_map (fun t => toLowerCase (text (chunk t)))), Hin. }
  assert (HR : some_occurs rejectKeywords joined).
  { destruct Hk as [H|H]; [exists "not covered"|exists "not eligible"];
      (split; [simpl; tauto|apply Hj, H]). }
  assert (HA : some_occurs approveKeywords joined).
  { destruct Hk as [H|H]; [exists "covered"|exists "eligible"];
      (split; [simpl; tauto|]); apply Hj; refine (occurs_inside _ _ _ _ H).
    - now exists "not ", "".
    - now exists "not ", "". }
  apply (proj2 (proj2 (heuristic_decision_cases joined))); tauto.
Qed.

Lemma negated_keyword_gives_maybe_witness :
  exists results,
    synthesize [not_covered_chunk] "no answer" = Ok results
    /\ field "decision" results = Some (JStr "maybe").
Proof.
  refine (negated_keyword_gives_maybe [not_covered_chunk] "no answer"
            not_covered_chunk _ _ _).
  - reflexivity.
  - left; reflexivity.
  - left. now exists "dental care is ", ".".
Defined.

End HeuristicMore.

Module AnswerRepair.
Import JsString Json Synthesizer Properties HeuristicClaims JsonFacts.
Import Fixtures.

Lemma repair_entry_throws (top : list ScoredChunk) (i : nat) (j : json) (e : Exn) :
  repair_entry top i j = Throw e <-> j = JNull /\ e = TypeError.
Proof.
  unfold repair_entry. destruct j; simpl; split;
    try discriminate; try (intros [H _]; discriminate).
  - intros [= <-]. auto.
  - intros [_ ->]. reflexivity.
Qed.

Lemma mapi_result_from_throws {A B : Type} (f : nat -> A -> Result B) (l : list A)
  (i : nat) (e : Exn) :
  (forall n x, f n x <> Hang) ->
  mapi_result_from i f l = Throw e ->
  exists n x, nth_error l n = Some x /\ f (i + n) x = Throw e.
Proof.
  intros Hf. revert i; induction l as [|x l IH]; intros i; simpl; [discriminate|].
  destruct (f i x) as [y|e'|] eqn:E; simpl.
  - destruct (mapi_result_from (S i) f l) as [ys|e'|] eqn:El; simpl; try discriminate.
    intros [= ->]. destruct (IH _ El) as [n [x' [Hn Hx]]].
    exists (S n), x'. split; [exact Hn|]. now rewrite Nat.add_succ_r.
  - intros [= ->]. exists 0, x. split; [reflexivity|]. now rewrite Nat.add_0_r.
  - discriminate.
Qed.

(** An exception of [synthesize] is a [TypeError]. *)
Lemma synthesize_throw_is_type_error (top : list ScoredChunk) (llmText : string)
  (e : Exn) :
  synthesize top llmText = Throw e -> e = TypeError.
Proof.
  unfold synthesize.
  destruct (parse_llm llmText) as [parsed|] eqn:Hp; [|discriminate].
  destruct (parse_llm_object _ _ Hp) as [fields ->].
  cbn [truthy repair get_prop rbind].
  destruct (lookup "justification" fields) as [[| | | |entries|]|]; try discriminate.
  unfold mapi_result.
  destruct (mapi_result_from 0 (repair_entry top) entries) as [out|e'|] eqn:Hm;
    cbn [rbind]; try discriminate.
  intros [= ->].
  destruct (mapi_result_from_throws _ _ _ _
              (HandlerTotality.repair_entry_never_hangs top) Hm)
    as [n [j [_ Hthrow]]].
  now apply repair_entry_throws in Hthrow.
Qed.

(** X14.  Building the result throws in one case only: the parsed object
    has a justification array with a [null] entry, whose [clause] cannot be
    read.  The exception is a [TypeError] (the handler answers 500); every
    other text of the model gives a result. *)
Theorem synthesize_throws_on_null_entry (top : list ScoredChunk) (llmText : string)
  (e : Exn) :
  synthesize top llmText = Throw e
  <-> e = TypeError
      /\ exists fields entries,
           parse_llm llmText = Some (JObj fields)
           /\ lookup "justification" fields = Some (JArr entries)
           /\ In JNull entries.
Proof.
  unfold synthesize. split.
  - destruct (parse_llm llmText) as [parsed|] eqn:Hp; [|discriminate].
    destruct (parse_llm_object _ _ Hp) as [fields ->].
    cbn [truthy repair get_prop rbind].
    destruct (lookup "justification" fields) as [[| | | |entries|]|] eqn:Hj;
      try discriminate.
    unfold mapi_result.
    destruct (mapi_result_from 0 (repair_entry top) entries) as [out|e'|] eqn:Hm;
      cbn [rbind]; try discriminate.
    intros [= ->].
    destruct (mapi_result_from_throws _ _ _ _ (HandlerTotality.repair_entry_never_hangs top) Hm)
      as [n [j [Hn Hthrow]]].
    apply repair_entry_throws in Hthrow. destruct Hthrow as [-> ->].
    split; [reflexivity|]. exists fields, entries. repeat split; auto.
    eapply nth_error_In; eauto.
  - intros [-> [fields [entries [-> [Hj Hin]]]]].
    cbn [truthy repair get_prop rbind]. rewrite Hj.
    unfold mapi_result.
    destruct (mapi_result_from 0 (repair_entry top) entries) as [out|e'|] eqn:Hm;
      cbn [rbind].
    + exfalso. destruct (In_nth_error _ _ Hin) as [n Hn].
      destruct (mapi_result_from_spec _ _ _ _ Hm) as [Hlen Hall].
      destruct (nth_error out n) as [y|] eqn:Hy.
      * specialize (Hall n JNull y Hn Hy). discriminate.
      * apply nth_error_None in Hy.
        assert (n < List.length entries) by (apply nth_error_Some; congruence).
        lia.
    + destruct (mapi_result_from_throws _ _ _ _ (HandlerTotality.repair_entry_never_hangs top) Hm)
        as [n [j [Hn Hthrow]]].
      apply repair_entry_throws in Hthrow. destruct Hthrow as [_ ->]. reflexivity.
    + exfalso.
      exact (HandlerTotality.mapi_result_from_never_hangs _ _ _
               (HandlerTotality.repair_entry_never_hangs top) Hm).
Qed.

(** X15.  When the model's text parses, every field of the parsed object
    but the justification is returned as it was parsed: the amount, the
    explanation and any key the model adds are neither checked nor
    changed. *)
Theorem parsed_fields_pass_through (top : list ScoredChunk) (llmText : string)
  (parsed results : json) (k : string) :
  parse_llm llmText = Some parsed ->
  synthesize top llmText = Ok results ->
  k <> "justification" ->
  field k results = field k parsed.
Proof.
  intros Hp Hs Hk.
  destruct (synthesize_cases _ _ _ Hs)
    as [[Hnone _]|[fields [Hsome [[entries [repaired [_ [_ ->]]]]|[_ ->]]]]];
    try congruence;
    rewrite Hsome in Hp; injection Hp as <-; cbn [field];
    now apply lookup_obj_set_other.
Qed.

(** The decision [banana] of [banana_reply] is returned. *)
Lemma parsed_fields_pass_through_witness :
  exists results,
    synthesize [covered_chunk] banana_reply = Ok results
    /\ field "decision" results = Some (JStr "banana").
Proof.
  eexists. split; [reflexivity|].
  rewrite (parsed_fields_pass_through [covered_chunk] banana_reply
             (JObj [("decision", JStr "banana")]) _ "decision");
    [reflexivity|reflexivity|reflexivity|discriminate].
Defined.

End AnswerRepair.

(* ===================================================================== *)
(** * The handler: its responses and its calls *)
(* ===================================================================== *)

Module HandlerRuns.
Import JsString Json Handler Properties Batching EmbedTextsFacts Requests Layout LayoutFacts.

(** [answer], outcome by outcome. *)
Lemma answer_cases (P : Providers) (query : string) (items : list DocRef)
  (chunks : list Chunk) (log : list Call) :
  answer P query items chunks log
  = match embedTexts P (map text chunks) log with
    | (Ok embeddings, log1) =>
        let log2 := (log1 ++ [EmbeddingsCreate (InputOne query)])%list in
        match embeddings_create P (InputOne query) with
        | Failed message => (Throw (ProviderFailure message), log2)
        | Replied [] => (Throw TypeError, log2)
        | Replied (qEmb :: _) =>
            match semantic_search qEmb (attach_embeddings chunks embeddings) with
            | Ok top =>
                let log3 := (log2 ++ [ChatCompletionsCreate (prompt P query top)])%list in
                match chat_completions_create P (prompt P query top) with
                | Failed message => (Throw (ProviderFailure message), log3)
                | Replied completion =>
                    match synthesize top (llmText_of completion) with
                    | Ok parsed =>
                        (Ok (Status200
                               {| meta := {| chunks_indexed := List.length chunks;
                                             top_k := List.length top;
                                             model := model_name;
                                             timestamp := now P |};
                                  input_query := query;
                                  input_documents := items;
                                  results := parsed |}), log3)
                    | Throw e => (Throw e, log3)
                    | Hang => (Hang, log3)
                    end
                end
            | Throw e => (Throw e, log2)
            | Hang => (Hang, log2)
            end
        end
    | (Throw e, log1) => (Throw e, log1)
    | (Hang, log1) => (Hang, log1)
    end.
Proof.
  unfold answer, retrieve, bind.
  destruct (embedTexts P (map text chunks) log) as [[embeddings|e|] log1];
    try reflexivity.
  unfold call_embeddings.
  destruct (embeddings_create P (InputOne query)) as [[|qEmb rest]|message];
    try reflexivity.
  unfold lift.
  destruct (semantic_search qEmb (attach_embeddings chunks embeddings)) as [top|e|];
    try reflexivity.
  unfold ret, call_chat.
  destruct (chat_completions_create P (prompt P query top)) as [completion|message];
    reflexivity.
Qed.

(** What [embedTexts] does, in both cases. *)
Lemma embedTexts_outcome (P : Providers) (texts : list string) (log : list Call) :
  ((forall k, k < batch_count texts ->
      exists data, embeddings_create P (InputMany (batch texts k)) = Replied data)
   /\ embedTexts P texts log
      = (Ok (List.concat (map (batch_reply P texts) (seq 0 (batch_count texts)))),
         (log ++ batch_calls texts (batch_count texts))%list))
  \/ (exists f message,
        (forall j, j < f ->
           exists data, embeddings_create P (InputMany (batch texts j)) = Replied data)
        /\ embeddings_create P (InputMany (batch texts f)) = Failed message
        /\ embedTexts P texts log
           = (Throw (ProviderFailure message), (log ++ batch_calls texts (S f))%list)).
Proof.
  destruct (first_failure P texts (batch_count texts))
    as [H|[f [message [Hf [Hfail Hbefore]]]]].
  - left. split; [exact H|]. now apply embedTexts_replied.
  - right. exists f, message. repeat split; auto. now apply embedTexts_failed.
Qed.

(** A request that passes the two checks, with its chunks. *)
Lemma hackrx_run_checked (P : Providers) (body : Body) :
  missing_documents body = false -> missing_query body = false ->
  exists d q,
    documents body = Some d /\ query body = Some q
    /\ hackrx_run P body
       = match List.concat
                 (mapi (fun di doc => map (chunk_at di doc) (seq 0 (chunk_count doc)))
                    (map (fetchAndExtract P) (as_array d))) with
         | [] => (Some (Status400 "No extractable text found in documents."), [])
         | chunks =>
             match answer P q (as_array d) chunks [] with
             | (Ok response, log) => (Some response, log)
             | (Throw e, log) => (Some (Status500 e), log)
             | (Hang, log) => (None, log)
             end
         end.
Proof.
  unfold missing_documents, missing_query, hackrx_run.
  destruct (documents body) as [d|]; [|discriminate].
  destruct (query body) as [q|]; [|intros _; discriminate].
  intros -> ->. exists d, q. repeat split.
  rewrite build_chunks_closed_form. destruct (List.concat _); reflexivity.
Qed.

Lemma chunks_nil_iff (docs : list Doc) :
  List.concat (mapi (fun di doc => map (chunk_at di doc) (seq 0 (chunk_count doc))) docs)
  = [] <-> docs = [].
Proof.
  split; [|intros ->; reflexivity].
  destruct docs as [|doc docs]; [reflexivity|].
  unfold mapi. cbn [mapi_from List.concat]. unfold chunk_count.
  rewrite Nat.add_1_r. cbn [seq map app]. discriminate.
Qed.

Lemma as_array_nil (d : Documents) : as_array d = [] <-> d = DocArray [].
Proof.
  destruct d as [item|items]; simpl; split; try discriminate; congruence.
Qed.

Lemma answer_response (P : Providers) (query : string) (items : list DocRef)
  (chunks : list Chunk) (log log' : list Call) (response : Response) :
  answer P query items chunks log = (Ok response, log') ->
  exists env, response = Status200 env.
Proof.
  rewrite answer_cases.
  destruct (embedTexts P (map text chunks) log) as [[embeddings|e|] log1];
    try discriminate.
  cbv zeta.
  destruct (embeddings_create P (InputOne query)) as [[|qEmb rest]|message];
    try discriminate.
  destruct (semantic_search qEmb (attach_embeddings chunks embeddings)) as [top|e|];
    try discriminate.
  destruct (chat_completions_create P (prompt P query top)) as [completion|message];
    try discriminate.
  destruct (synthesize top (llmText_of completion)); try discriminate.
  intros [= <- _]. eauto.
Qed.

Lemma chat_calls_app (l1 l2 : list Call) :
  chat_calls (l1 ++ l2) = (chat_calls l1 ++ chat_calls l2)%list.
Proof. apply filter_app. Qed.

Lemma chat_calls_batch_calls (texts : list string) (n : nat) :
  chat_calls (batch_calls texts n) = [].
Proof.
  unfold batch_calls, chat_calls.
  induction (seq 0 n) as [|k l IH]; [reflexivity|exact IH].
Qed.

(** A run that gets past the checks and has chunks. *)
Lemma hackrx_run_answer (P : Providers) (body : Body) (response : option Response)
  (log : list Call) :
  hackrx_run P body = (response, log) ->
  log <> [] ->
  exists d q chunks,
    documents body = Some d /\ query body = Some q
    /\ build_chunks (map (fetchAndExtract P) (as_array d)) = Ok chunks
    /\ chunks <> []
    /\ match answer P q (as_array d) chunks [] with
       | (Ok r, log') => response = Some r /\ log = log'
       | (Throw e, log') => response = Some (Status500 e) /\ log = log'
       | (Hang, log') => response = None /\ log = log'
       end.
Proof.
  intros H Hlog.
  destruct (missing_documents body) eqn:Hd.
  { exfalso. apply Hlog. unfold missing_documents in Hd. unfold hackrx_run in H.
    destruct (documents body) as [d|]; [rewrite Hd in H|]; congruence. }
  destruct (missing_query body) eqn:Hq.
  { exfalso. apply Hlog. unfold missing_documents in Hd. unfold missing_query in Hq.
    unfold hackrx_run in H.
    destruct (documents body) as [d|]; [|discriminate]. rewrite Hd in H.
    destruct (query body) as [q|]; [rewrite Hq in H|]; congruence. }
  destruct (hackrx_run_checked P body Hd Hq) as [d [q [Ed [Eq E]]]].
  rewrite E in H. exists d, q.
  destruct (List.concat _) as [|c chunks] eqn:Ec; [congruence|].
  exists (c :: chunks). rewrite build_chunks_closed_form, Ec.
  repeat split; auto; [discriminate|].
  destruct (answer P q (as_array d) (c :: chunks) []) as [[r|e|] log'];
    injection H as <- <-; auto.
Qed.

Lemma status_200_has_calls (P : Providers) (body : Body) (env : Envelope) :
  hackrx_run P body <> (Some (Status200 env), []).
Proof.
  intros H.
  destruct (HandlerFacts.hackrx_run_200 _ _ _ _ H)
    as [d [q [chunks [top [log1 [completion [_ [_ [_ [Hr _]]]]]]]]]].
  unfold hackrx_run in H.
  destruct (documents body) as [d'|]; [|discriminate].
  destruct (falsy_documents d'); [discriminate|].
  destruct (query body) as [q'|]; [|discriminate].
  destruct (String.eqb q' ""); [discriminate|].
  destruct (build_chunks _) as [[|c cs]|e|]; try discriminate.
  rewrite answer_cases in H.
  destruct (embedTexts P _ []) as [[embeddings|e|] l1]; try discriminate.
  cbv zeta in H.
  destruct (embeddings_create P (InputOne q')) as [[|qEmb rest]|message];
    try (injection H as _ H; destruct l1; discriminate).
  destruct (semantic_search qEmb _) as [top'|e|];
    try (injection H as _ H; destruct l1; discriminate).
  destruct (chat_completions_create P _) as [completion'|message];
    try (injection H as _ H; destruct l1; discriminate).
  destruct (synthesize top' _);
    try (injection H as _ H; destruct l1; discriminate).
Qed.

Lemma nth_error_mapi_from {A B : Type} (f : nat -> A -> B) (l : list A) (i n : nat) :
  nth_error (mapi_from i f l) n = option_map (f (i + n)) (nth_error l n).
Proof.
  revert i n; induction l as [|x l IH]; intros i [|n]; cbn [mapi_from nth_error option_map];
    try reflexivity.
  - now rewrite Nat.add_0_r.
  - rewrite IH. now rewrite Nat.add_succ_r.
Qed.

Lemma score_chunks_throws (qEmb : vector) (chunks : list Chunk) (c : Chunk) :
  In c chunks -> embedding c = None -> score_chunks qEmb chunks = Throw TypeError.
Proof.
  unfold score_chunks, mapi_result. generalize 0.
  induction chunks as [|x chunks IH]; intros i Hin Hc; [contradiction|].
  cbn [mapi_result_from].
  destruct (embedding x) as [e|] eqn:Ex; cbn [rbind]; [|reflexivity].
  destruct Hin as [->|Hin]; [congruence|].
  now rewrite (IH (S i) Hin Hc).
Qed.

(** With fewer vectors than chunks, some chunk has no embedding and the
    scoring throws. *)
Lemma semantic_search_short (qEmb : vector) (chunks : list Chunk)
  (embeddings : list vector) :
  List.length embeddings < List.length chunks ->
  semantic_search qEmb (attach_embeddings chunks embeddings) = Throw TypeError.
Proof.
  intros H. unfold semantic_search.
  destruct (nth_error chunks (List.length embeddings)) as [c|] eqn:Ec.
  2:{ apply nth_error_None in Ec. lia. }
  rewrite (score_chunks_throws qEmb _
             {| text := text c; source := source c; doc_index := doc_index c;
                chunk_index := chunk_index c; embedding := None |});
    [reflexivity| |reflexivity].
  apply (nth_error_In _ (List.length embeddings)).
  unfold attach_embeddings, mapi. rewrite nth_error_mapi_from, Ec.
  cbn [option_map Nat.add]. do 2 f_equal. apply nth_error_None. lia.
Qed.

(** With fewer vectors than chunks, the chunk behind the last vector gets
    no embedding. *)
Lemma attach_embeddings_short (chunks : list Chunk) (embeddings : list vector) :
  List.length embeddings < List.length chunks ->
  exists c, In c (attach_embeddings chunks embeddings) /\ embedding c = None.
Proof.
  intros H.
  destruct (nth_error chunks (List.length embeddings)) as [c|] eqn:Ec.
  2:{ apply nth_error_None in Ec. lia. }
  exists {| text := text c; source := source c; doc_index := doc_index c;
            chunk_index := chunk_index c; embedding := None |}.
  split; [|reflexivity].
  apply (nth_error_In _ (List.length embeddings)).
  unfold attach_embeddings, mapi. rewrite nth_error_mapi_from, Ec.
  cbn [option_map Nat.add]. do 2 f_equal. apply nth_error_None. lia.
Qed.

Lemma chunk_count_pos (docs : list Doc) :
  List.length docs <= list_sum (map chunk_count docs).
Proof.
  induction docs as [|doc docs IH]; [reflexivity|].
  change (list_sum (map chunk_count (doc :: docs)))
    with (chunk_count doc + list_sum (map chunk_count docs)).
  cbn [List.length].
  assert (1 <= chunk_count doc)
    by (unfold chunk_count; rewrite Nat.add_1_r; apply le_n_S, Nat.le_0_l).
  lia.
Qed.

(** An exception of the semantic search is a [TypeError]. *)
Lemma semantic_search_throw_is_type_error (qEmb : vector) (chunks : list Chunk)
  (e : Exn) :
  semantic_search qEmb chunks = Throw e -> e = TypeError.
Proof.
  unfold semantic_search, score_chunks, mapi_result. generalize 0.
  induction chunks as [|c chunks IH]; intros i; [discriminate|].
  cbn [mapi_result_from].
  destruct (embedding c); cbn [rbind]; [|now intros [= <-]].
  specialize (IH (S i)).
  destruct (mapi_result_from (S i) _ chunks); cbn [rbind] in *; try discriminate.
  exact IH.
Qed.

End HandlerRuns.

Module HandlerClaims.
Import JsString Json Handler Properties Batching EmbedTextsFacts Requests Layout
  LayoutFacts HandlerRuns.
Import Fixtures Scenarios.

(** X16.  The handler answers 400 in three cases, told apart by the
    message: [documents] is missing or falsy; else [query] is missing or
    empty; else [documents] is an empty array, the one case in which no
    extractable text is reported.  Neither the embedding nor the chat back
    end is called before a 400. *)
Theorem status_400_reasons (P : Providers) (body : Body) (message : string) :
  (fst (hackrx_run P body) = Some (Status400 message)
   <-> (missing_documents body = true
        /\ message = "Missing 'documents' (URL or array) in request body.")
       \/ (missing_documents body = false /\ missing_query body = true
           /\ message = "Missing 'query' in request body.")
       \/ (missing_query body = false /\ documents body = Some (DocArray [])
           /\ message = "No extractable text found in documents."))
  /\ (fst (hackrx_run P body) = Some (Status400 message) ->
      snd (hackrx_run P body) = []).
Proof.
  destruct (missing_documents body) eqn:Hd.
  { assert (E : hackrx_run P body
                = (Some (Status400 "Missing 'documents' (URL or array) in request body."),
                   [])).
    { unfold missing_documents in Hd. unfold hackrx_run.
      destruct (documents body) as [d|]; [|reflexivity]. now rewrite Hd. }
    rewrite E. cbn [fst snd]. split; [|reflexivity]. split.
    - intros [= <-]. left. auto.
    - intros [[_ ->]|[[H _]|[_ [H _]]]]; try reflexivity; try discriminate.
      unfold missing_documents in Hd. rewrite H in Hd. discriminate. }
  destruct (missing_query body) eqn:Hq.
  { assert (E : hackrx_run P body
                = (Some (Status400 "Missing 'query' in request body."), [])).
    { unfold missing_documents in Hd. unfold missing_query in Hq. unfold hackrx_run.
      destruct (documents body) as [d|]; [|discriminate]. rewrite Hd.
      destruct (query body) as [q|]; [|reflexivity]. now rewrite Hq. }
    rewrite E. cbn [fst snd]. split; [|reflexivity]. split.
    - intros [= <-]. right. left. auto.
    - intros [[H _]|[[_ [_ ->]]|[H _]]]; try reflexivity; discriminate. }
  destruct (hackrx_run_checked P body Hd Hq) as [d [q [Ed [Eq ->]]]].
  destruct (List.concat _) as [|c chunks] eqn:Ec.
  - apply chunks_nil_iff in Ec. apply map_eq_nil, as_array_nil in Ec. subst d.
    cbn [fst snd]. split; [|reflexivity]. split.
    + intros [= <-]. right. right. auto.
    + intros [[H _]|[[_ [H _]]|[_ [_ ->]]]]; try reflexivity; discriminate.
  - assert (Hne : d <> DocArray []).
    { intros ->. discriminate. }
    destruct (answer P q (as_array d) (c :: chunks) []) as [[response|e|] log] eqn:Ea;
      cbn [fst snd].
    + destruct (answer_response _ _ _ _ _ _ _ Ea) as [env ->].
      split; [|discriminate]. split; [discriminate|].
      intros [[H _]|[[_ [H _]]|[_ [H _]]]]; try discriminate. congruence.
    + split; [|discriminate]. split; [discriminate|].
      intros [[H _]|[[_ [H _]]|[_ [H _]]]]; try discriminate. congruence.
    + split; [|discriminate]. split; [discriminate|].
      intros [[H _]|[[_ [H _]]|[_ [H _]]]]; try discriminate. congruence.
Qed.



(** X18.  A call a back end fails on is the last call of the request, and
    the response is 500 with the error of that failure; when an embeddings
    call fails, the chat back end is not called at all. *)
Theorem failed_call_ends_the_request (P : Providers) (body : Body)
  (response : option Response) (log : list Call) (c : Call) (message : string) :
  hackrx_run P body = (response, log) ->
  In c log ->
  call_failed P c message ->
  response = Some (Status500 (ProviderFailure message))
  /\ (exists before, log = (before ++ [c])%list)
  /\ (forall input, c = EmbeddingsCreate input -> chat_calls log = []).
Proof.
  intros H Hin Hfail.
  assert (Hlog : log <> []) by (intros ->; contradiction).
  destruct (hackrx_run_answer _ _ _ _ H Hlog) as [d [q [chunks [_ [_ [_ [_ Ha]]]]]]].
  rewrite answer_cases in Ha.
  assert (Hbatch : forall n,
            (forall k, k < n ->
               exists data,
                 embeddings_create P (InputMany (batch (map text chunks) k))
                 = Replied data) ->
            ~ In c (batch_calls (map text chunks) n)).
  { intros n Hall Hn. apply In_batch_calls in Hn. destruct Hn as [k [Hk ->]].
    destruct (Hall k Hk) as [data Hd]. cbn [call_failed] in Hfail. congruence. }
  destruct (embedTexts_outcome P (map text chunks) [])
    as [[Hall E]|[f [m [Hbefore [Hf E]]]]]; rewrite E in Ha; cbv zeta in Ha;
    cbn [app] in Ha.
  - specialize (Hbatch _ Hall).
    destruct (embeddings_create P (InputOne q)) as [[|qEmb rest]|m] eqn:Eq.
    + destruct Ha as [_ ->]. exfalso. apply in_app_or in Hin.
      destruct Hin as [Hin|[<-|[]]]; [tauto|]. cbn [call_failed] in Hfail. congruence.
    + assert (Hno : ~ In c (batch_calls (map text chunks) (batch_count (map text chunks))
                            ++ [EmbeddingsCreate (InputOne q)])).
      { intros Hx. apply in_app_or in Hx.
        destruct Hx as [Hx|[<-|[]]]; [tauto|]. cbn [call_failed] in Hfail. congruence. }
      destruct (semantic_search qEmb _) as [top|e|];
        try (destruct Ha as [_ ->]; tauto).
      destruct (chat_completions_create P (prompt P q top)) as [completion|m] eqn:Ec.
      * exfalso.
        assert (Hl : log = ((batch_calls (map text chunks)
                               (batch_count (map text chunks))
                             ++ [EmbeddingsCreate (InputOne q)])
                            ++ [ChatCompletionsCreate (prompt P q top)])%list)
          by (destruct (synthesize top (llmText_of completion)); tauto).
        subst log. apply in_app_or in Hin. destruct Hin as [Hin|[<-|[]]]; [tauto|].
        cbn [call_failed] in Hfail. congruence.
      * destruct Ha as [-> ->]. apply in_app_or in Hin.
        destruct Hin as [Hin|[<-|[]]]; [tauto|].
        cbn [call_failed] in Hfail. assert (m = message) by congruence. subst m.
        repeat split; [eauto|discriminate].
    + destruct Ha as [-> ->]. apply in_app_or in Hin.
      destruct Hin as [Hin|[<-|[]]]; [tauto|].
      cbn [call_failed] in Hfail. assert (m = message) by congruence. subst m.
      repeat split; [eauto|]. intros _ _.
      rewrite chat_calls_app, chat_calls_batch_calls. reflexivity.
  - destruct Ha as [-> ->]. rewrite batch_calls_succ in Hin |- *.
    apply in_app_or in Hin. destruct Hin as [Hin|[<-|[]]].
    + exfalso. exact (Hbatch _ Hbefore Hin).
    + cbn [call_failed] in Hfail. assert (m = message) by congruence. subst m.
      repeat split; [eauto|]. intros _ _.
      rewrite chat_calls_app, chat_calls_batch_calls. reflexivity.
Qed.

(** The embedding back end is down. *)
Lemma failed_call_ends_the_request_witness :
  fst down_run = Some (Status500 (ProviderFailure "503 Service Unavailable"))
  /\ chat_calls (snd down_run) = [].
Proof.
  destruct (failed_call_ends_the_request embeddings_down one_document
              (fst down_run) (snd down_run)
              (EmbeddingsCreate (InputMany ["Knee surgery is covered."]))
              "503 Service Unavailable")
    as [H1 [_ H2]].
  - vm_compute. reflexivity.
  - left. reflexivity.
  - reflexivity.
  - split; [exact H1|]. exact (H2 _ eq_refl).
Defined.

(** X19.  The handler does not check the number of vectors it gets back.
    When the embedding back end answers the chunk texts with fewer vectors
    than there are chunks and answers the query with a vector, some chunk
    has no embedding, scoring the chunks against the query's vector throws a
    [TypeError] there, and the response is 500, after the embeddings call
    for the query and before any chat call. *)
Theorem too_few_embeddings_give_500 (P : Providers) (body : Body) (d : Documents)
  (q : string) (chunks : list Chunk) (embeddings : list vector) (log1 : list Call)
  (qEmb : vector) (rest : list vector) :
  documents body = Some d -> falsy_documents d = false ->
  query body = Some q -> q <> EmptyString ->
  build_chunks (map (fetchAndExtract P) (as_array d)) = Ok chunks ->
  embedTexts P (map text chunks) [] = (Ok embeddings, log1) ->
  List.length embeddings < List.length chunks ->
  embeddings_create P (InputOne q) = Replied (qEmb :: rest) ->
  (exists c, In c (attach_embeddings chunks embeddings) /\ embedding c = None)
  /\ score_chunks qEmb (attach_embeddings chunks embeddings) = Throw TypeError
  /\ semantic_search qEmb (attach_embeddings chunks embeddings) = Throw TypeError
  /\ hackrx_run P body
     = (Some (Status500 TypeError), (log1 ++ [EmbeddingsCreate (InputOne q)])%list).
Proof.
  intros Ed Hd Eq Hq Eb Ee Hlen Edata.
  destruct (attach_embeddings_short chunks embeddings Hlen) as [c0 [Hin Hnone]].
  split; [now exists c0|].
  split; [exact (score_chunks_throws qEmb _ c0 Hin Hnone)|].
  split; [exact (semantic_search_short qEmb chunks embeddings Hlen)|].
  unfold hackrx_run. rewrite Ed, Hd, Eq.
  apply String.eqb_neq in Hq. rewrite Hq, Eb.
  destruct chunks as [|c chunks]; [simpl in Hlen; lia|].
  rewrite answer_cases, Ee. cbv zeta. rewrite Edata.
  now rewrite (semantic_search_short qEmb (c :: chunks) embeddings Hlen).
Qed.

(** The embedding back end answers the query with the vector [(1, 0)] and
    the chunk texts with no vector: the one chunk is scored without an
    embedding. *)
Lemma too_few_embeddings_give_500_witness :
  score_chunks [1; 0]%float
    (attach_embeddings
       [ {| text := "Knee surgery is covered."; source := "policy.txt";
            doc_index := 0; chunk_index := 0; embedding := None |} ] [])
  = Throw TypeError
  /\ hackrx_run no_chunk_vectors one_document
     = (Some (Status500 TypeError),
        [ EmbeddingsCreate (InputMany ["Knee surgery is covered."]);
          EmbeddingsCreate (InputOne "46M, knee surgery, Pune, 3-month policy") ]).
Proof.
  refine (let H := too_few_embeddings_give_500 no_chunk_vectors one_document
            (DocSingle (DocUrl "https://example.org/policy.txt"))
            "46M, knee surgery, Pune, 3-month policy"
            [ {| text := "Knee surgery is covered."; source := "policy.txt";
                 doc_index := 0; chunk_index := 0; embedding := None |} ]
            [] [EmbeddingsCreate (InputMany ["Knee surgery is covered."])]
            [1; 0]%float []
            _ _ _ _ _ _ _ _ in
          conj (proj1 (proj2 H)) (proj2 (proj2 (proj2 H)))).
  - reflexivity.
  - reflexivity.
  - reflexivity.
  - discriminate.
  - reflexivity.
  - reflexivity.
  - cbn. lia.
  - reflexivity.
Defined.

(** X20.  The envelope of a 200 response: [input] echoes the query and the
    documents, a single document as an array of one; [meta] names the
    models and carries the clock's time; [chunks_indexed] is the sum over
    the documents of the length of the text divided by 750, rounded down,
    plus one, hence at least the number of documents; [top_k] is the
    smaller of 6 and [chunks_indexed], and at least 1. *)
Theorem envelope_of_a_200_response (P : Providers) (body : Body) (env : Envelope)
  (log : list Call) :
  hackrx_run P body = (Some (Status200 env), log) ->
  exists d q,
    documents body = Some d /\ query body = Some q
    /\ input_query env = q
    /\ input_documents env = as_array d
    /\ model (meta env) = model_name
    /\ timestamp (meta env) = now P
    /\ chunks_indexed (meta env)
       = list_sum (map chunk_count (map (fetchAndExtract P) (as_array d)))
    /\ List.length (as_array d) <= chunks_indexed (meta env)
    /\ top_k (meta env) = Nat.min 6 (chunks_indexed (meta env))
    /\ 1 <= top_k (meta env).
Proof.
  intros H.
  pose proof (HandlerTotality.hackrx_run_top_k _ _ _ _ H) as Htop.
  assert (Hlog : log <> []).
  { intros ->. destruct (status_200_has_calls P body env). exact H. }
  destruct (hackrx_run_answer _ _ _ _ H Hlog) as [d [q [chunks [Ed [Eq [Eb [Hne Ha]]]]]]].
  exists d, q. rewrite answer_cases in Ha.
  destruct (embedTexts P (map text chunks) []) as [[embeddings|e|] log1];
    try (destruct Ha; discriminate).
  cbv zeta in Ha.
  destruct (embeddings_create P (InputOne q)) as [[|qEmb rest]|message];
    try (destruct Ha; discriminate).
  destruct (semantic_search qEmb _) as [top|e|]; try (destruct Ha; discriminate).
  destruct (chat_completions_create P (prompt P q top)) as [completion|message];
    try (destruct Ha; discriminate).
  destruct (synthesize top (llmText_of completion)); try (destruct Ha; discriminate).
  destruct Ha as [[= E] _]. rewrite E in Htop. subst env.
  cbn [meta input_query input_documents model timestamp chunks_indexed top_k] in *.
  rewrite build_chunks_closed_form in Eb. injection Eb as Eb.
  assert (Hn : List.length chunks
               = list_sum (map chunk_count (map (fetchAndExtract P) (as_array d)))).
  { rewrite <- Eb. apply length_concat_mapi_from. }
  pose proof (chunk_count_pos (map (fetchAndExtract P) (as_array d))) as Hpos.
  rewrite length_map in Hpos.
  assert (1 <= List.length chunks) by (destruct chunks; [congruence|simpl; lia]).
  repeat split; auto; lia.
Qed.

Lemma envelope_of_a_200_response_witness :
  exists env log,
    covered_run = (Some (Status200 env), log)
    /\ input_documents env = [DocUrl "https://example.org/policy.txt"]
    /\ chunks_indexed (meta env) = 1
    /\ top_k (meta env) = 1.
Proof.
  eexists. eexists. split; [reflexivity|].
  destruct (envelope_of_a_200_response
              (stub "Knee surgery is covered." "I cannot answer.") one_document
              _ _ ltac:(vm_compute; reflexivity))
    as [d [q [Hd [_ [_ [Hi [_ [_ [Hc [_ [Ht _]]]]]]]]]]].
  injection Hd as <-.
  split; [exact Hi|]. split; [exact Hc|]. rewrite Ht, Hc. reflexivity.
Defined.

(** X28.  A 500 response has one of two errors.  It carries the failure of
    a back end exactly when the last call of the request failed, with that
    message; otherwise it is a [TypeError] and every call was answered.  The
    [SyntaxError] of [JSON.parse] is never the error of a response: it is
    caught where it is thrown. *)
Theorem status_500_reasons (P : Providers) (body : Body) (e : Exn)
  (log : list Call) :
  hackrx_run P body = (Some (Status500 e), log) ->
  (exists message before c,
     e = ProviderFailure message
     /\ log = (before ++ [c])%list
     /\ call_failed P c message)
  \/ (e = TypeError
      /\ forall c message, In c log -> ~ call_failed P c message).
Proof.
  intros H.
  assert (Hlog : log <> []).
  { intros ->. unfold hackrx_run in H.
    destruct (documents body) as [d|]; [|discriminate].
    destruct (falsy_documents d); [discriminate|].
    destruct (query body) as [q|]; [|discriminate].
    destruct (String.eqb q ""); [discriminate|].
    rewrite build_chunks_closed_form in H.
    destruct (List.concat _) as [|c chunks]; [discriminate|].
    destruct (answer P q (as_array d) (c :: chunks) []) as [r log] eqn:Ea.
    assert (Hne : c :: chunks <> []) by discriminate.
    destruct (HandlerFacts.answer_first_call _ _ _ _ _ _ Hne Ea) as [rest ->].
    destruct r; discriminate. }
  destruct (hackrx_run_answer _ _ _ _ H Hlog) as [d [q [chunks [_ [_ [_ [_ Ha]]]]]]].
  rewrite answer_cases in Ha.
  assert (Hbatch : forall n c message,
            (forall k, k < n ->
               exists data,
                 embeddings_create P (InputMany (batch (map text chunks) k))
                 = Replied data) ->
            In c (batch_calls (map text chunks) n) -> ~ call_failed P c message).
  { intros n c message Hall Hn Hfail. apply In_batch_calls in Hn.
    destruct Hn as [k [Hk ->]]. destruct (Hall k Hk) as [data Hd].
    cbn [call_failed] in Hfail. congruence. }
  destruct (embedTexts_outcome P (map text chunks) [])
    as [[Hall E]|[f [m [Hbefore [Hf E]]]]]; rewrite E in Ha; cbv zeta in Ha;
    cbn [app] in Ha.
  2:{ destruct Ha as [[= ->] ->]. left.
      exists m, (batch_calls (map text chunks) f),
        (EmbeddingsCreate (InputMany (batch (map text chunks) f))).
      repeat split; [apply batch_calls_succ|exact Hf]. }
  destruct (embeddings_create P (InputOne q)) as [[|qEmb rest]|m] eqn:Eq.
  - destruct Ha as [[= ->] ->]. right. split; [reflexivity|].
    intros c message Hin. apply in_app_or in Hin.
    destruct Hin as [Hin|[<-|[]]]; [now apply (Hbatch _ _ _ Hall)|].
    cbn [call_failed]. congruence.
  - assert (Hno : forall c message,
              In c (batch_calls (map text chunks) (batch_count (map text chunks))
                    ++ [EmbeddingsCreate (InputOne q)]) ->
              ~ call_failed P c message).
    { intros c message Hin. apply in_app_or in Hin.
      destruct Hin as [Hin|[<-|[]]]; [now apply (Hbatch _ _ _ Hall)|].
      cbn [call_failed]. congruence. }
    destruct (semantic_search qEmb _) as [top|e'|] eqn:Es.
    + destruct (chat_completions_create P (prompt P q top)) as [completion|m] eqn:Ec.
      * destruct (synthesize top (llmText_of completion)) as [r|e'|] eqn:Ey;
          try (destruct Ha; discriminate).
        destruct Ha as [[= ->] ->]. right.
        split; [exact (AnswerRepair.synthesize_throw_is_type_error _ _ _ Ey)|].
        intros c message Hin. apply in_app_or in Hin.
        destruct Hin as [Hin|[<-|[]]]; [now apply Hno|].
        cbn [call_failed]. congruence.
      * destruct Ha as [[= ->] ->]. left.
        exists m, (batch_calls (map text chunks) (batch_count (map text chunks))
                   ++ [EmbeddingsCreate (InputOne q)])%list,
          (ChatCompletionsCreate (prompt P q top)).
        repeat split. exact Ec.
    + destruct Ha as [[= ->] ->]. right.
      split; [exact (semantic_search_throw_is_type_error _ _ _ Es)|exact Hno].
    + destruct Ha; discriminate.
  - destruct Ha as [[= ->] ->]. left.
    exists m, (batch_calls (map text chunks) (batch_count (map text chunks))),
      (EmbeddingsCreate (InputOne q)).
    repeat split. exact Eq.
Qed.

(** The embedding back end is down: the error of the response is its
    failure. *)
Lemma status_500_reasons_witness :
  (exists message, ProviderFailure "503 Service Unavailable" = ProviderFailure message)
  \/ ProviderFailure "503 Service Unavailable" = TypeError.
Proof.
  destruct (status_500_reasons embeddings_down one_document
              (ProviderFailure "503 Service Unavailable")
              [EmbeddingsCreate (InputMany ["Knee surgery is covered."])]
              ltac:(vm_compute; reflexivity))
    as [[message [_ [_ [H _]]]]|[H _]].
  - left. exists message. exact H.
  - right. exact H.
Defined.

End HandlerClaims.

(* ===================================================================== *)
(** * The document extractor *)
(* ===================================================================== *)

Module ExtractorFacts.
Import JsString Json Handler Properties Documents BlockFacts.
Import Extractor.

Lemma has_close_iff (s : string) : has_close s = true <-> occurs ">" s.
Proof.
  induction s as [|c s IH]; cbn [has_close].
  - split; [discriminate|]. intros H. now apply occurs_char_nil in H.
  - rewrite occurs_char_cons, orb_true_iff, IH, Ascii.eqb_eq. tauto.
Qed.

Lemma strip_from_no_close (s : string) :
  has_close s = false -> strip_from false s = s.
Proof.
  induction s as [|c s IH]; [reflexivity|]. cbn [has_close strip_from].
  intros H. apply orb_false_elim in H. destruct H as [_ H].
  rewrite H, andb_false_r. now rewrite IH.
Qed.

Lemma tagged_iff (s : string) : tagged s = true <-> has_tag s.
Proof.
  unfold has_tag. split.
  - induction s as [|x s IH]; cbn [tagged]; [discriminate|].
    intros H. apply orb_prop in H. destruct H as [H|H].
    + apply andb_prop in H. destruct H as [Hx Hs].
      apply Ascii.eqb_eq in Hx. subst x.
      apply has_close_iff in Hs. destruct Hs as [b [c ->]].
      now exists "", b, c.
    + destruct (IH H) as [a [b [c ->]]]. now exists (String x a), b, c.
  - intros [a [b [c ->]]]. induction a as [|x a IH]; cbn [append tagged].
    + cbn. replace (has_close (b ++ String ">" c)) with true; [reflexivity|].
      symmetry. apply has_close_iff. now exists b, c.
    + cbn [append] in IH. rewrite IH. apply orb_true_r.
Qed.

Lemma tagged_strip_from (in_tag : bool) (s : string) :
  tagged (strip_from in_tag s) = false.
Proof.
  revert in_tag; induction s as [|c s IH]; intros in_tag; [destruct in_tag; reflexivity|].
  cbn [strip_from]. destruct in_tag.
  - destruct (Ascii.eqb c ">"); [|apply IH].
    cbn [tagged]. rewrite IH. reflexivity.
  - destruct (Ascii.eqb c "<" && has_close s) eqn:E; [apply IH|].
    cbn [tagged]. rewrite IH, orb_false_r.
    destruct (Ascii.eqb c "<"); [|reflexivity].
    cbn [andb] in E |- *. now rewrite (strip_from_no_close s E).
Qed.

Lemma length_strip_from (in_tag : bool) (s : string) :
  length (strip_from in_tag s) <= length s.
Proof.
  revert in_tag; induction s as [|c s IH]; intros in_tag; [destruct in_tag; reflexivity|].
  pose proof (IH true). pose proof (IH false).
  cbn [strip_from]. destruct in_tag.
  - destruct (Ascii.eqb c ">"); simpl; lia.
  - destruct (Ascii.eqb c "<" && has_close s); simpl; lia.
Qed.

Lemma strip_from_inside (t b : string) :
  ~ occurs ">" t ->
  strip_from true (t ++ ">" ++ b) = " " ++ strip_from false b.
Proof.
  induction t as [|c t IH]; intros H.
  - reflexivity.
  - rewrite occurs_char_cons in H. cbn [append strip_from].
    destruct (Ascii.eqb_spec c ">") as [->|_]; [tauto|].
    apply IH. tauto.
Qed.

Lemma strip_tags_untagged (s : string) : tagged s = false -> strip_tags s = s.
Proof.
  unfold strip_tags. induction s as [|c s IH]; [reflexivity|].
  cbn [tagged strip_from]. intros H. apply orb_false_elim in H.
  destruct H as [-> H]. now rewrite IH.
Qed.

(** What the two branches of the [try] block return carries no error. *)
Lemma extract_remote_no_error (B : Backends) (item : DocRef) (r : Extracted) :
  extract_remote B item = inr r ->
  ex_error r = None /\ ex_source r = item_source item.
Proof.
  unfold extract_remote.
  destruct (fetch B item) as [res|]; [|discriminate].
  destruct (negb (res_ok res)); [discriminate|].
  destruct (_ || _).
  { destruct (res_arrayBuffer res); [|discriminate].
    destruct (pdf B _); [|discriminate]. now intros [= <-]. }
  destruct (_ || _).
  { destruct (res_arrayBuffer res); [|discriminate].
    destruct (extractRawText B _); [|discriminate]. now intros [= <-]. }
  destruct (res_text res); [|discriminate]. now intros [= <-].
Qed.

Lemma extract_inline_no_error (B : Backends) (filename : option string)
  (content : string) (r : Extracted) :
  extract_inline B filename content = inr r -> ex_error r = None.
Proof.
  unfold extract_inline.
  destruct (endsWith _ ".pdf").
  { destruct (pdf B _); [|discriminate]. now intros [= <-]. }
  destruct (endsWith _ ".docx").
  { destruct (extractRawText B _); [|discriminate]. now intros [= <-]. }
  now intros [= <-].
Qed.

(** The two outcomes of [fetchAndExtract]. *)
Lemma fetchAndExtract_cases (B : Backends) (item : DocRef) :
  ex_error (Extractor.fetchAndExtract B item) = None
  \/ exists message,
       Extractor.fetchAndExtract B item
       = {| ex_text := Some EmptyString; ex_source := item_source item;
            ex_error := Some message |}.
Proof.
  unfold Extractor.fetchAndExtract.
  destruct item as [url|filename content].
  - destruct (extract_remote B (DocUrl url)) as [m|r] eqn:E; [right; eauto|].
    left. now apply extract_remote_no_error in E.
  - destruct (String.eqb content EmptyString).
    + destruct (extract_remote B _) as [m|r] eqn:E; [right; eauto|].
      left. now apply extract_remote_no_error in E.
    + destruct (extract_inline B filename content) as [m|r] eqn:E; [right; eauto|].
      left. now apply extract_inline_no_error in E.
Qed.

Lemma fetchAndExtract_url_source (B : Backends) (url : string) :
  ex_source (Extractor.fetchAndExtract B (DocUrl url)) = SourceString url.
Proof.
  unfold Extractor.fetchAndExtract.
  destruct (extract_remote B (DocUrl url)) as [m|r] eqn:E; [reflexivity|].
  now apply extract_remote_no_error in E.
Qed.

End ExtractorFacts.

Module ExtractorClaims.
Import JsString Json Handler Properties Documents BlockFacts ExtractorFacts.
Import Extractor.

(** X22.  The clean-up of an HTML text replaces every tag, from a [<] to
    the first [>] after it, by one space and keeps the text outside the
    tags; a text with no tag is unchanged, no tag is left in the result, and
    the result is never longer than the text. *)
Theorem strip_tags_removes_every_tag (s : string) :
  (forall a t b,
     s = a ++ "<" ++ t ++ ">" ++ b -> ~ occurs "<" a -> ~ occurs ">" t ->
     strip_tags s = a ++ " " ++ strip_tags b)
  /\ (~ has_tag s -> strip_tags s = s)
  /\ ~ has_tag (strip_tags s)
  /\ length (strip_tags s) <= length s.
Proof.
  repeat split.
  - intros a t b -> Ha Ht. unfold strip_tags.
    induction a as [|c a IH]; cbn [append strip_from].
    + replace (has_close (t ++ String ">" b)) with true.
      * cbn. apply (strip_from_inside t b Ht).
      * symmetry. apply has_close_iff. now exists t, b.
    + rewrite occurs_char_cons in Ha.
      destruct (Ascii.eqb_spec c "<") as [->|_]; [tauto|].
      cbn [andb]. f_equal. apply IH. tauto.
  - intros H. apply strip_tags_untagged.
    destruct (tagged s) eqn:E; [|reflexivity]. apply tagged_iff in E. tauto.
  - intros H. apply tagged_iff in H. unfold strip_tags in H.
    now rewrite tagged_strip_from in H.
  - apply length_strip_from.
Qed.

(** X24.  An inline document that is read without an error has its file
    name as source, or [uploaded] when it has none: the defaults
    [uploaded.pdf] and [uploaded.docx] of the PDF and DOCX branches are
    never used, since these branches need a file name. *)
Theorem inline_source_is_the_filename (B : Backends) (filename : option string)
  (content : string) :
  content <> EmptyString ->
  ex_error (Extractor.fetchAndExtract B (DocInline filename content)) = None ->
  ex_source (Extractor.fetchAndExtract B (DocInline filename content))
  = SourceString (filename_or filename "uploaded").
Proof.
  intros Hc. unfold Extractor.fetchAndExtract.
  apply String.eqb_neq in Hc. rewrite Hc. unfold extract_inline.
  assert (Hname : forall k default,
            endsWith (toLowerCase (filename_or filename EmptyString)) k = true ->
            k <> EmptyString ->
            filename_or filename default = filename_or filename "uploaded").
  { intros k default Hk Hne. unfold filename_or in *.
    destruct filename as [f|]; [destruct (String.eqb f EmptyString)|];
      try reflexivity; destruct k; try congruence; discriminate. }
  destruct (endsWith _ ".pdf") eqn:Epdf.
  - destruct (pdf B _); cbn [ex_error ex_source]; [|discriminate].
    intros _. f_equal. now apply (Hname ".pdf").
  - destruct (endsWith _ ".docx") eqn:Edocx.
    + destruct (extractRawText B _); cbn [ex_error ex_source]; [|discriminate].
      intros _. f_equal. now apply (Hname ".docx").
    + reflexivity.
Qed.

(** A text file sent inline. *)
Lemma inline_source_is_the_filename_witness :
  ex_source (Extractor.fetchAndExtract Scenarios.offline
               (DocInline (Some "notes.txt") "aGVsbG8="))
  = SourceString (filename_or (Some "notes.txt") "uploaded").
Proof.
  apply (inline_source_is_the_filename Scenarios.offline (Some "notes.txt") "aGVsbG8=").
  - discriminate.
  - reflexivity.
Defined.

(** X23.  No error leaves [fetchAndExtract].  A result that carries an
    error has the empty text, and the item itself as source; the source of
    a URL is always the URL; a [fetch] that fails gives its message as the
    error, and a response that is not OK gives [Fetch failed] and the
    status. *)
Theorem fetchAndExtract_catches_errors (B : Backends) (item : DocRef) :
  let result := Extractor.fetchAndExtract B item in
  (forall message, ex_error result = Some message ->
     ex_text result = Some EmptyString /\ ex_source result = item_source item)
  /\ (forall url, item = DocUrl url -> ex_source result = SourceString url)
  /\ (forall url message,
        item = DocUrl url -> fetch B item = Failed message ->
        ex_error result = Some message)
  /\ (forall url res,
        item = DocUrl url -> fetch B item = Replied res -> res_ok res = false ->
        ex_error result = Some ("Fetch failed " ++ nat_to_string (res_status res))).
Proof.
  intros result. subst result. split; [|split; [|split]].
  - intros message H.
    destruct (fetchAndExtract_cases B item) as [E|[m E]]; [congruence|].
    rewrite E. auto.
  - intros url ->. apply fetchAndExtract_url_source.
  - intros url message -> H. unfold Extractor.fetchAndExtract, extract_remote.
    now rewrite H.
  - intros url res -> H Hok. unfold Extractor.fetchAndExtract, extract_remote.
    now rewrite H, Hok.
Qed.

End ExtractorClaims.

Module UnreadableDocuments.
Import JsString Json Handler Properties Documents Layout LayoutFacts ExtractorFacts.

(** The document the handler gets for a URL that could not be read. *)
Lemma unreadable_doc (B : Extractor.Backends) (P : Providers) (url : string) :
  Extractor.ex_error (Extractor.fetchAndExtract B (DocUrl url)) <> None ->
  exists message,
    fetchAndExtract (with_extractor B P) (DocUrl url)
    = {| doc_text := Some EmptyString; doc_source := url; doc_error := Some message |}.
Proof.
  intros H. destruct (fetchAndExtract_cases B (DocUrl url)) as [E|[message E]];
    [congruence|].
  exists message. cbn [with_extractor fetchAndExtract]. now rewrite E.
Qed.

Lemma unreadable_chunks (B : Extractor.Backends) (P : Providers) (urls : list string)
  (i : nat) :
  (forall url, In url urls ->
     Extractor.ex_error (Extractor.fetchAndExtract B (DocUrl url)) <> None) ->
  List.concat
    (mapi_from i (fun di doc => map (chunk_at di doc) (seq 0 (chunk_count doc)))
       (map (fetchAndExtract (with_extractor B P)) (map DocUrl urls)))
  = mapi_from i empty_chunk urls.
Proof.
  revert i; induction urls as [|url urls IH]; intros i H; [reflexivity|].
  cbn [map mapi_from List.concat].
  destruct (unreadable_doc B P url) as [message ->]; [apply H; now left|].
  rewrite IH by (intros u Hu; apply H; now right).
  reflexivity.
Qed.

Lemma text_empty_chunks (urls : list string) (i : nat) :
  map text (mapi_from i empty_chunk urls) = map (fun _ => EmptyString) urls.
Proof.
  revert i; induction urls as [|url urls IH]; intros i; [reflexivity|].
  cbn [mapi_from map]. now rewrite IH.
Qed.

(** X25.  Documents that cannot be read do not stop the request.  When
    [fetchAndExtract] ends in an error for every URL of a request, every
    document still gives one chunk, with the empty text, and the handler
    goes on to embed these empty texts. *)
Theorem unreadable_documents_are_indexed (B : Extractor.Backends) (P : Providers)
  (urls : list string) (q : string) :
  q <> EmptyString -> urls <> [] ->
  (forall url, In url urls ->
     Extractor.ex_error (Extractor.fetchAndExtract B (DocUrl url)) <> None) ->
  build_chunks (map (fetchAndExtract (with_extractor B P)) (map DocUrl urls))
  = Ok (mapi empty_chunk urls)
  /\ exists rest,
       snd (hackrx_run (with_extractor B P)
              {| documents := Some (DocArray (map DocUrl urls)); query := Some q |})
       = EmbeddingsCreate (InputMany (firstn BATCH (map (fun _ => EmptyString) urls)))
         :: rest.
Proof.
  intros Hq Hurls Hfail.
  assert (Hb : build_chunks (map (fetchAndExtract (with_extractor B P)) (map DocUrl urls))
               = Ok (mapi empty_chunk urls)).
  { rewrite build_chunks_closed_form. unfold mapi. now rewrite unreadable_chunks. }
  split; [exact Hb|].
  unfold hackrx_run. cbn [documents query falsy_documents as_array].
  apply String.eqb_neq in Hq. rewrite Hq, Hb.
  destruct (mapi empty_chunk urls) as [|c chunks] eqn:Ec.
  { destruct urls; [congruence|discriminate]. }
  destruct (answer _ q _ (c :: chunks) []) as [r log] eqn:Ea.
  assert (Hne : c :: chunks <> []) by discriminate.
  destruct (HandlerFacts.answer_first_call _ _ _ _ _ _ Hne Ea) as [rest ->].
  rewrite <- Ec. unfold mapi. rewrite text_empty_chunks.
  destruct r; cbn [snd]; eauto.
Qed.

(** One URL and no network. *)
Lemma unreadable_documents_are_indexed_witness :
  build_chunks
    (map (fetchAndExtract (with_extractor Scenarios.offline (Fixtures.stub "" "")))
       (map DocUrl ["https://example.org/policy.pdf"]))
  = Ok (mapi empty_chunk ["https://example.org/policy.pdf"]).
Proof.
  refine (proj1 (unreadable_documents_are_indexed Scenarios.offline (Fixtures.stub "" "")
                   ["https://example.org/policy.pdf"] "knee surgery" _ _ _)).
  - discriminate.
  - discriminate.
  - intros url [<-|[]]. discriminate.
Defined.

End UnreadableDocuments.

Module HtmlFacts.
Import JsString Json Handler Properties Documents BlockFacts HeuristicClaims.
Import Extractor.

Lemma toLowerCase_app (a b : string) :
  toLowerCase (a ++ b) = toLowerCase a ++ toLowerCase b.
Proof. induction a as [|c a IH]; simpl; [reflexivity|now rewrite IH]. Qed.

Lemma trimStart_split (s : string) :
  exists ws, blank ws = true /\ s = ws ++ trimStart s.
Proof.
  induction s as [|c s [ws [Hws IH]]]; [now exists ""|].
  cbn [trimStart]. destruct (is_space c) eqn:E.
  - exists (String c ws). cbn [blank append]. rewrite E, Hws. split; [reflexivity|].
    now f_equal.
  - now exists "".
Qed.

Lemma trimStart_blank (ws r : string) :
  blank ws = true -> trimStart (ws ++ r) = trimStart r.
Proof.
  induction ws as [|c ws IH]; [reflexivity|]. cbn [blank append trimStart].
  intros H. apply andb_prop in H. destruct H as [-> H]. now apply IH.
Qed.

Lemma prefix_toLowerCase (k s : string) :
  String.prefix k (toLowerCase s) = true ->
  exists name rest, s = name ++ rest /\ toLowerCase name = k.
Proof.
  revert s; induction k as [|x k IH]; intros s H.
  - now exists "", s.
  - destruct s as [|c s]; [discriminate|]. cbn [toLowerCase String.prefix] in H.
    destruct (ascii_dec x (lower_char c)) as [->|]; [|discriminate].
    destruct (IH _ H) as [name [rest [-> <-]]].
    now exists (String c name), rest.
Qed.

(** Lower-casing keeps white space white. *)
Lemma lower_char_space (c : ascii) :
  is_space c = true -> is_space (lower_char c) = true.
Proof.
  destruct c as [[] [] [] [] [] [] [] []]; vm_compute; intros H;
    first [reflexivity | discriminate].
Qed.

Lemma name_not_blank (name rest k : string) :
  In k html_names -> toLowerCase name = k ->
  trimStart (name ++ rest) = name ++ rest.
Proof.
  intros Hk E. destruct name as [|c name].
  - exfalso. cbn in E. subst k. cbn in Hk. intuition discriminate.
  - cbn [append trimStart]. destruct (is_space c) eqn:Hc; [|reflexivity].
    exfalso. apply lower_char_space in Hc. cbn [toLowerCase] in E.
    cbn in Hk. destruct Hk as [<-|[<-|[<-|[<-|[]]]]]; injection E as E _;
      rewrite E in Hc; discriminate.
Qed.

Lemma opens_html_tag_iff (r : string) :
  opens_html_tag r = true
  <-> exists ws name rest,
        r = ws ++ name ++ rest /\ blank ws = true /\ In (toLowerCase name) html_names.
Proof.
  unfold opens_html_tag. split.
  - intros H. destruct (trimStart_split r) as [ws [Hws E]].
    assert (Hk : exists k, In k html_names
                           /\ String.prefix k (toLowerCase (trimStart r)) = true).
    { apply orb_prop in H. destruct H as [H|H]; [|exists "div"; cbn; tauto].
      apply orb_prop in H. destruct H as [H|H]; [|exists "p"; cbn; tauto].
      apply orb_prop in H. destruct H as [H|H]; [exists "html"|exists "body"];
        cbn; tauto. }
    destruct Hk as [k [Hk Hp]].
    destruct (prefix_toLowerCase _ _ Hp) as [name [rest [E2 <-]]].
    exists ws, name, rest. rewrite <- E2. auto.
  - intros [ws [name [rest [-> [Hws Hk]]]]].
    rewrite (trimStart_blank ws _ Hws).
    rewrite (name_not_blank name rest _ Hk eq_refl), toLowerCase_app.
    assert (Hp : String.prefix (toLowerCase name) (toLowerCase name ++ toLowerCase rest)
                 = true) by (apply prefix_true_iff; eauto).
    cbn in Hk. destruct Hk as [E|[E|[E|[E|[]]]]]; rewrite <- E in Hp at 1; rewrite Hp;
      rewrite ?orb_true_r; reflexivity.
Qed.

End HtmlFacts.

Module HtmlClaims.
Import JsString Json Handler Properties Documents BlockFacts HtmlFacts.
Import Extractor.

(** X26.  A text is taken for HTML exactly when it holds a [<] followed,
    after any white space, by [html], [body], [p] or [div] in any letter
    case; what comes after the name does not matter, so that [<pre] and
    [< Photo] count as well. *)
Theorem isHtml_looks_for_four_tags (txt : string) :
  isHtml txt = true
  <-> exists a ws name rest,
        txt = a ++ "<" ++ ws ++ name ++ rest
        /\ blank ws = true
        /\ In (toLowerCase name) html_names.
Proof.
  split.
  - induction txt as [|c r IH]; cbn [isHtml]; [discriminate|].
    intros H. apply orb_prop in H. destruct H as [H|H].
    + apply andb_prop in H. destruct H as [Hc Hr].
      apply Ascii.eqb_eq in Hc. subst c.
      apply opens_html_tag_iff in Hr. destruct Hr as [ws [name [rest [-> [Hws Hk]]]]].
      now exists "", ws, name, rest.
    + destruct (IH H) as [a [ws [name [rest [-> [Hws Hk]]]]]].
      now exists (String c a), ws, name, rest.
  - intros [a [ws [name [rest [-> [Hws Hk]]]]]].
    induction a as [|c a IH]; cbn [append isHtml].
    + replace (opens_html_tag (ws ++ name ++ rest)) with true; [reflexivity|].
      symmetry. apply opens_html_tag_iff. now exists ws, name, rest.
    + cbn [append] in IH. rewrite IH. apply orb_true_r.
Qed.

End HtmlClaims.

(* ===================================================================== *)
(** * The simplified handlers: their status codes *)
(* ===================================================================== *)

Module SimpleStatuses.
Import Json Pipeline Simple.

(** X27.  The route handler answers 200 on every path; the handler of
    [pages/api/webhook.js] sends the same body and tells the failures apart
    by status.  When the model call fails, both answer the error, with 200
    and with 500; when the model answers a text, both answer its JSON value
    with 200 if [JSON.parse] reads it, and the syntax error, with 200 and
    with 500, if not.  The handler of [pages/api/webhook.js] answers 500 to
    a POST with no body and 405 to every method but POST, whatever the
    body. *)
Theorem simplified_handlers_statuses (P : Providers) (query : option string) :
  (forall req_json, status (POST P req_json) = 200)
  /\ (forall message,
        chat_completions_create P
          [ {| role := "user"; content := simple_prompt query |} ]
        = Failed message ->
        POST P (Replied query)
        = {| status := 200; body := BodyError (ProviderFailure message) |}
        /\ handler P "POST" (Some query)
           = {| status := 500; body := BodyError (ProviderFailure message) |})
  /\ (forall reply,
        chat_completions_create P
          [ {| role := "user"; content := simple_prompt query |} ]
        = Replied (Some reply) ->
        match JSON_parse reply with
        | Some v =>
            POST P (Replied query) = {| status := 200; body := BodyJson v |}
            /\ handler P "POST" (Some query)
               = {| status := 200; body := BodyJson v |}
        | None =>
            POST P (Replied query)
            = {| status := 200; body := BodyError SyntaxError |}
            /\ handler P "POST" (Some query)
               = {| status := 500; body := BodyError SyntaxError |}
        end)
  /\ handler P "POST" None = {| status := 500; body := BodyError TypeError |}
  /\ (forall method req_body,
        method <> "POST" ->
        handler P method req_body
        = {| status := 405;
             body := BodyJson (JObj [("error", JStr "Method not allowed")]) |}).
Proof.
  split; [|split; [|split; [|split]]].
  - intros [q|message]; [|reflexivity].
    unfold POST. destruct (decide P q); reflexivity.
  - intros message H. unfold POST, handler, decide. rewrite H.
    split; reflexivity.
  - intros reply H. unfold POST, handler, decide. rewrite H.
    destruct (JSON_parse reply); split; reflexivity.
  - reflexivity.
  - intros method req_body H. unfold handler.
    apply String.eqb_neq in H. now rewrite H.
Qed.

End SimpleStatuses.
